(** * alicebot.utils.Condition: a value-passing condition variable

    A shallow embedding of [class Condition] of [alicebot/utils.py]
    together with the parts of the asyncio runtime it is built on
    ([asyncio.Future], [asyncio.Lock], the wake-up rule of [asyncio.Task],
    as in CPython's [asyncio/futures.py], [locks.py] and [tasks.py]), and
    the properties of the specification proved about it.

    The second part of the file embeds the module loader of the same
    source file ([load_module], [ModuleInfo.reload],
    [load_module_from_name], [load_module_form_file],
    [load_modules_from_dir]) over an interface for the interpreter and the
    import system.

    Python objects that are shared between tasks (futures, the lock, the
    deque of waiters) live in one explicit store; a coroutine is a step
    function from one suspension point to the next. *)

From Stdlib Require Import Ascii String.
From stdpp Require Import base numbers list strings gmap.

Open Scope Z_scope.

(** ** Exceptions and results *)

Inductive exn := RuntimeError | CancelledError | ValueError.

(** What a call does when it stops running: it returns or it raises.
    A raise keeps every store update made before it. *)
Inductive outcome (A : Type) :=
| Returned (a : A)
| Raised (e : exn).
Arguments Returned {A} a.
Arguments Raised {A} e.

(** One run of a coroutine from a resumption to the next suspension point
    (or to its end). *)
Inductive costep (PC A : Type) :=
| Suspended (pc : PC)
| Finished (o : outcome A).
Arguments Suspended {PC A} pc.
Arguments Finished {PC A} o.

(** How [Task.__step] resumes a suspended coroutine: [coro.send(None)] or
    [coro.throw(CancelledError)]. *)
Inductive wakeup := Send | Throw.

(** Futures are shared objects: they are named by their index in the
    store. Tasks are named by a number. *)
Abbreviation fid := nat (only parsing).
Abbreviation tid := nat (only parsing).

(** The values a program passes around include the object [True], which
    [asyncio.Lock] stores in its own futures. *)
Class PyValues (V : Type) := { PyTrue : V }.

Section Model.

(** [V] is the type of the values passed through the condition ([_T]);
    [G] is the state guarded by the condition, read by the predicates of
    [wait_for]. *)
Context {V G : Type} `{!PyValues V}.

(** ** The store *)

(** [asyncio.Future]: pending, finished with a result, or cancelled. *)
Inductive future :=
| Pending
| Result (v : V)
| Cancelled.

(** - [futs]: every future made by [loop.create_future()], in creation order;
    - [lk_locked], [lk_waiters]: [Lock._locked] and [Lock._waiters] of
      [Condition._lock] (the deque is [None] until first used, which the
      lock treats as empty);
    - [waiters]: [Condition._waiters];
    - [guarded]: the user's state protected by the condition;
    - [lk_holder]: ghost. [asyncio.Lock] records no owner; this field names
      the task whose [acquire] took the lock, and is what "the calling task
      holds the Mutex" refers to. No operation reads it. *)
Record state := State {
  futs : list future;
  lk_locked : bool;
  lk_waiters : list fid;
  waiters : list fid;
  guarded : G;
  lk_holder : option tid
}.

Definition set_futs (fs : list future) (st : state) : state :=
  State fs (lk_locked st) (lk_waiters st) (waiters st) (guarded st) (lk_holder st).
Definition set_lock (b : bool) (h : option tid) (st : state) : state :=
  State (futs st) b (lk_waiters st) (waiters st) (guarded st) h.
Definition set_lk_waiters (ws : list fid) (st : state) : state :=
  State (futs st) (lk_locked st) ws (waiters st) (guarded st) (lk_holder st).
Definition set_waiters (ws : list fid) (st : state) : state :=
  State (futs st) (lk_locked st) (lk_waiters st) ws (guarded st) (lk_holder st).
Definition set_guarded (g : G) (st : state) : state :=
  State (futs st) (lk_locked st) (lk_waiters st) (waiters st) g (lk_holder st).

(** [Condition.__init__]: a fresh lock and an empty deque. *)
Definition init (g : G) : state := State [] false [] [] g None.

(** ** asyncio.Future *)

(** [fut.done()]. An index outside the store names no future; it counts
    as done, so that no operation ever sets or awaits it. *)
Definition done (st : state) (fut : fid) : bool :=
  match futs st !! fut with
  | Some Pending => false
  | _ => true
  end.

(** [fut.cancelled()] *)
Definition cancelled (st : state) (fut : fid) : bool :=
  match futs st !! fut with
  | Some Cancelled => true
  | _ => false
  end.

(** [fut.set_result(value)], called on futures that are not done. *)
Definition set_result (fut : fid) (value : V) (st : state) : state :=
  set_futs (<[fut := Result value]> (futs st)) st.

(** [fut.cancel()]: a future already done refuses. *)
Definition future_cancel (fut : fid) (st : state) : state * bool :=
  if done st fut then (st, false)
  else (set_futs (<[fut := Cancelled]> (futs st)) st, true).

(** [loop.create_future()] *)
Definition create_future (st : state) : fid * state :=
  (length (futs st), set_futs (futs st ++ [Pending]) st).

(** The end of [Future.__await__], run when the coroutine suspended in
    [await fut] is resumed: a thrown [CancelledError] surfaces at the
    [yield]; otherwise [fut.result()] is returned, which raises for a
    cancelled future; resuming on a future that is not done is a
    [RuntimeError]. *)
Definition await_resume (w : wakeup) (fut : fid) (st : state) : outcome V :=
  match w with
  | Throw => Raised CancelledError
  | Send =>
      match futs st !! fut with
      | Some (Result v) => Returned v
      | Some Cancelled => Raised CancelledError
      | _ => Raised RuntimeError
      end
  end.

(** [deque.remove(x)]: drops the first occurrence, [ValueError] ([None]
    here) when there is none. *)
Fixpoint deque_remove (x : fid) (d : list fid) : option (list fid) :=
  match d with
  | [] => None
  | y :: d' =>
      if decide (x = y) then Some d'
      else match deque_remove x d' with
           | Some r => Some (y :: r)
           | None => None
           end
  end.

(** ** asyncio.Lock *)

(** [Lock.locked()], exported as [Condition.locked]. *)
Definition locked (st : state) : bool := lk_locked st.

(** [Lock._wake_up_first()] *)
Definition _wake_up_first (st : state) : state :=
  match lk_waiters st with
  | [] => st
  | fut :: _ => if done st fut then st else set_result fut PyTrue st
  end.

(** [Lock.release()], exported as [Condition.release]. *)
Definition release (st : state) : state * outcome unit :=
  if lk_locked st
  then (_wake_up_first (set_lock false None st), Returned tt)
  else (st, Raised RuntimeError).

(** [Lock.acquire()] up to its [await fut]: the lock is taken at once when
    it is free and no live waiter is queued; otherwise the caller queues a
    new future and suspends on it. *)
Definition acquire_begin (t : tid) (st : state) : state * costep fid unit :=
  if negb (lk_locked st) && forallb (cancelled st) (lk_waiters st)
  then (set_lock true (Some t) st, Finished (Returned tt))
  else
    let '(fut, st1) := create_future st in
    (set_lk_waiters (lk_waiters st1 ++ [fut]) st1, Suspended fut).

(** [Lock.acquire()] from its [await fut] on: the [finally] clause removes
    the future; a [CancelledError] passes the wake-up on when the lock is
    free and is re-raised; otherwise the lock is taken. *)
Definition acquire_resume (t : tid) (fut : fid) (w : wakeup) (st : state)
  : state * outcome unit :=
  match deque_remove fut (lk_waiters st) with
  | None => (st, Raised ValueError)
  | Some ws =>
      let st1 := set_lk_waiters ws st in
      match await_resume w fut st with
      | Returned _ => (set_lock true (Some t) st1, Returned tt)
      | Raised CancelledError =>
          (if lk_locked st1 then st1 else _wake_up_first st1,
           Raised CancelledError)
      | Raised e => (st1, Raised e)
      end
  end.

(** ** Condition *)

(** The suspension points of [Condition.wait]:
    - [AtFut fut]: in [await fut] (line 72), [fut] being the handle this
      call queued;
    - [AtAcquire lfut cancelled body]: inside [await self.acquire()]
      (line 81), on the lock's future [lfut]; [cancelled] is the flag of
      the retry loop and [body] is what the [try] body produced (the value
      to return or the exception to re-raise once the [finally] clause is
      through). *)
Inductive wait_pc :=
| AtFut (fut : fid)
| AtAcquire (lfut : fid) (cancelled : bool) (body : outcome V).

(** Lines 86-87 and the end of the outer [finally]: a cancellation seen
    while re-acquiring replaces whatever the body produced. *)
Definition wait_exit (cancelled : bool) (body : outcome V) : outcome V :=
  if cancelled then Raised CancelledError else body.

(** Lines 79-87, entered at the top of [while True]: one call of
    [self.acquire()], which either takes the lock at once ([break]) or
    suspends. *)
Definition reacquire (t : tid) (cancelled : bool) (body : outcome V)
    (st : state) : state * costep wait_pc V :=
  match acquire_begin t st with
  | (st1, Finished (Returned _)) => (st1, Finished (wait_exit cancelled body))
  | (st1, Finished (Raised e)) => (st1, Finished (Raised e))
  | (st1, Suspended lfut) => (st1, Suspended (AtAcquire lfut cancelled body))
  end.

(** [Condition.wait], lines 64-72: check, release, queue a new future,
    suspend. It never returns without suspending: the new future is
    pending. *)
Definition wait_begin (st : state) : state * outcome wait_pc :=
  if negb (locked st) then (st, Raised RuntimeError)
  else
    match release st with
    | (st1, Raised e) => (st1, Raised e)
    | (st1, Returned _) =>
        let '(fut, st2) := create_future st1 in
        (set_waiters (waiters st2 ++ [fut]) st2, Returned (AtFut fut))
    end.

(** [Condition.wait] resumed at a suspension point.
    At [AtFut]: the inner [finally] removes the handle (a [ValueError]
    from [remove] replaces the body's result), then the outer [finally]
    starts re-acquiring with [cancelled = False].
    At [AtAcquire]: [acquire] finishes; [CancelledError] sets the flag and
    goes round the loop, success leaves it, any other exception escapes. *)
Definition wait_resume (t : tid) (pc : wait_pc) (w : wakeup) (st : state)
  : state * costep wait_pc V :=
  match pc with
  | AtFut fut =>
      match deque_remove fut (waiters st) with
      | None => reacquire t false (Raised ValueError) st
      | Some ws =>
          reacquire t false (await_resume w fut st) (set_waiters ws st)
      end
  | AtAcquire lfut cancelled body =>
      match acquire_resume t lfut w st with
      | (st1, Returned _) => (st1, Finished (wait_exit cancelled body))
      | (st1, Raised CancelledError) => reacquire t true body st1
      | (st1, Raised e) => (st1, Finished (Raised e))
      end
  end.

(** The loop of [Condition.notify], lines 100-107, over the deque. *)
Fixpoint notify_loop (value : V) (n idx : Z) (ws : list fid) (st : state)
  : state :=
  match ws with
  | [] => st
  | fut :: ws' =>
      if idx >=? n then st
      else if negb (done st fut)
           then notify_loop value n (idx + 1) ws' (set_result fut value st)
           else notify_loop value n idx ws' st
  end.

(** [Condition.notify(value, n)] *)
Definition notify (value : V) (n : Z) (st : state) : state * outcome unit :=
  if negb (locked st) then (st, Raised RuntimeError)
  else (notify_loop value n 0 (waiters st) st, Returned tt).

(** [Condition.notify_all(value)] *)
Definition notify_all (value : V) (st : state) : state * outcome unit :=
  notify value (Z.of_nat (length (waiters st))) st.

(** [Condition.wait_for(predicate)]. Its only suspension points are those
    of the [wait] it is running, so it shares [wait_pc].
    [wait_for_again] is the loop from the test [while not result] on, with
    [result] just computed. *)
Definition wait_for_again (result : bool) (st : state)
  : state * costep wait_pc bool :=
  if result then (st, Finished (Returned result))
  else
    match wait_begin st with
    | (st1, Returned pc) => (st1, Suspended pc)
    | (st1, Raised e) => (st1, Finished (Raised e))
    end.

Definition wait_for_begin (predicate : state → bool) (st : state)
  : state * costep wait_pc bool :=
  wait_for_again (predicate st) st.

Definition wait_for_resume (t : tid) (predicate : state → bool)
    (pc : wait_pc) (w : wakeup) (st : state) : state * costep wait_pc bool :=
  match wait_resume t pc w st with
  | (st1, Suspended pc') => (st1, Suspended pc')
  | (st1, Finished (Raised e)) => (st1, Finished (Raised e))
  | (st1, Finished (Returned _)) => wait_for_again (predicate st1) st1
  end.

(** ** asyncio.Task, as far as waking a waiter goes *)






(** ** Runs *)

(** A suspended coroutine runs to its end: it is resumed any number of
    times, and between two resumptions the rest of the program changes the
    store in any way. [run resume pc st ws st' o]: from [pc] and store
    [st], resumed with the wake-ups [ws] in turn, the call ends in store
    [st'] with outcome [o]. *)
Inductive run {A : Type}
    (resume : wait_pc → wakeup → state → state * costep wait_pc A) :
    wait_pc → state → list wakeup → state → outcome A → Prop :=
| run_finished pc w st st' o :
    resume pc w st = (st', Finished o) →
    run resume pc st [w] st' o
| run_suspended pc w st st1 pc' st2 ws st' o :
    resume pc w st = (st1, Suspended pc') →
    run resume pc' st2 ws st' o →
    run resume pc st (w :: ws) st' o.

Definition wait_run (t : tid) := run (wait_resume t).
Definition wait_for_run (t : tid) (predicate : state → bool) :=
  run (wait_for_resume t predicate).

(** Any operation of the lock or of the condition, by any task, or a
    cancellation, or a change of the guarded state: the steps the program
    around one waiter is made of. *)
Inductive api_step : state → state → Prop :=
| api_acquire_begin t st : api_step st (acquire_begin t st).1
| api_acquire_resume t fut w st : api_step st (acquire_resume t fut w st).1
| api_release st : api_step st (release st).1
| api_wait_begin st : api_step st (wait_begin st).1
| api_wait_resume t pc w st : api_step st (wait_resume t pc w st).1
| api_notify value n st : api_step st (notify value n st).1
| api_notify_all value st : api_step st (notify_all value st).1
| api_cancel fut st : api_step st (future_cancel fut st).1
| api_guarded g st : api_step st (set_guarded g st).

(** The stores a program can reach from a new condition. *)
Inductive reachable : state → Prop :=
| reachable_init g : reachable (init g)
| reachable_step st st' : reachable st → api_step st st' → reachable st'.

(** A call "returns" in the sense of the specification when it hands
    over a value or raises the cancellation error. *)
Definition returned_or_cancelled {A : Type} (o : outcome A) : Prop :=
  match o with
  | Returned _ | Raised CancelledError => True
  | Raised _ => False
  end.

(** A suspended [wait] that can no longer return a value: it was cancelled
    while re-acquiring, or its body ended with an exception. *)
Definition doomed (pc : wait_pc) : Prop :=
  match pc with
  | AtFut _ => False
  | AtAcquire _ cancelled body => cancelled = true ∨ ∃ e, body = Raised e
  end.

(** ** A program: tasks around one condition *)

(** What a suspended task is in the middle of: a plain [acquire] (as in
    [async with cond]), a [wait], or a [wait_for] with its predicate. *)
Inductive tstate :=
| InAcquire (lfut : fid)
| InWait (pc : wait_pc)
| InWaitFor (predicate : state → bool) (pc : wait_pc).

(** The future a suspended task awaits, and the queue that holds it:
    [true] for [Condition._waiters], [false] for [Lock._waiters]. *)
Definition pc_awaited (pc : wait_pc) : bool * fid :=
  match pc with
  | AtFut fut => (true, fut)
  | AtAcquire lfut _ _ => (false, lfut)
  end.

Definition awaited (ts : tstate) : bool * fid :=
  match ts with
  | InAcquire lfut => (false, lfut)
  | InWait pc | InWaitFor _ pc => pc_awaited pc
  end.

Definition queue (k : bool) (st : state) : list fid :=
  if k then waiters st else lk_waiters st.

(** The store and the suspended tasks; a task that is not in the table is
    running or runnable at the top of its own code. *)
Record system := System {
  store : state;
  tasks : gmap tid tstate
}.

Definition set_task (t : tid) (new : option tstate) (tk : gmap tid tstate)
  : gmap tid tstate :=
  match new with
  | Some ts => <[t := ts]> tk
  | None => delete t tk
  end.

(** What a task does in one turn of the event loop. *)
Inductive label :=
| LAcquire (t : tid)
| LAcquireResume (t : tid) (w : wakeup)
| LRelease (t : tid)
| LWait (t : tid)
| LWaitResume (t : tid) (w : wakeup)
| LWaitFor (t : tid) (predicate : state → bool)
| LWaitForResume (t : tid) (w : wakeup)
| LNotify (t : tid) (value : V) (n : Z)
| LNotifyAll (t : tid) (value : V)
| LCancel (t : tid)
| LGuarded (t : tid) (g : G).

Definition suspension {A : Type} (f : wait_pc → tstate)
    (r : costep wait_pc A) : option tstate :=
  match r with
  | Suspended pc => Some (f pc)
  | Finished _ => None
  end.

(** The turns of a program. A running task calls an operation; a suspended
    task is resumed where it stands, by a send or a throw; [Task.cancel]
    cancels the future a suspended task awaits. *)
Inductive sys_step : system → label → system → Prop :=
| step_acquire t st tk st' r :
    tk !! t = None → acquire_begin t st = (st', r) →
    sys_step (System st tk) (LAcquire t)
      (System st' (set_task t (match r with
                               | Suspended lfut => Some (InAcquire lfut)
                               | Finished _ => None
                               end) tk))
| step_acquire_resume t lfut w st tk st' o :
    tk !! t = Some (InAcquire lfut) → acquire_resume t lfut w st = (st', o) →
    sys_step (System st tk) (LAcquireResume t w) (System st' (delete t tk))
| step_release t st tk :
    tk !! t = None →
    sys_step (System st tk) (LRelease t) (System (release st).1 tk)
| step_wait t st tk st' o :
    tk !! t = None → wait_begin st = (st', o) →
    sys_step (System st tk) (LWait t)
      (System st' (set_task t (match o with
                               | Returned pc => Some (InWait pc)
                               | Raised _ => None
                               end) tk))
| step_wait_resume t pc w st tk st' r :
    tk !! t = Some (InWait pc) → wait_resume t pc w st = (st', r) →
    sys_step (System st tk) (LWaitResume t w)
      (System st' (set_task t (suspension InWait r) tk))
| step_wait_for t predicate st tk st' r :
    tk !! t = None → wait_for_begin predicate st = (st', r) →
    sys_step (System st tk) (LWaitFor t predicate)
      (System st' (set_task t (suspension (InWaitFor predicate) r) tk))
| step_wait_for_resume t predicate pc w st tk st' r :
    tk !! t = Some (InWaitFor predicate pc) →
    wait_for_resume t predicate pc w st = (st', r) →
    sys_step (System st tk) (LWaitForResume t w)
      (System st' (set_task t (suspension (InWaitFor predicate) r) tk))
| step_notify t value n st tk :
    tk !! t = None →
    sys_step (System st tk) (LNotify t value n) (System (notify value n st).1 tk)
| step_notify_all t value st tk :
    tk !! t = None →
    sys_step (System st tk) (LNotifyAll t value)
      (System (notify_all value st).1 tk)
| step_cancel t ts st tk :
    tk !! t = Some ts →
    sys_step (System st tk) (LCancel t)
      (System (future_cancel (awaited ts).2 st).1 tk)
| step_guarded t g st tk :
    tk !! t = None →
    sys_step (System st tk) (LGuarded t g) (System (set_guarded g st) tk).

(** The states of a program that starts with a new condition. *)
Inductive sys_reachable : system → Prop :=
| sys_reachable_init g : sys_reachable (System (init g) ∅)
| sys_reachable_step sys lbl sys' :
    sys_reachable sys → sys_step sys lbl sys' → sys_reachable sys'.

(** The same turns as a function of the label, to run programs. *)
Definition sys_exec (lbl : label) (sys : system) : option system :=
  let st := store sys in
  let tk := tasks sys in
  match lbl, tk !! match lbl with
                   | LAcquire t | LAcquireResume t _ | LRelease t | LWait t
                   | LWaitResume t _ | LWaitFor t _ | LWaitForResume t _
                   | LNotify t _ _ | LNotifyAll t _ | LCancel t
                   | LGuarded t _ => t
                   end with
  | LAcquire t, None =>
      let '(st', r) := acquire_begin t st in
      Some (System st' (set_task t (match r with
                                    | Suspended lfut => Some (InAcquire lfut)
                                    | Finished _ => None
                                    end) tk))
  | LAcquireResume t w, Some (InAcquire lfut) =>
      Some (System (acquire_resume t lfut w st).1 (delete t tk))
  | LRelease t, None => Some (System (release st).1 tk)
  | LWait t, None =>
      let '(st', o) := wait_begin st in
      Some (System st' (set_task t (match o with
                                    | Returned pc => Some (InWait pc)
                                    | Raised _ => None
                                    end) tk))
  | LWaitResume t w, Some (InWait pc) =>
      let '(st', r) := wait_resume t pc w st in
      Some (System st' (set_task t (suspension InWait r) tk))
  | LWaitFor t predicate, None =>
      let '(st', r) := wait_for_begin predicate st in
      Some (System st' (set_task t (suspension (InWaitFor predicate) r) tk))
  | LWaitForResume t w, Some (InWaitFor predicate pc) =>
      let '(st', r) := wait_for_resume t predicate pc w st in
      Some (System st' (set_task t (suspension (InWaitFor predicate) r) tk))
  | LNotify t value n, None => Some (System (notify value n st).1 tk)
  | LNotifyAll t value, None => Some (System (notify_all value st).1 tk)
  | LCancel t, Some ts => Some (System (future_cancel (awaited ts).2 st).1 tk)
  | LGuarded t g, None => Some (System (set_guarded g st) tk)
  | _, _ => None
  end.

(** A program: the turns it takes, in order, from a new condition. *)
Fixpoint sys_run (lbls : list label) (sys : system) : option system :=
  match lbls with
  | [] => Some sys
  | lbl :: lbls' =>
      match sys_exec lbl sys with
      | Some sys' => sys_run lbls' sys'
      | None => None
      end
  end.

(** The turns in which a task suspended in [wait] (alone or inside
    [wait_for]) is resumed. *)
Definition resumes (lbl : label) (t : tid) (w : wakeup) : Prop :=
  lbl = LWaitResume t w ∨ lbl = LWaitForResume t w.

(** The queues and the suspended tasks agree: no queue holds a future
    twice; queued futures exist; a future is in a queue exactly when some
    suspended task awaits it there; no two tasks await the same future. *)
Definition sys_inv (sys : system) : Prop :=
  (∀ k, NoDup (queue k (store sys))) ∧
  (∀ k f, f ∈ queue k (store sys) → (f < length (futs (store sys)))%nat) ∧
  (∀ k f, f ∈ queue k (store sys) ↔
          ∃ t ts, tasks sys !! t = Some ts ∧ awaited ts = (k, f)) ∧
  (∀ t1 t2 ts1 ts2, tasks sys !! t1 = Some ts1 → tasks sys !! t2 = Some ts2 →
     (awaited ts1).2 = (awaited ts2).2 → t1 = t2).

(** The effect of one turn of a task on a queue: the future it awaited,
    if any, leaves its queue; the future it now awaits, if any, joins
    its queue at the end. [old] and [new] are what the task awaited before
    and awaits after, as in [awaited]. *)
Definition deq (old : option (bool * fid)) (k : bool) (q : list fid)
  : list fid :=
  match old with
  | Some (k', g) => if bool_decide (k' = k) then filter (λ x, x ≠ g) q else q
  | None => q
  end.

Definition enq (new : option (bool * fid)) (k : bool) (q : list fid)
  : list fid :=
  match new with
  | Some (k', g) => if bool_decide (k' = k) then q ++ [g] else q
  | None => q
  end.

Definition turn_effect (old new : option (bool * fid)) (st st' : state)
  : Prop :=
  (∀ k, queue k st' = enq new k (deq old k (queue k st))) ∧
  (length (futs st) ≤ length (futs st'))%nat ∧
  (∀ k g, new = Some (k, g) →
     (length (futs st) ≤ g < length (futs st'))%nat).

(** What a coroutine awaits after a step. *)
Definition costep_awaited {A : Type} (r : costep wait_pc A)
  : option (bool * fid) :=
  match r with
  | Suspended pc => Some (pc_awaited pc)
  | Finished _ => None
  end.

(** ** Observations used by the statements *)

(** The handles of the queue that are still pending, in queue order, and
    their number. *)
Definition pending (st : state) : list fid :=
  filter (λ f, done st f = false) (waiters st).

Definition pending_count (st : state) : Z := Z.of_nat (length (pending st)).

(** The handles that went from pending to done between [st] and [st']. *)
Definition fulfilled (st st' : state) : list fid :=
  filter (λ f, done st' f = true) (pending st).

(** The queue is well formed: handles are futures of the store, and no
    handle is queued twice. *)
Definition queue_ok (st : state) : Prop :=
  NoDup (waiters st) ∧ ∀ f, f ∈ waiters st → (f < length (futs st))%nat.

(** The store without its ghost field. *)
Definition erase (st : state) : state := set_lock (lk_locked st) None st.

(** "The calling task [t] holds the Mutex." *)
Definition holds (t : tid) (st : state) : Prop :=
  lk_locked st = true ∧ lk_holder st = Some t.


End Model.

(** ** Scoped acquisition, and what the lock's queue must look like *)

Section Scoped.

Context {V G : Type} `{!PyValues V}.

(** [Condition.__aenter__]: [await self.acquire()], then [return None]. It
    suspends where [acquire] does, and ends as [acquire] ends. *)
Definition aenter_begin (t : tid) (st : @state V G) : state * costep fid unit :=
  acquire_begin t st.

Definition aenter_resume (t : tid) (fut : fid) (w : wakeup) (st : @state V G)
  : state * outcome unit :=
  acquire_resume t fut w st.

(** [Condition.__aexit__(exc_type, exc, tb)]: [self.release()]. It returns
    [None], so what the block produced ([body]) stands: an exception of
    the block is raised again; an exception of [release] takes its place. *)
Definition aexit {A : Type} (body : outcome A) (st : @state V G)
  : state * outcome A :=
  match release st with
  | (st', Raised e) => (st', Raised e)
  | (st', Returned _) => (st', body)
  end.

(** A future that finished with a result. *)
Definition has_result (st : @state V G) (fut : fid) : bool :=
  match futs st !! fut with
  | Some (Result _) => true
  | _ => false
  end.

(** The lock's queue is in order: no future is queued twice, queued
    futures exist, none is also a handle of the condition, only the head
    of the queue can have been woken (given the result [True]), and not
    even the head while the lock is locked. *)
Definition lock_ok (st : @state V G) : Prop :=
  NoDup (lk_waiters st) ∧
  (∀ f, f ∈ lk_waiters st → (f < length (futs st))%nat) ∧
  (∀ f, f ∈ waiters st → f ∉ lk_waiters st) ∧
  (∀ f, f ∈ tail (lk_waiters st) → has_result st f = false) ∧
  (lk_locked st = true → ∀ f, f ∈ lk_waiters st → has_result st f = false).

(** The event loop resumes a task by a send only once the future it awaits
    is done; a throw (a cancellation) can come at any time. *)
Definition sound_wakeup (st : @state V G) (fut : fid) (w : wakeup) : Prop :=
  w = Throw ∨ done st fut = true.

Definition label_sound (sys : @system V G) (lbl : @label V G) : Prop :=
  match lbl with
  | LAcquireResume t w | LWaitResume t w | LWaitForResume t w =>
      ∀ ts, tasks sys !! t = Some ts →
            sound_wakeup (store sys) (awaited ts).2 w
  | _ => True
  end.

(** The states of a program whose tasks are resumed as the event loop
    resumes them. *)
Inductive loop_reachable : @system V G → Prop :=
| loop_reachable_init g : loop_reachable (System (init g) ∅)
| loop_reachable_step sys lbl sys' :
    loop_reachable sys → label_sound sys lbl → sys_step sys lbl sys' →
    loop_reachable sys'.

(** A suspended [wait] whose body, if it is over, ended as a body can end
    under the event loop: with a value or with the cancellation error. *)
Definition clean_pc (pc : @wait_pc V) : Prop :=
  match pc with
  | AtFut _ => True
  | AtAcquire _ _ body => returned_or_cancelled body
  end.

Definition clean_task (ts : @tstate V G) : Prop :=
  match ts with
  | InAcquire _ => True
  | InWait pc | InWaitFor _ pc => clean_pc pc
  end.

(** A waiter's turn after a notification: the task resumes [wait] and,
    when [wait] is over, leaves its [async with] block with the result. *)
Definition finish_wait (t : tid) (fut : fid) (st : @state V G)
  : state * costep wait_pc V :=
  match wait_resume t (AtFut fut) Send st with
  | (st, Finished o) => let '(st, o) := aexit o st in (st, Finished o)
  | (st, Suspended pc) => (st, Suspended pc)
  end.

(** The turns of several waiters, one after the other: each is a task and
    the handle it waits on. *)
Fixpoint drain (turns : list (tid * fid)) (st : @state V G)
  : state * list (costep wait_pc V) :=
  match turns with
  | [] => (st, [])
  | (t, fut) :: turns =>
      let '(st, r) := finish_wait t fut st in
      let '(st, rs) := drain turns st in
      (st, r :: rs)
  end.

(** A run of labels each of which is sound where it is taken. *)
Fixpoint sound_run (lbls : list (@label V G)) (sys : @system V G) : Prop :=
  match lbls with
  | [] => True
  | lbl :: lbls =>
      label_sound sys lbl ∧
      match sys_exec lbl sys with
      | Some sys' => sound_run lbls sys'
      | None => True
      end
  end.

End Scoped.

(** ** A concrete program *)

(** Values as a program passes them: booleans, integers and strings. The
    guarded state of the examples is a list of integers. *)
Inductive pyval := PyBool (b : bool) | PyInt (z : Z) | PyStr (s : string).

#[global] Instance pyval_values : PyValues pyval := {| PyTrue := PyBool true |}.

Abbreviation pystore := (@state pyval (list Z)).

(** A new condition guarding the empty list. *)
Definition fresh : pystore := init [].

(** [async with cond: await cond.wait()] up to the suspension of [wait],
    by a task that finds the lock free. *)
Definition enter_wait (t : tid) (st : pystore) : pystore :=
  (wait_begin (acquire_begin t st).1).1.

(** Three tasks 1, 2, 3 have called [wait] in that order: their handles
    are the futures 0, 1, 2. *)
Definition three_waiting : pystore :=
  enter_wait 3 (enter_wait 2 (enter_wait 1 fresh)).

(** ... and task 0 has taken the lock. *)
Definition three_locked : pystore := (acquire_begin 0 three_waiting).1.

(** One task, 1, waits; task 0 has taken the lock and called
    [notify(1, 1)]: the handle 0 carries the value and task 1 has not run
    yet. *)
Definition one_notified : pystore :=
  (notify (PyInt 1) 1 (acquire_begin 0 (enter_wait 1 fresh)).1).1.

(** Task 1 resumes from [one_notified] while task 0 still has the lock:
    it queues for the lock on future 1. Then task 1 is cancelled. *)
Definition one_requeued : pystore :=
  (wait_resume 1 (AtFut 0) Send one_notified).1.
Definition one_requeued_cancelled : pystore :=
  (future_cancel 1 one_requeued).1.

(** Task 1 is resumed by the throw and queues again, on future 2; then
    task 0 releases the lock, which wakes future 2. *)
Definition one_retrying : pystore :=
  (wait_resume 1 (AtAcquire 1 false (Returned (PyInt 1))) Throw
     one_requeued_cancelled).1.
Definition one_retrying_released : pystore := (release one_retrying).1.

(** The predicate of the first scenario: [lambda: len(L) > 0]. *)
Definition nonempty (st : pystore) : bool := bool_decide (0 < length (guarded st))%nat.

(** The second scenario: from [three_locked], task 0 calls
    [notify("x", 2)] and releases; the waiters 1 and 2 resume in turn, each
    releasing when it is through; task 0 then takes the lock again and
    calls [notify_all("y")]. *)
Definition after_x : pystore :=
  (release (notify (PyStr "x") 2 three_locked).1).1.
Definition w1_resumed : pystore * costep wait_pc pyval :=
  wait_resume 1 (AtFut 0) Send after_x.
Definition w2_resumed : pystore * costep wait_pc pyval :=
  wait_resume 2 (AtFut 1) Send (release w1_resumed.1).1.
Definition after_y : pystore :=
  (notify_all (PyStr "y") (acquire_begin 0 (release w2_resumed.1).1).1).1.

(** The first scenario: task 1 acquires the condition guarding [L = []]
    and calls [wait_for(lambda: len(L) > 0)]; task 2 acquires, appends 1,
    calls [notify(1, 1)] and releases. *)
Definition task1_waiting : pystore * costep wait_pc bool :=
  wait_for_begin nonempty (acquire_begin 1 fresh).1.
Definition task2_done : pystore :=
  (release (notify (PyInt 1) 1
     (set_guarded [1] (acquire_begin 2 task1_waiting.1).1)).1).1.

(** The same three waiters as a program: each of the tasks 1, 2, 3 takes
    the lock and calls [wait]. Then task 2 is cancelled, and resumed by the
    throw. *)
Abbreviation pysystem := (@system pyval (list Z)).

Definition new_program : pysystem := System fresh ∅.

Definition three_waiters : list (@label pyval (list Z)) :=
  [LAcquire 1; LWait 1; LAcquire 2; LWait 2; LAcquire 3; LWait 3].

Definition second_cancelled : pysystem :=
  default new_program (sys_run (three_waiters ++ [LCancel 2]) new_program).

Definition second_resumed : pysystem :=
  default new_program (sys_exec (LWaitResume 2 Throw) second_cancelled).

(** Task 1 waits; task 0 takes the lock, calls [notify(1, 1)]; task 1 is
    resumed, finds the lock taken and queues for it; task 0 releases,
    which hands the lock's wake-up to task 1. *)
Definition hand_over : list (@label pyval (list Z)) :=
  [LAcquire 1; LWait 1; LAcquire 0; LNotify 0 (PyInt 1) 1;
   LWaitResume 1 Send; LRelease 0].

Definition handed_over : pysystem :=
  default new_program (sys_run hand_over new_program).

(** The three waiters of [three_locked] take their turns in the order
    2, 1, 3. *)
Definition three_turns : list (tid * fid) := [(2, 1); (1, 0); (3, 2)]%nat.

(** * The module loader

    [load_module], [ModuleInfo.reload], [load_module_from_name],
    [load_module_form_file] and [load_modules_from_dir] of the same file.
    The interpreter they inspect and the import system they drive are not
    code of this file: they are an interface, [Python], and every theorem
    holds for each implementation of it. *)

(** The three messages with which this file raises [LoadModuleError]. *)
Inductive load_error := CanNotFind | MoreThenOne | ExtensionMustBePy.

(** The exceptions of the loader: [LoadModuleError], the [TypeError] and
    [AttributeError] of the interpreter, and any other exception, by the
    name of its class (the import system may raise anything, including
    [LoadModuleError] from the body of a module). *)
Inductive error :=
| LoadModuleError (msg : load_error)
| TypeError
| AttributeError
| OtherException (name : string).

Inductive tried (A : Type) :=
| Success (a : A)
| Failure (e : error).
Arguments Success {A} a.
Arguments Failure {A} e.

(** Module objects are shared and reloaded in place: they are named by a
    number, and their attributes are read from the interpreter. *)
Abbreviation modref := nat (only parsing).

(** The import system finds modules through [ModulePathFinder.path], so
    the world it runs in has that list beside the interpreter's own state
    [I] ([sys.modules], the files on disk, ...). *)
Record world (I : Type) := World {
  finder_path : list string;
  interp : I;
}.
Arguments World {I} finder_path interp.
Arguments finder_path {I} w.
Arguments interp {I} w.

(** What the loader asks of Python. [O] is the type of objects, compared
    by identity.
    - [isclass], [getmodule], [isabstract]: the functions of [inspect];
    - [issubclass o c]: [issubclass(o, c)], asked of classes only;
    - [ABC_in_bases o]: [ABC in o.__bases__];
    - [config_name_is_str o]:
      [isinstance(getattr(o, "__config_name__", None), str)];
    - [dir], [getattr]: the built-ins, on a module ([None] is
      [AttributeError]);
    - [invalidate_caches], [import_module], [importlib_reload]: the
      functions of [importlib];
    - [iter_importer_modules entry w]: the names that
      [pkgutil.iter_importer_modules(get_importer(entry))] yields;
    - [os_path_split], [os_path_splitext]: the functions of [os.path]. *)
Class Python (O I : Type) := {
  isclass : O → bool;
  getmodule : I → O → option modref;
  issubclass : O → O → bool;
  ABC_in_bases : O → bool;
  isabstract : O → bool;
  config_name_is_str : O → bool;
  BaseModel : O;
  dir : I → modref → list string;
  getattr : I → modref → string → option O;
  invalidate_caches : world I → world I;
  import_module : string → world I → world I * tried modref;
  importlib_reload : modref → world I → world I * tried modref;
  iter_importer_modules : string → world I → list string;
  os_path_split : string → string * string;
  os_path_splitext : string → string * string;
}.

(** A Python [str] is a sequence of code points. A string here is the
    UTF-8 encoding of the [str]: a byte [10xxxxxx] continues the code point
    of the byte before it, any other byte begins one. [code_points s] are
    the characters of [s], each as a string of its own: what iterating
    over the [str] gives. *)
Definition continues (c : Ascii.ascii) : bool :=
  match c with Ascii.Ascii _ _ _ _ _ _ b6 b7 => b7 && negb b6 end.

(** Does the string begin in the middle of a code point? *)
Definition continued (rest : string) : bool :=
  match rest with
  | String c _ => continues c
  | EmptyString => false
  end.

Fixpoint code_points (s : string) : list string :=
  match s with
  | EmptyString => []
  | String c rest =>
      match code_points rest with
      | g :: gs =>
          if continued rest then String c g :: gs
          else String c EmptyString :: g :: gs
      | [] => [String c EmptyString]
      end
  end.

(** The argument [path] of [load_modules_from_dir] is an [Iterable[str]]:
    a list (or tuple), which every iteration walks afresh; an iterator (or
    generator), which is walked once; or a string, which is an iterable of
    its characters. *)
Inductive iterable :=
| ListOf (items : list string)
| IteratorOf (rest : list string)
| StrOf (s : string).

Section Loader.

Context {O I : Type} `{EqDecision O} `{!Python O I}.

(** [class ModuleInfo]: the three slots. *)
Record ModuleInfo := NewModuleInfo {
  module_class : O;
  config_class : option O;
  module : modref;
}.

(** What the loader does happens in a session: the world, and (ghost) the
    names this file has passed to [importlib.import_module], in order. *)
Record session := Session {
  now : world I;
  imported : list string;
}.

Definition set_path (path : list string) (s : session) : session :=
  Session (World path (interp (now s))) (imported s).

(** The condition of the [if] in the loop of [load_module]. Modules are
    compared by [is]; [!=] on classes is the default one, by identity. *)
Definition qualifies (i : I) (module : modref) (class_type module_attr : O)
  : bool :=
  isclass module_attr
  && bool_decide (default module (getmodule i module_attr) = module)
  && issubclass module_attr class_type
  && negb (bool_decide (module_attr = class_type))
  && negb (ABC_in_bases module_attr)
  && negb (isabstract module_attr).

(** The loop of [load_module] over the names of [dir(module)], from the
    list [module_class] built so far. *)
Fixpoint collect (i : I) (module : modref) (class_type : O)
    (names : list string) (module_class : list O) : tried (list O) :=
  match names with
  | [] => Success module_class
  | module_attr :: names =>
      match getattr i module module_attr with
      | None => Failure AttributeError
      | Some module_attr =>
          collect i module class_type names
            (if qualifies i module class_type module_attr
             then module_class ++ [module_attr] else module_class)
      end
  end.

(** The second half of [load_module]: the class [Config] of the module,
    if it is one. *)
Definition find_config (i : I) (module : modref) : tried (option O) :=
  if bool_decide ("Config"%string ∈ dir i module) then
    match getattr i module "Config" with
    | None => Failure AttributeError
    | Some module_attr =>
        if isclass module_attr
           && issubclass module_attr BaseModel
           && config_name_is_str module_attr
        then Success (Some module_attr)
        else Success None
    end
  else Success None.

(** [load_module(module, class_type)]. The [print] before the second raise
    is left out. *)
Definition load_module (i : I) (module : modref) (class_type : O)
  : tried ModuleInfo :=
  match collect i module class_type (dir i module) [] with
  | Failure e => Failure e
  | Success module_class =>
      match module_class with
      | [] => Failure (LoadModuleError CanNotFind)
      | first :: others =>
          if bool_decide (1 < length module_class)%nat
          then Failure (LoadModuleError MoreThenOne)
          else
            match find_config i module with
            | Failure e => Failure e
            | Success config => Success (NewModuleInfo first config module)
            end
      end
  end.

(** The right-hand side of an assignment to two targets, [a, b = ...],
    as far as this file goes: a pair of a class and a configuration class
    or [None] (what the docstring of [load_module] announces, lines
    159-160), or an instance of [ModuleInfo] (what [load_module] returns,
    lines 196-197). *)
Inductive unpacked :=
| PyPair (first : O) (second : option O)
| PyModuleInfo (info : ModuleInfo).

(** Unpacking into two targets. A pair gives its two items. An instance
    of [ModuleInfo] is not iterable: the class defines [__slots__],
    [__init__] and [reload] (lines 133-149) and its base [Generic] gives
    no [__iter__] and no [__getitem__]; the assignment raises
    [TypeError: cannot unpack non-iterable ModuleInfo object]. *)
Definition unpack (v : unpacked) : tried (O * option O) :=
  match v with
  | PyPair first second => Success (first, second)
  | PyModuleInfo _ => Failure TypeError
  end.

(** Lines 147-149 of [reload], from the value of the right-hand side on:
    the unpacking, then the two assignments to the slots of [self]. *)
Definition assign_loaded (self : ModuleInfo) (v : unpacked)
  : ModuleInfo * tried unit :=
  match unpack v with
  | Failure e => (self, Failure e)
  | Success (module_class, config_class) =>
      (NewModuleInfo module_class config_class (module self), Success tt)
  end.

(** [ModuleInfo.reload(self, class_type)]: the session after the call,
    [self] after the call, and how the call ends. *)
Definition reload (self : ModuleInfo) (class_type : O) (s : session)
  : session * ModuleInfo * tried unit :=
  let '(w, reloaded) := importlib_reload (module self) (now s) in
  let s := Session w (imported s) in
  match reloaded with
  | Failure e => (s, self, Failure e)
  | Success _ =>
      match load_module (interp w) (module self) class_type with
      | Failure e => (s, self, Failure e)
      | Success info =>
          let '(self, r) := assign_loaded self (PyModuleInfo info) in
          (s, self, r)
      end
  end.

(** [load_module_from_name(name, class_type)]. *)
Definition load_module_from_name (name : string) (class_type : O)
    (s : session) : session * tried ModuleInfo :=
  let '(w, found) := import_module name (invalidate_caches (now s)) in
  let s := Session w (imported s ++ [name]) in
  match found with
  | Failure e => (s, Failure e)
  | Success module =>
      let '(w, reloaded) := importlib_reload module w in
      let s := Session w (imported s) in
      match reloaded with
      | Failure e => (s, Failure e)
      | Success _ => (s, load_module (interp w) module class_type)
      end
  end.

(** [load_module_form_file(module_path_finder, path, class_type)]. *)
Definition load_module_form_file (path : string) (class_type : O)
    (s : session) : session * tried ModuleInfo :=
  let '(dirname, basename) := os_path_split path in
  let '(name, ext) := os_path_splitext basename in
  if bool_decide (ext ≠ ".py"%string)
  then (s, Failure (LoadModuleError ExtensionMustBePy))
  else load_module_from_name name class_type (set_path [dirname] s).

(** Running an iteration over [path] to its end: the items it gives, and
    the object afterwards. *)
Definition iterate (path : iterable) : list string * iterable :=
  match path with
  | ListOf items => (items, path)
  | IteratorOf rest => (rest, IteratorOf [])
  | StrOf s => (code_points s, path)
  end.

(** The body of the loop of [load_modules_from_dir], for one name. *)
Definition load_one (name : string) (class_type : O)
    (modules : list ModuleInfo) (s : session)
  : session * tried (list ModuleInfo) :=
  if negb (String.prefix "_" name) then
    match load_module_from_name name class_type s with
    | (s, Success info) => (s, Success (modules ++ [info]))
    | (s, Failure (LoadModuleError _)) => (s, Success modules)
    | (s, Failure e) => (s, Failure e)
    end
  else (s, Success modules).

(** [pkgutil.iter_modules] is a generator, so its two loops run
    interleaved with the loop of [load_modules_from_dir]: the names of a
    path entry are listed when the iteration reaches the entry, and a name
    already in [yielded] is passed over. *)
Fixpoint iter_names (names : list string) (class_type : O)
    (yielded : list string) (modules : list ModuleInfo) (s : session)
  : session * tried (list string * list ModuleInfo) :=
  match names with
  | [] => (s, Success (yielded, modules))
  | name :: names =>
      if bool_decide (name ∈ yielded)
      then iter_names names class_type yielded modules s
      else
        match load_one name class_type modules s with
        | (s, Success modules) =>
            iter_names names class_type (yielded ++ [name]) modules s
        | (s, Failure e) => (s, Failure e)
        end
  end.

Fixpoint iter_importers (entries : list string) (class_type : O)
    (yielded : list string) (modules : list ModuleInfo) (s : session)
  : session * tried (list ModuleInfo) :=
  match entries with
  | [] => (s, Success modules)
  | entry :: entries =>
      match iter_names (iter_importer_modules entry (now s)) class_type
              yielded modules s with
      | (s, Success (yielded, modules)) =>
          iter_importers entries class_type yielded modules s
      | (s, Failure e) => (s, Failure e)
      end
  end.

(** [load_modules_from_dir(module_path_finder, path, class_type)]:
    [list(path)] runs one iteration over [path], [pkgutil.iter_modules]
    a second one over the same object; given a string it raises
    [ValueError]. *)
Definition load_modules_from_dir (path : iterable) (class_type : O)
    (s : session) : session * tried (list ModuleInfo) :=
  let '(items, path) := iterate path in
  let s := set_path items s in
  match path with
  | StrOf _ => (s, Failure (OtherException "ValueError"))
  | _ => iter_importers (iterate path).1 class_type [] [] s
  end.

End Loader.

(** ** What the statements about the loader speak of *)

Section LoaderObservations.

Context {O I : Type} `{EqDecision O} `{!Python O I}.

(** A name of the module whose value passes the test of [load_module]. *)
Definition candidate (i : I) (module : modref) (class_type : O)
    (name : string) : bool :=
  match getattr i module name with
  | Some module_attr => qualifies i module class_type module_attr
  | None => false
  end.

(** A [ModuleInfo] that [load_module] returns for its module, in some
    state of the interpreter. *)
Definition checked (class_type : O) (info : ModuleInfo) : Prop :=
  ∃ i, load_module i (module info) class_type = Success info.

(** [dir] lists only names the module has. *)
Definition dir_ok (i : I) (module : modref) : Prop :=
  ∀ name, name ∈ dir i module → is_Some (getattr i module name).

End LoaderObservations.

(** ** [os.path] on POSIX

    [posixpath.split] and [posixpath.splitext] (through
    [genericpath._splitext]) of CPython, on the characters of the path. *)

(** [p.rfind(c)]: the index of the last [c] in [p], or -1. *)
Fixpoint rfind (c : Ascii.ascii) (p : list Ascii.ascii) : Z :=
  match p with
  | [] => -1
  | a :: p =>
      let r := rfind c p in
      if bool_decide (0 ≤ r) then r + 1
      else if bool_decide (a = c) then 0 else -1
  end.

(** [p.rstrip(c)]. *)
Fixpoint rstrip (c : Ascii.ascii) (p : list Ascii.ascii) : list Ascii.ascii :=
  match p with
  | [] => []
  | a :: p =>
      match rstrip c p with
      | [] => if bool_decide (a = c) then [] else [a]
      | r => a :: r
      end
  end.

Definition posixpath_split_chars (p : list Ascii.ascii)
  : list Ascii.ascii * list Ascii.ascii :=
  let i := Z.to_nat (rfind "/"%char p + 1) in
  let head := take i p in
  let tail := drop i p in
  if bool_decide (head ≠ [] ∧ head ≠ replicate (length head) "/"%char)
  then (rstrip "/"%char head, tail)
  else (head, tail).

(** The [while] of [_splitext]: from [filenameIndex], for [steps] indices,
    does it meet a character that is not a dot? *)
Fixpoint skips_leading_dots (p : list Ascii.ascii) (filenameIndex steps : nat)
  : bool :=
  match steps with
  | O => false
  | S steps =>
      if bool_decide (p !! filenameIndex ≠ Some "."%char) then true
      else skips_leading_dots p (S filenameIndex) steps
  end.

Definition posixpath_splitext_chars (p : list Ascii.ascii)
  : list Ascii.ascii * list Ascii.ascii :=
  let sepIndex := rfind "/"%char p in
  let dotIndex := rfind "."%char p in
  if bool_decide (sepIndex < dotIndex)
     && skips_leading_dots p (Z.to_nat (sepIndex + 1))
          (Z.to_nat (dotIndex - (sepIndex + 1)))
  then (take (Z.to_nat dotIndex) p, drop (Z.to_nat dotIndex) p)
  else (p, []).

(** The characters of [".py"]. *)
Definition dot_py : list Ascii.ascii := ["."; "p"; "y"]%char.

Definition on_chars (f : list Ascii.ascii → list Ascii.ascii * list Ascii.ascii)
    (p : string) : string * string :=
  let '(a, b) := f (String.list_ascii_of_string p) in
  (String.string_of_list_ascii a, String.string_of_list_ascii b).

Definition posixpath_split : string → string * string :=
  on_chars posixpath_split_chars.
Definition posixpath_splitext : string → string * string :=
  on_chars posixpath_splitext_chars.

(** ** A concrete interpreter

    Objects are classes, described by what the loader asks of them, or
    other values. The interpreter's state is the table of the modules it
    can import, each with its attributes in the order of [dir]; a module
    object is named by its place in the table, and every module of the
    table lies in the directory ["plugins"]. *)
Inductive pyobject :=
| PyClass (name : string) (home : option modref) (supers : list string)
    (abc_base abstract config_name : bool)
| PyOther (n : nat).

#[global] Instance pyobject_eq_dec : EqDecision pyobject.
Proof. solve_decision. Defined.

Definition class_name (o : pyobject) : option string :=
  match o with PyClass name _ _ _ _ _ => Some name | PyOther _ => None end.

Abbreviation pymodules := (list (string * list (string * pyobject))).

Definition attrs_of (i : pymodules) (module : modref)
  : list (string * pyobject) :=
  default [] (snd <$> i !! module).

Definition find_module (name : string) (i : pymodules) : option modref :=
  fst <$> list_find (λ entry, entry.1 = name) i.

#[global] Instance pymodules_python : Python pyobject pymodules := {|
  isclass o := match o with PyClass _ _ _ _ _ _ => true | PyOther _ => false end;
  getmodule i o :=
    match o with PyClass _ home _ _ _ _ => home | PyOther _ => None end;
  issubclass o c :=
    match o, class_name c with
    | PyClass name _ supers _ _ _, Some cname =>
        bool_decide (cname = name ∨ cname ∈ supers)
    | _, _ => false
    end;
  ABC_in_bases o :=
    match o with PyClass _ _ _ abc_base _ _ => abc_base | PyOther _ => false end;
  isabstract o :=
    match o with PyClass _ _ _ _ abstract _ => abstract | PyOther _ => false end;
  config_name_is_str o :=
    match o with
    | PyClass _ _ _ _ _ config_name => config_name
    | PyOther _ => false
    end;
  BaseModel := PyClass "BaseModel" None [] false false false;
  dir i module := (attrs_of i module).*1;
  getattr i module name :=
    (λ found, found.2.2) <$>
      list_find (λ attr, attr.1 = name) (attrs_of i module);
  invalidate_caches w := w;
  import_module name w :=
    match find_module name (interp w) with
    | Some module => (w, Success module)
    | None => (w, Failure (OtherException "ModuleNotFoundError"))
    end;
  importlib_reload module w := (w, Success module);
  iter_importer_modules entry w :=
    if bool_decide (entry = "plugins"%string) then (interp w).*1 else [];
  os_path_split := posixpath_split;
  os_path_splitext := posixpath_splitext;
|}.

(** The class every plugin derives from, and a directory of four modules:
    [hello] defines one plugin and a [Config]; [twice] binds its plugin to
    a second name; [empty] defines none; [_private] defines one. *)
Definition Plugin : pyobject :=
  PyClass "Plugin" None ["ABC"%string] true true false.

Definition Hello : pyobject :=
  PyClass "Hello" (Some 0%nat) ["Plugin"; "ABC"]%string false false false.
Definition HelloConfig : pyobject :=
  PyClass "Config" (Some 0%nat) ["BaseModel"%string] false false true.
Definition Twice : pyobject :=
  PyClass "Twice" (Some 1%nat) ["Plugin"; "ABC"]%string false false false.
Definition Private : pyobject :=
  PyClass "Private" (Some 3%nat) ["Plugin"; "ABC"]%string false false false.

Definition plugins : pymodules :=
  [("hello", [("Config", HelloConfig); ("Hello", Hello); ("Plugin", Plugin);
              ("__name__", PyOther 0)]);
   ("twice", [("Alias", Twice); ("Plugin", Plugin); ("Twice", Twice)]);
   ("empty", [("Plugin", Plugin); ("helper", PyOther 1)]);
   ("_private", [("Plugin", Plugin); ("Private", Private)])]%string.

Abbreviation pysession := (@session pymodules).

Definition at_start : pysession := Session (World [] plugins) [].

Section Properties.

Context {V G : Type} `{!PyValues V}.
Implicit Types st s : @state V G.
Implicit Types sys : @system V G.
Implicit Types tk : gmap nat (@tstate V G).
Implicit Types value v : V.

(** ** Futures and the store: basic facts *)

Lemma done_false_lookup st f : done st f = false ↔ futs st !! f = Some Pending.
Proof.
  unfold done. destruct (futs st !! f) as [[]|]; split; congruence.
Qed.

Lemma set_result_lookup fut value st f :
  done st fut = false →
  futs (set_result fut value st) !! f =
    if decide (f = fut) then Some (Result value) else futs st !! f.
Proof.
  intros Hp%done_false_lookup. unfold set_result; simpl.
  destruct (decide (f = fut)) as [->|Hne].
  - apply list_lookup_insert_eq. by eapply lookup_lt_Some.
  - by apply list_lookup_insert_ne.
Qed.

Lemma done_set_result_ne fut value st g :
  g ≠ fut → done (set_result fut value st) g = done st g.
Proof.
  intros Hne. unfold done, set_result; simpl.
  by rewrite list_lookup_insert_ne.
Qed.

Lemma done_set_result_mono fut value st g :
  done st g = true → done (set_result fut value st) g = true.
Proof.
  unfold done, set_result; simpl. intros Hd.
  destruct (decide (fut = g)) as [->|Hne].
  - destruct (decide (g < length (futs st))%nat).
    + by rewrite list_lookup_insert_eq.
    + rewrite list_insert_ge by lia. done.
  - by rewrite list_lookup_insert_ne.
Qed.

Lemma filter_pending_set_result fut value st (ws : list fid) :
  fut ∉ ws →
  filter (λ g, done (set_result fut value st) g = false) ws =
  filter (λ g, done st g = false) ws.
Proof.
  intros Hnin. induction ws as [|g ws IH]; [done|].
  apply not_elem_of_cons in Hnin as [Hne Hnin].
  rewrite !filter_cons, IH by done.
  rewrite done_set_result_ne by done. done.
Qed.

(** ** The loop of notify *)

(** The loop touches nothing but the states of futures. *)
Lemma notify_loop_frame value n idx ws st :
  let st' := notify_loop value n idx ws st in
  lk_locked st' = lk_locked st ∧ lk_waiters st' = lk_waiters st ∧
  waiters st' = waiters st ∧ guarded st' = guarded st ∧
  lk_holder st' = lk_holder st ∧ length (futs st') = length (futs st).
Proof.
  revert idx st. induction ws as [|fut ws IH]; intros idx st; simpl; [done|].
  destruct (idx >=? n); [done|].
  destruct (done st fut); simpl; [apply IH|].
  destruct (IH (idx + 1) (set_result fut value st)) as (?&?&?&?&?&Hlen).
  unfold set_result in *; simpl in *. rewrite length_insert in Hlen. done.
Qed.

(** The loop gives [value] to the first [n - idx] pending handles of [ws],
    and leaves every other future as it was. *)
Lemma notify_loop_futs value n idx ws st f :
  NoDup ws →
  futs (notify_loop value n idx ws st) !! f =
    if decide (f ∈ take (Z.to_nat (n - idx)) (filter (λ g, done st g = false) ws))
    then Some (Result value) else futs st !! f.
Proof.
  revert idx st. induction ws as [|fut ws IH]; intros idx st Hnd; simpl.
  { rewrite filter_nil, take_nil. by rewrite decide_False by apply not_elem_of_nil. }
  apply NoDup_cons in Hnd as [Hnin Hnd].
  destruct (Z.geb_spec idx n) as [Hge|Hlt].
  { replace (Z.to_nat (n - idx)) with 0%nat by lia.
    rewrite take_0. by rewrite decide_False by apply not_elem_of_nil. }
  destruct (done st fut) eqn:Hd; simpl.
  - rewrite filter_cons_False by congruence. by apply IH.
  - rewrite filter_cons_True by done.
    replace (Z.to_nat (n - idx)) with (S (Z.to_nat (n - (idx + 1)))) by lia.
    simpl. rewrite IH by done.
    rewrite filter_pending_set_result by done.
    rewrite set_result_lookup by done.
    destruct (decide (f = fut)) as [->|Hne].
    + rewrite (decide_True (P := fut ∈ fut :: _)) by (apply elem_of_cons; by left).
      by repeat case_decide.
    + repeat case_decide; try done.
      * exfalso. rewrite elem_of_cons in *. tauto.
      * exfalso. rewrite elem_of_cons in *. tauto.
Qed.


(** The same loop, when its budget covers every pending handle: all of
    them get [value]. Here the queue may hold a handle twice. *)
Lemma notify_loop_all value n idx ws st f :
  Z.of_nat (length (filter (λ g, done st g = false) ws)) ≤ n - idx →
  futs (notify_loop value n idx ws st) !! f =
    if decide (f ∈ ws ∧ done st f = false)
    then Some (Result value) else futs st !! f.
Proof.
  revert idx st. induction ws as [|fut ws IH]; intros idx st Hle;
    cbn [notify_loop].
  { destruct (decide _) as [[Hin _]|_]; [|done]. by apply elem_of_nil in Hin. }
  destruct (Z.geb_spec idx n) as [Hge|Hlt].
  { destruct (decide _) as [[Hin Hp]|_]; [|done].
    assert (Hf : f ∈ filter (λ g, done st g = false) (fut :: ws))
      by by apply list_elem_of_filter.
    destruct (filter _ (fut :: ws)); [by apply elem_of_nil in Hf|].
    simpl in Hle. lia. }
  destruct (done st fut) eqn:Hd; cbn [negb].
  - rewrite filter_cons_False in Hle by congruence. rewrite IH by done.
    destruct (decide (f ∈ ws ∧ _)) as [[Hin Hp]|Hn];
      destruct (decide (f ∈ fut :: ws ∧ _)) as [[Hin' Hp']|Hn']; try done.
    + exfalso. apply Hn'. split; [apply elem_of_cons; by right|done].
    + exfalso. apply Hn. apply elem_of_cons in Hin' as [->|?]; [congruence|done].
  - rewrite filter_cons_True in Hle by done. cbn [length] in Hle.
    rewrite IH.
    + rewrite set_result_lookup by done.
      destruct (decide (f = fut)) as [->|Hne].
      * destruct (decide (fut ∈ fut :: ws ∧ _)) as [_|Hn'].
        -- by destruct (decide _).
        -- exfalso. apply Hn'. split; [apply elem_of_cons; by left|done].
      * rewrite done_set_result_ne by done.
        destruct (decide (f ∈ ws ∧ _)) as [[Hin Hp]|Hn];
          destruct (decide (f ∈ fut :: ws ∧ _)) as [[Hin' Hp']|Hn']; try done.
        -- exfalso. apply Hn'. split; [apply elem_of_cons; by right|done].
        -- exfalso. apply Hn. apply elem_of_cons in Hin' as [->|?]; done.
    + assert (length (filter (λ g, done (set_result fut value st) g = false) ws)
              ≤ length (filter (λ g, done st g = false) ws))%nat; [|lia].
      clear. induction ws as [|g ws IHws]; [done|].
      rewrite !filter_cons.
      destruct (decide (done (set_result fut value st) g = false)) as [Hg|Hg].
      * rewrite decide_True; [simpl; lia|].
        destruct (done st g) eqn:Hdg; [|done].
        by rewrite done_set_result_mono in Hg.
      * case_decide; simpl; lia.
Qed.

Lemma filter_elem_of_nil (l : list fid) : filter (λ y, y ∈ @nil fid) l = [].
Proof.
  induction l as [|y l IHl]; [done|].
  by rewrite filter_cons_False by apply not_elem_of_nil.
Qed.

Lemma filter_elem_of_cons_fresh x (tk l : list fid) :
  x ∉ l → filter (λ y, y ∈ x :: tk) l = filter (λ y, y ∈ tk) l.
Proof.
  induction l as [|y l IHl]; intros Hnin; [done|].
  apply not_elem_of_cons in Hnin as [Hne Hnin].
  rewrite !filter_cons, IHl by done.
  destruct (decide (y ∈ x :: tk)) as [Hin|Hn]; destruct (decide (y ∈ tk)) as [Hin'|Hn'];
    try done; exfalso.
  - apply elem_of_cons in Hin as [->|?]; done.
  - apply Hn. apply elem_of_cons. by right.
Qed.

Lemma filter_take_NoDup (l : list fid) k :
  NoDup l → filter (λ x, x ∈ take k l) l = take k l.
Proof.
  revert k. induction l as [|x l IH]; intros k Hnd; [by rewrite take_nil|].
  apply NoDup_cons in Hnd as [Hnin Hnd].
  destruct k as [|k]; cbn [take].
  - apply filter_elem_of_nil.
  - rewrite filter_cons_True by (apply elem_of_cons; by left).
    f_equal. rewrite filter_elem_of_cons_fresh by done. by apply IH.
Qed.

(** Two stores with the same fields are the same store. *)
Lemma state_eq st1 st2 :
  futs st1 = futs st2 → lk_locked st1 = lk_locked st2 →
  lk_waiters st1 = lk_waiters st2 → waiters st1 = waiters st2 →
  guarded st1 = guarded st2 → lk_holder st1 = lk_holder st2 → st1 = st2.
Proof. destruct st1, st2; simpl; congruence. Qed.

Lemma notify_loop_nil_budget value n idx ws st :
  n ≤ idx → notify_loop value n idx ws st = st.
Proof.
  intros Hle. destruct ws as [|fut ws]; [done|]. simpl.
  destruct (Z.geb_spec idx n); [done|lia].
Qed.

(** What [notify] does to the futures, in terms of the pending handles. *)
Lemma notify_futs value n st f :
  locked st = true → NoDup (waiters st) →
  futs (notify value n st).1 !! f =
    if decide (f ∈ take (Z.to_nat n) (pending st))
    then Some (Result value) else futs st !! f.
Proof.
  intros Hl Hnd. unfold notify. rewrite Hl. simpl.
  rewrite notify_loop_futs by done. by rewrite Z.sub_0_r.
Qed.

Lemma notify_frame value n st :
  let st' := (notify value n st).1 in
  lk_locked st' = lk_locked st ∧ lk_waiters st' = lk_waiters st ∧
  waiters st' = waiters st ∧ guarded st' = guarded st ∧
  lk_holder st' = lk_holder st ∧ length (futs st') = length (futs st).
Proof.
  unfold notify. destruct (negb (locked st)); simpl; [done|].
  apply notify_loop_frame.
Qed.

Lemma filter_ext_elem (P Q : fid → Prop) `{!∀ x, Decision (P x)}
    `{!∀ x, Decision (Q x)} (l : list fid) :
  (∀ x, x ∈ l → (P x ↔ Q x)) → filter P l = filter Q l.
Proof.
  induction l as [|y l IHl]; intros Hext; [done|].
  rewrite !filter_cons, IHl.
  - assert (P y ↔ Q y) by (apply Hext, elem_of_cons; by left).
    destruct (decide (P y)), (decide (Q y)); tauto || done.
  - intros x Hx. apply Hext, elem_of_cons. by right.
Qed.

Lemma notify_fulfilled value n st :
  locked st = true → NoDup (waiters st) →
  fulfilled st (notify value n st).1 = take (Z.to_nat n) (pending st).
Proof.
  intros Hl Hnd. unfold fulfilled.
  assert (Hndp : NoDup (pending st)) by by apply NoDup_filter.
  rewrite <- (filter_take_NoDup (pending st) (Z.to_nat n)) by done.
  apply filter_ext_elem. intros f Hf.
  apply list_elem_of_filter in Hf as [Hp%done_false_lookup _].
  unfold done at 1. rewrite notify_futs by done.
  rewrite Hp. destruct (decide _); [done|]. split; [done|]. tauto.
Qed.



(** ** notify and notify_all *)

(** C2. Called by a task that holds the Mutex, with [1 ≤ n], on a queue
    without repeated handles, [notify value n] raises nothing and fulfils
    exactly [min n pending_count] handles: the first ones of the pending
    handles in queue order, each with [value]; no other future changes;
    with fewer than [n] pending handles all of them are fulfilled; on an
    empty queue the store is left as it was. *)
Theorem notify_fulfills_min (t : tid) value n st :
  1 ≤ n → holds t st → NoDup (waiters st) →
  ∃ st', notify value n st = (st', Returned tt) ∧
    fulfilled st st' = take (Z.to_nat n) (pending st) ∧
    Z.of_nat (length (fulfilled st st')) = Z.min n (pending_count st) ∧
    (∀ f, f ∈ fulfilled st st' → futs st' !! f = Some (Result value)) ∧
    (∀ f, f ∉ fulfilled st st' → futs st' !! f = futs st !! f) ∧
    (pending_count st < n → fulfilled st st' = pending st) ∧
    (waiters st = [] → st' = st) ∧
    waiters st' = waiters st ∧ locked st' = locked st ∧
    lk_holder st' = lk_holder st.
Proof.
  intros Hn [Hl Hh] Hnd.
  pose proof (notify_fulfilled value n st Hl Hnd) as Hful.
  pose proof (notify_frame value n st) as (Hf1 & Hf2 & Hf3 & Hf4 & Hf5 & Hf6).
  exists (notify value n st).1. split.
  { unfold notify, locked. by rewrite Hl. }
  split; [done|]. rewrite Hful. repeat split.
  - rewrite length_take. unfold pending_count. lia.
  - intros f Hf. rewrite notify_futs by done. by rewrite decide_True.
  - intros f Hf. rewrite notify_futs by done. by rewrite decide_False.
  - unfold pending_count. intros Hlt. apply take_ge. lia.
  - intros Hw. unfold notify, locked. rewrite Hl, Hw. done.
  - done.
  - done.
  - done.
Qed.

(** C3. [notify_all value] is [notify value pending_count], on every
    store, also one whose queue holds handles that are fulfilled and not
    yet removed: the two calls give the same store and the same outcome.
    When the lock is held, every pending handle of the queue gets [value],
    no other future changes, and no handle is pending afterwards. *)
Theorem notify_all_is_notify_pending value st :
  notify_all value st = notify value (pending_count st) st ∧
  (locked st = true →
   let st' := (notify_all value st).1 in
   (notify_all value st).2 = Returned tt ∧
   (∀ f, f ∈ pending st → futs st' !! f = Some (Result value)) ∧
   (∀ f, f ∉ pending st → futs st' !! f = futs st !! f) ∧
   fulfilled st st' = pending st ∧ pending st' = [] ∧
   waiters st' = waiters st).
Proof.
  assert (Hall : ∀ n f, locked st = true → pending_count st ≤ n →
    futs (notify value n st).1 !! f =
      if decide (f ∈ pending st) then Some (Result value) else futs st !! f).
  { intros n f Hl Hn. unfold notify. rewrite Hl. cbn [negb fst].
    rewrite notify_loop_all by (fold (pending st); unfold pending_count in Hn; lia).
    unfold pending.
    destruct (decide (f ∈ waiters st ∧ _)) as [[? ?]|Hn1];
      destruct (decide (f ∈ filter _ _)) as [Hin|Hn2]; try done; exfalso.
    - apply Hn2. by apply list_elem_of_filter.
    - apply Hn1. by apply list_elem_of_filter in Hin as [? ?]. }
  assert (Hlen : pending_count st ≤ Z.of_nat (length (waiters st))).
  { unfold pending_count, pending. apply inj_le, length_filter. }
  split.
  - unfold notify_all. destruct (locked st) eqn:Hl.
    + pose proof (notify_frame value (Z.of_nat (length (waiters st))) st)
        as (?&?&?&?&?&?).
      pose proof (notify_frame value (pending_count st) st) as (?&?&?&?&?&?).
      assert ((notify value (Z.of_nat (length (waiters st))) st).1 =
              (notify value (pending_count st) st).1) as Heq.
      { apply state_eq; try congruence.
        apply list_eq. intros f. by rewrite !Hall by (done || lia). }
      unfold notify in *. rewrite Hl in *. cbn [negb fst] in *. by rewrite Heq.
    + unfold notify. by rewrite Hl.
  - intros Hl st'. subst st'. unfold notify_all.
    pose proof (notify_frame value (Z.of_nat (length (waiters st))) st)
      as (?&?&Hw&?&?&?).
    set (st' := (notify _ _ st).1) in *.
    assert (Hdone : ∀ f, f ∈ pending st → done st' f = true).
    { intros f Hf. unfold done, st'. rewrite Hall by done.
      by rewrite decide_True. }
    split; [unfold notify; by rewrite Hl|].
    split; [intros f Hf; unfold st'; rewrite Hall by done; by rewrite decide_True|].
    split; [intros f Hf; unfold st'; rewrite Hall by done; by rewrite decide_False|].
    split; [|split; [|done]].
    + unfold fulfilled.
      rewrite <- (filter_ext_elem (λ _, True) _ (pending st)).
      * clear. induction (pending st) as [|g l IHl]; [done|].
        by rewrite filter_cons_True, IHl.
      * intros f Hf. by rewrite Hdone.
    + unfold pending at 1. rewrite Hw.
      rewrite (filter_ext_elem _ (λ _, False) (waiters st)).
      * clear. induction (waiters st) as [|g l IHl]; [done|].
        by rewrite filter_cons_False by tauto.
      * intros f Hf. split; [|done]. intros Hp.
        destruct (done st f) eqn:Hd.
        -- apply done_false_lookup in Hp. unfold st' in Hp.
           rewrite Hall in Hp by done. destruct (decide _); [done|].
           unfold done in Hd. by rewrite Hp in Hd.
        -- rewrite Hdone in Hp; [done|]. by apply list_elem_of_filter.
Qed.

(** C10. Called by a task that holds the Mutex with [n ≤ 0], [notify]
    raises nothing and leaves the whole store as it was: no handle is
    fulfilled, the queue and [locked()] are unchanged. *)
Theorem notify_nonpositive_noop (t : tid) value n st :
  n ≤ 0 → holds t st →
  notify value n st = (st, Returned tt) ∧
  fulfilled st (notify value n st).1 = [].
Proof.
  intros Hn [Hl Hh].
  assert (Heq : notify value n st = (st, Returned tt)).
  { unfold notify, locked. rewrite Hl. cbn [negb].
    by rewrite notify_loop_nil_budget. }
  split; [done|]. rewrite Heq. cbn [fst]. unfold fulfilled.
  rewrite (filter_ext_elem _ (λ _, False) (pending st)).
  - clear. induction (pending st) as [|g l IHl]; [done|].
    by rewrite filter_cons_False by tauto.
  - intros f [Hp _]%list_elem_of_filter. rewrite Hp. done.
Qed.


(** C4, as amended. With [A] queued before [B] and [A] still pending,
    [notify value 1] called by a holder of the Mutex never fulfils [B];
    it fulfils [A], and [A] alone, when no pending handle is queued before
    [A]. *)
Theorem notify_one_fifo (t : tid) value st i j A B :
  holds t st → NoDup (waiters st) →
  waiters st !! i = Some A → waiters st !! j = Some B → (i < j)%nat →
  done st A = false →
  let st' := (notify value 1 st).1 in
  futs st' !! B = futs st !! B ∧ (B ∉ fulfilled st st') ∧
  ((∀ k C, (k < i)%nat → waiters st !! k = Some C → done st C = true) →
   futs st' !! A = Some (Result value) ∧ fulfilled st st' = [A]).
Proof.
  intros [Hl Hh] Hnd HA HB Hij Hp st'. subst st'.
  assert (Hpend : pending st =
    filter (λ g, done st g = false) (take i (waiters st)) ++
    A :: filter (λ g, done st g = false) (drop (S i) (waiters st))).
  { unfold pending. rewrite <- (take_drop_middle _ _ _ HA) at 1.
    by rewrite filter_app, filter_cons_True. }
  assert (HnB : B ∉ take (Z.to_nat 1) (pending st)).
  { intros (k & Hk & Hlt)%elem_of_take.
    assert (k = 0)%nat as -> by lia. rewrite Hpend in Hk.
    destruct (filter _ (take i (waiters st))) as [|x l] eqn:Hfl;
      simpl in Hk; simplify_eq.
    - pose proof (NoDup_lookup _ _ _ _ Hnd HA HB). lia.
    - assert (Hin : B ∈ filter (λ g, done st g = false) (take i (waiters st)))
        by (rewrite Hfl; apply elem_of_cons; by left).
      apply list_elem_of_filter in Hin as [_ Hin].
      apply elem_of_take in Hin as (k & Hk & Hlt').
      pose proof (NoDup_lookup _ _ _ _ Hnd Hk HB). lia. }
  rewrite notify_fulfilled by done.
  split; [rewrite notify_futs by done; by apply decide_False|].
  split; [done|].
  intros Hbefore.
  assert (Hnil : filter (λ g, done st g = false) (take i (waiters st)) = []).
  { rewrite (filter_ext_elem _ (λ _, False)).
    - clear. induction (take i (waiters st)) as [|g l IHl]; [done|].
      by rewrite filter_cons_False by tauto.
    - intros C (k & Hk & Hlt)%elem_of_take. split; [|done].
      rewrite (Hbefore k C) by done. done. }
  rewrite Hnil in Hpend. cbn [app] in Hpend.
  rewrite notify_futs, Hpend by done.
  change (Z.to_nat 1) with 1%nat. cbn [take].
  split; [|done].
  apply decide_True, elem_of_cons. by left.
Qed.


(** ** deque.remove *)

Lemma deque_remove_Some x d r :
  deque_remove x d = Some r →
  ∃ l1 l2, d = l1 ++ x :: l2 ∧ r = l1 ++ l2 ∧ x ∉ l1.
Proof.
  revert r. induction d as [|y d IH]; intros r Hrm; [done|].
  simpl in Hrm. destruct (decide (x = y)) as [->|Hne].
  - injection Hrm as <-. exists [], d. split; [done|]. split; [done|].
    apply not_elem_of_nil.
  - destruct (deque_remove x d) as [r'|]; [|done]. injection Hrm as <-.
    destruct (IH r' eq_refl) as (l1 & l2 & -> & -> & Hnin).
    exists (y :: l1), l2. split; [done|]. split; [done|].
    apply not_elem_of_cons. done.
Qed.

Lemma deque_remove_None x d : deque_remove x d = None ↔ x ∉ d.
Proof.
  induction d as [|y d IH]; simpl.
  - split; [intros _; apply not_elem_of_nil|done].
  - rewrite not_elem_of_cons. destruct (decide (x = y)) as [->|Hne].
    + split; [done|]. by intros [? _].
    + destruct (deque_remove x d).
      * split; [done|]. intros [_ Hnin]. by apply IH in Hnin.
      * split; [|done]. intros _. split; [done|]. by apply IH.
Qed.

Lemma deque_remove_elem_of x y d r :
  deque_remove x d = Some r → y ∈ r → y ∈ d.
Proof.
  intros (l1 & l2 & -> & -> & _)%deque_remove_Some.
  rewrite !elem_of_app, elem_of_cons. tauto.
Qed.

(** On a deque without repetition, [remove] is the filter that drops
    the element, and the element is gone afterwards. *)
Lemma deque_remove_NoDup x d r :
  NoDup d → deque_remove x d = Some r →
  r = filter (λ y, y ≠ x) d ∧ NoDup r ∧ (x ∉ r) ∧
  (length r + 1 = length d)%nat.
Proof.
  intros Hnd (l1 & l2 & -> & -> & Hnin)%deque_remove_Some.
  apply NoDup_app in Hnd as (Hnd1 & Hdisj & Hnd2).
  apply NoDup_cons in Hnd2 as [Hnin2 Hnd2].
  assert (Hf : ∀ l : list nat, x ∉ l → filter (λ y, y ≠ x) l = l).
  { clear. induction l as [|y l IHl]; intros Hnin; [done|].
    apply not_elem_of_cons in Hnin as [Hne Hnin].
    by rewrite filter_cons_True, IHl by done. }
  repeat split.
  - rewrite filter_app, filter_cons_False by (intros Hne; by apply Hne).
    by rewrite !Hf.
  - apply NoDup_app. repeat split; [done| |done].
    intros y Hy Hy2. apply (Hdisj y Hy). apply elem_of_cons. by right.
  - rewrite elem_of_app. tauto.
  - rewrite !length_app. simpl. lia.
Qed.

(** ** The lock *)

Lemma _wake_up_first_frame st :
  let st' := _wake_up_first st in
  lk_locked st' = lk_locked st ∧ lk_waiters st' = lk_waiters st ∧
  waiters st' = waiters st ∧ guarded st' = guarded st ∧
  lk_holder st' = lk_holder st ∧ length (futs st') = length (futs st).
Proof.
  unfold _wake_up_first. destruct (lk_waiters st) as [|fut ws] eqn:E; [done|].
  destruct (done st fut); [done|].
  unfold set_result. simpl. by rewrite length_insert.
Qed.

Lemma acquire_begin_spec t st st' r :
  acquire_begin t st = (st', r) →
  waiters st' = waiters st ∧ guarded st' = guarded st ∧
  ((r = Finished (Returned tt) ∧ holds t st' ∧ futs st' = futs st ∧
    lk_waiters st' = lk_waiters st ∧ lk_locked st = false) ∨
   (r = Suspended (length (futs st)) ∧ futs st' = futs st ++ [Pending] ∧
    lk_waiters st' = lk_waiters st ++ [length (futs st)] ∧
    lk_locked st' = lk_locked st ∧ lk_holder st' = lk_holder st)).
Proof.
  unfold acquire_begin.
  destruct (negb (lk_locked st) && forallb (cancelled st) (lk_waiters st)) eqn:Hc;
    intros [= <- <-]; simpl.
  - split; [done|]. split; [done|]. left.
    apply andb_true_iff in Hc as [Hc%negb_true_iff _]. by repeat split.
  - split; [done|]. split; [done|]. right. by repeat split.
Qed.

Lemma acquire_resume_spec t fut w st st' o :
  acquire_resume t fut w st = (st', o) →
  waiters st' = waiters st ∧ guarded st' = guarded st ∧
  length (futs st') = length (futs st) ∧
  match o with
  | Returned _ => holds t st' ∧ w = Send
  | Raised CancelledError => fut ∈ lk_waiters st
  | Raised ValueError => (fut ∉ lk_waiters st) ∧ st' = st
  | Raised RuntimeError =>
      w = Send ∧ await_resume Send fut st = Raised RuntimeError
  end.
Proof.
  unfold acquire_resume.
  destruct (deque_remove fut (lk_waiters st)) as [ws|] eqn:Hrm.
  - assert (fut ∈ lk_waiters st) as Hin.
    { apply deque_remove_Some in Hrm as (l1 & l2 & -> & _).
      rewrite elem_of_app, elem_of_cons. tauto. }
    pose proof (_wake_up_first_frame (set_lk_waiters ws st)) as (?&?&?&?&?&?).
    unfold await_resume.
    destruct w; [destruct (futs st !! fut) as [[]|] eqn:Hf|];
      intros [= <- <-]; cbn [set_lock set_lk_waiters waiters guarded futs
        lk_locked lk_holder] in *;
      try destruct (lk_locked st); repeat split; try done.
  - intros [= <- <-]. repeat split; try done. by apply deque_remove_None.
Qed.


(** ** wait *)

Lemma reacquire_spec t c b st st' r :
  reacquire t c b st = (st', r) →
  waiters st' = waiters st ∧ guarded st' = guarded st ∧
  ((r = Finished (wait_exit c b) ∧ holds t st' ∧ futs st' = futs st ∧
    lk_waiters st' = lk_waiters st) ∨
   (r = Suspended (AtAcquire (length (futs st)) c b) ∧
    futs st' = futs st ++ [Pending] ∧
    lk_waiters st' = lk_waiters st ++ [length (futs st)] ∧
    lk_locked st' = lk_locked st ∧ lk_holder st' = lk_holder st)).
Proof.
  unfold reacquire. destruct (acquire_begin t st) as [st1 r1] eqn:Hacq.
  apply acquire_begin_spec in Hacq as (Hw & Hg & [(-> & ? & ? & ? & ?)|(-> & ? & ? & ? & ?)]);
    intros [= <- <-]; (split; [done|]); (split; [done|]); [left|right]; done.
Qed.

Lemma wait_begin_spec st st' o :
  wait_begin st = (st', o) →
  (locked st = false ∧ st' = st ∧ o = Raised RuntimeError) ∨
  (locked st = true ∧ o = Returned (AtFut (length (futs st))) ∧
   waiters st' = waiters st ++ [length (futs st)] ∧
   futs st' = futs (_wake_up_first (set_lock false None st)) ++ [Pending] ∧
   length (futs st') = S (length (futs st)) ∧
   lk_locked st' = false ∧ lk_holder st' = None ∧
   lk_waiters st' = lk_waiters st ∧ guarded st' = guarded st).
Proof.
  unfold wait_begin, locked, release.
  destruct (lk_locked st) eqn:Hl; cbn [negb]; intros [= <- <-].
  - right.
    pose proof (_wake_up_first_frame (set_lock false None st)) as (?&?&?&?&?&Hlen).
    cbn [create_future set_waiters set_futs futs waiters lk_locked lk_holder
         lk_waiters guarded set_lock] in *.
    rewrite Hlen. repeat split; try done.
    + by rewrite H1.
    + rewrite length_app, Hlen. simpl. lia.
  - by left.
Qed.


Lemma wait_resume_AtFut_spec t fut w st st' r :
  wait_resume t (AtFut fut) w st = (st', r) →
  ∃ body,
    match deque_remove fut (waiters st) with
    | None => waiters st' = waiters st ∧ body = Raised ValueError
    | Some ws => waiters st' = ws ∧ body = await_resume w fut st
    end ∧
    guarded st' = guarded st ∧
    ((r = Finished body ∧ holds t st' ∧ futs st' = futs st) ∨
     (r = Suspended (AtAcquire (length (futs st)) false body) ∧
      futs st' = futs st ++ [Pending] ∧
      lk_locked st' = lk_locked st ∧ lk_holder st' = lk_holder st)).
Proof.
  cbn [wait_resume].
  destruct (deque_remove fut (waiters st)) as [ws|]; intros Hre;
    apply reacquire_spec in Hre as (Hw & Hg & Hcases).
  - exists (await_resume w fut st). split; [done|]. split; [done|].
    destruct Hcases as [(-> & ? & ? & ?)|(-> & ? & ? & ? & ?)]; [left|right]; done.
  - exists (Raised ValueError). split; [done|]. split; [done|].
    destruct Hcases as [(-> & ? & ? & ?)|(-> & ? & ? & ? & ?)]; [left|right]; done.
Qed.

Lemma wait_resume_AtAcquire_spec t lf c b w st st' r :
  wait_resume t (AtAcquire lf c b) w st = (st', r) →
  waiters st' = waiters st ∧ guarded st' = guarded st ∧
  ((r = Finished (wait_exit c b) ∧ holds t st' ∧ w = Send) ∨
   (r = Finished (Raised CancelledError) ∧ holds t st' ∧ lf ∈ lk_waiters st) ∨
   (∃ lf', r = Suspended (AtAcquire lf' true b) ∧ lf ∈ lk_waiters st ∧
           lf' ∈ lk_waiters st') ∨
   (r = Finished (Raised ValueError) ∧ (lf ∉ lk_waiters st) ∧ st' = st) ∨
   (r = Finished (Raised RuntimeError) ∧ w = Send)).
Proof.
  cbn [wait_resume].
  destruct (acquire_resume t lf w st) as [st1 o] eqn:Hacq.
  apply acquire_resume_spec in Hacq as (Hw & Hg & Hlen & Ho).
  destruct o as [u|[]].
  - intros [= <- <-]. destruct Ho. split; [done|]. split; [done|]. by left.
  - intros [= <- <-]. destruct Ho. split; [done|]. split; [done|].
    do 4 right. done.
  - intros Hre. apply reacquire_spec in Hre as (Hw' & Hg' & Hcases).
    split; [congruence|]. split; [congruence|].
    destruct Hcases as [(-> & ? & ? & ?)|(-> & ? & Hlk & ? & ?)].
    + right; left. done.
    + right; right; left. eexists. split; [done|]. split; [done|].
      rewrite Hlk. apply elem_of_app. right. apply elem_of_cons. by left.
  - intros [= <- <-]. destruct Ho as [? ->]. split; [done|]. split; [done|].
    do 3 right. left. done.
Qed.

(** Whenever a step of [wait] ends the call with a value or with the
    cancellation error, the caller holds the lock in the resulting store. *)
Lemma wait_resume_finished_holds t pc w st st' o :
  wait_resume t pc w st = (st', Finished o) →
  returned_or_cancelled o → holds t st'.
Proof.
  destruct pc as [fut|lf c b]; intros Hstep Hro.
  - apply wait_resume_AtFut_spec in Hstep as (body & _ & _ & [(? & ? & ?)|(? & _)]);
      done.
  - apply wait_resume_AtAcquire_spec in Hstep
      as (_ & _ & [(? & ? & ?)|[(? & ? & ?)|[(? & ? & _)|[(? & _)|(? & _)]]]]);
      simplify_eq; done.
Qed.

(** A doomed [wait] stays doomed, and a cancellation thrown at either
    suspension point dooms it. *)
Lemma wait_resume_doomed t pc w st st' pc' :
  wait_resume t pc w st = (st', Suspended pc') →
  doomed pc ∨ w = Throw → doomed pc'.
Proof.
  destruct pc as [fut|lf c b]; intros Hstep Hd.
  - destruct Hd as [[]| ->].
    apply wait_resume_AtFut_spec in Hstep as (body & Hb & _ & [(? & _)|(? & _)]);
      simplify_eq. simpl. right.
    destruct (deque_remove fut (waiters st)); destruct Hb as [_ ->]; by eexists.
  - apply wait_resume_AtAcquire_spec in Hstep
      as (_ & _ & [(? & _)|[(? & _)|[(? & ? & _)|[(? & _)|(? & _)]]]]);
      simplify_eq. simpl. by left.
Qed.

Lemma wait_resume_doomed_finished t pc w st st' o :
  wait_resume t pc w st = (st', Finished o) →
  doomed pc ∨ w = Throw → ∃ e, o = Raised e.
Proof.
  destruct pc as [fut|lf c b]; intros Hstep Hd.
  - destruct Hd as [[]| ->].
    apply wait_resume_AtFut_spec in Hstep as (body & Hb & _ & [(? & _)|(? & _)]);
      simplify_eq.
    destruct (deque_remove fut (waiters st)); destruct Hb as [_ ->]; by eexists.
  - apply wait_resume_AtAcquire_spec in Hstep
      as (_ & _ & [(? & _ & ->)|[(? & _)|[(? & ? & _)|[(? & _)|(? & _)]]]]);
      simplify_eq; try by eexists.
    destruct Hd as [[->|[e ->]]|[=]]; simpl; [by eexists|].
    destruct c; by eexists.
Qed.

Lemma doomed_run t pc st ws st' o :
  wait_run t pc st ws st' o →
  doomed pc ∨ head ws = Some Throw → ∃ e, o = Raised e.
Proof.
  induction 1 as [pc w st st' o Hstep|pc w st st1 pc' st2 ws st' o Hstep _ IH];
    intros Hd.
  - eapply wait_resume_doomed_finished; [done|].
    destruct Hd as [?|[= ->]]; [by left|by right].
  - apply IH. left. eapply wait_resume_doomed; [done|].
    destruct Hd as [?|[= ->]]; [by left|by right].
Qed.

Lemma wait_run_holds t pc st ws st' o :
  wait_run t pc st ws st' o → returned_or_cancelled o → holds t st'.
Proof.
  induction 1 as [pc w st st' o Hstep|]; [|done].
  intros Hro. by eapply wait_resume_finished_holds.
Qed.

(** C1. Whenever a call of [wait] by task [t] ends with a value or with
    the cancellation error, [t] holds the Mutex in the store it returns
    into, whatever the other tasks did while it was suspended. A
    cancellation thrown while the call is re-acquiring the lock does not
    end the call without the lock: when the lock's future is still queued,
    the call either takes the lock at once and raises the cancellation
    error holding it, or calls [acquire] again and suspends with the
    cancellation remembered; from then on it cannot return a value. *)
Theorem wait_returns_holding (t : tid) pc st ws st' o :
  wait_run t pc st ws st' o →
  (returned_or_cancelled o → holds t st') ∧
  (∀ lf c b, pc = AtAcquire lf c b → head ws = Some Throw ∨ c = true →
     ∀ v, o ≠ Returned v) ∧
  (∀ lf c b, pc = AtAcquire lf c b → head ws = Some Throw →
     lf ∈ lk_waiters st →
     ∃ st1,
       (wait_resume t pc Throw st = (st1, Finished (Raised CancelledError)) ∧
        holds t st1 ∧ ws = [Throw] ∧ st' = st1 ∧ o = Raised CancelledError) ∨
       (∃ lf', wait_resume t pc Throw st =
                 (st1, Suspended (AtAcquire lf' true b)) ∧
               lf' ∈ lk_waiters st1)).
Proof.
  intros Hrun. split; [|split].
  - by eapply wait_run_holds.
  - intros lf c b -> Hd v ->.
    destruct (doomed_run _ _ _ _ _ _ Hrun) as [e [=]].
    destruct Hd as [?|Hc]; [by right|]. subst c. left. simpl. by left.
  - intros lf c b -> Hhd Hin.
    destruct (wait_resume t (AtAcquire lf c b) Throw st) as [st1 r] eqn:Hstep.
    exists st1.
    pose proof Hstep as Hspec. apply wait_resume_AtAcquire_spec in Hspec
      as (_ & _ & [(? & _ & [=])|[(-> & ? & ?)|[(lf' & -> & ? & ?)|[(? & ? & _)|(? & [=])]]]]);
      [| |done].
    + left. inversion Hrun as [? w ? ? ? Hs|? w ? ? ? ? ? ? ? Hs Hr]; simplify_eq.
      * simpl in Hhd. injection Hhd as ->. rewrite Hstep in Hs.
        by injection Hs as <- <-.
      * simpl in Hhd. injection Hhd as ->. rewrite Hstep in Hs. done.
    + right. by exists lf'.
Qed.



(** The step of [wait] that resumes from [await fut] removes [fut], and
    nothing else, from the queue: the queue gets shorter by exactly one,
    the other handles stay queued in their order, and the futures that
    existed keep their states; after that step the call is past its only
    removal (it has ended or is re-acquiring the lock). No other operation
    removes [fut]: not [notify] or [notify_all], which leave the queue as
    it is, not the re-acquiring steps of any [wait], not the start of a
    [wait], which appends, not the wake-up of another waiter. *)
Lemma wait_resume_removes_handle (t : tid) fut w st :
  NoDup (waiters st) → fut ∈ waiters st →
  let st1 := (wait_resume t (AtFut fut) w st).1 in
  waiters st1 = filter (λ g, g ≠ fut) (waiters st) ∧
  (length (waiters st1) + 1 = length (waiters st))%nat ∧
  (fut ∉ waiters st1) ∧
  (∀ g, g ≠ fut → (g ∈ waiters st1 ↔ g ∈ waiters st)) ∧
  (∀ g, (g < length (futs st))%nat → futs st1 !! g = futs st !! g) ∧
  (∀ pc', (wait_resume t (AtFut fut) w st).2 = Suspended pc' →
     ∃ lf c b, pc' = AtAcquire lf c b) ∧
  (∀ value n s, waiters (notify value n s).1 = waiters s) ∧
  (∀ value s, waiters (notify_all value s).1 = waiters s) ∧
  (∀ t' lf c b w' s,
     waiters (wait_resume t' (AtAcquire lf c b) w' s).1 = waiters s) ∧
  (∀ s, ∃ l, waiters (wait_begin s).1 = waiters s ++ l) ∧
  (∀ t' g w' s, g ≠ fut → fut ∈ waiters s →
     fut ∈ waiters (wait_resume t' (AtFut g) w' s).1).
Proof.
  intros Hnd Hin st1. subst st1.
  destruct (wait_resume t (AtFut fut) w st) as [st1 r] eqn:Hstep. cbn [fst snd].
  apply wait_resume_AtFut_spec in Hstep as (body & Hb & _ & Hcases).
  destruct (deque_remove fut (waiters st)) as [ws|] eqn:Hrm;
    [|by apply deque_remove_None in Hrm].
  destruct Hb as [Hw ->].
  destruct (deque_remove_NoDup _ _ _ Hnd Hrm) as (Hfilter & _ & Hnin & Hlen).
  rewrite Hw.
  split; [done|]. split; [done|]. split; [done|]. split.
  { intros g Hne. rewrite Hfilter, list_elem_of_filter. tauto. }
  split.
  { intros g Hg. destruct Hcases as [(_ & _ & ->)|(_ & -> & _)]; [done|].
    by apply lookup_app_l. }
  split.
  { intros pc' ->. destruct Hcases as [([=] & _)|([= ->] & _)]. by eexists _, _, _. }
  split.
  { intros value n s. by destruct (notify_frame value n s) as (_ & _ & ? & _). }
  split.
  { intros value s. unfold notify_all.
    by destruct (notify_frame value (Z.of_nat (length (waiters s))) s)
      as (_ & _ & ? & _). }
  split.
  { intros t' lf c b w' s.
    destruct (wait_resume t' (AtAcquire lf c b) w' s) as [s1 r1] eqn:Hs.
    cbn [fst]. by apply wait_resume_AtAcquire_spec in Hs as (? & _). }
  split.
  { intros s. destruct (wait_begin s) as [s1 o1] eqn:Hs. cbn [fst].
    apply wait_begin_spec in Hs as [(_ & -> & _)|(_ & _ & -> & _)].
    - exists []. by rewrite app_nil_r.
    - by eexists. }
  intros t' g w' s Hne Hin'.
  destruct (wait_resume t' (AtFut g) w' s) as [s1 r1] eqn:Hs. cbn [fst].
  apply wait_resume_AtFut_spec in Hs as (body' & Hb' & _).
  destruct (deque_remove g (waiters s)) as [ws'|] eqn:Hrm'.
  - destruct Hb' as [-> _].
    apply deque_remove_Some in Hrm' as (l1 & l2 & Hd & -> & _).
    rewrite Hd in Hin'. rewrite !elem_of_app, elem_of_cons in Hin'.
    rewrite elem_of_app. destruct Hin' as [?|[?|?]]; [by left|done|by right].
  - by destruct Hb' as [-> _].
Qed.


(** ** Calls made without the lock *)

(** C5, as amended. Called while the Mutex is not locked by any task,
    [wait], [notify] and [notify_all] raise [RuntimeError] and leave the
    whole store (lock, queue, futures) as it was. *)
Theorem unlocked_calls_fail st :
  locked st = false →
  wait_begin st = (st, Raised RuntimeError) ∧
  (∀ value n, notify value n st = (st, Raised RuntimeError)) ∧
  (∀ value, notify_all value st = (st, Raised RuntimeError)).
Proof.
  intros Hl. unfold wait_begin, notify_all, notify. by rewrite !Hl.
Qed.

(** C6, as amended. Called while the Mutex is not locked by any task,
    with a predicate that is false at the call, [wait_for] raises
    [RuntimeError] and leaves the whole store as it was. *)
Theorem wait_for_unlocked_fails (predicate : state → bool) st :
  locked st = false → predicate st = false →
  wait_for_begin predicate st = (st, Finished (Raised RuntimeError)).
Proof.
  intros Hl Hp. unfold wait_for_begin, wait_for_again, wait_begin.
  by rewrite Hp, Hl.
Qed.

(** ** wait_for *)

Lemma wait_for_resume_spec t predicate pc w s s1 r :
  wait_resume t pc w s = (s1, r) →
  match r with
  | Suspended pc' =>
      wait_for_resume t predicate pc w s = (s1, Suspended pc')
  | Finished (Raised e) =>
      wait_for_resume t predicate pc w s = (s1, Finished (Raised e))
  | Finished (Returned _) =>
      holds t s1 ∧
      if predicate s1
      then wait_for_resume t predicate pc w s = (s1, Finished (Returned true))
      else ∃ s2 pc', wait_begin s1 = (s2, Returned pc') ∧
             wait_for_resume t predicate pc w s = (s2, Suspended pc')
  end.
Proof.
  intros Hstep. unfold wait_for_resume. rewrite Hstep.
  destruct r as [pc'|[v|e]]; [done| |done].
  assert (Hh : holds t s1) by by eapply wait_resume_finished_holds.
  split; [done|]. unfold wait_for_again.
  destruct (predicate s1); [done|].
  destruct (wait_begin s1) as [s2 o] eqn:Hb.
  apply wait_begin_spec in Hb as [(Hl & _)|(_ & -> & _)].
  - destruct Hh as [Hh _]. unfold locked in Hl. congruence.
  - by eexists _, _.
Qed.

Lemma wait_for_run_true t predicate pc s ws s' b :
  wait_for_run t predicate pc s ws s' (Returned b) →
  b = true ∧ predicate s' = true ∧ holds t s'.
Proof.
  unfold wait_for_run.
  remember (Returned b) as o eqn:Ho.
  induction 1 as [pc w s s' o Hstep|pc w s s1 pc' s2 ws s' o _ _ IH]; [|by apply IH].
  subst o. destruct (wait_resume t pc w s) as [s1 r] eqn:Hw.
  pose proof (wait_for_resume_spec t predicate _ _ _ _ _ Hw) as Hspec.
  destruct r as [pc'|[v|e]]; [congruence| |congruence].
  destruct Hspec as [Hh Hspec]. destruct (predicate s1) eqn:Hp.
  - rewrite Hstep in Hspec. by injection Hspec as -> ->.
  - destruct Hspec as (s2 & pc' & _ & Hspec). congruence.
Qed.

(** C7. Called by a holder of the Mutex, [wait_for predicate]: returns
    [true] at once, without suspending or touching the store, when the
    predicate is true; otherwise calls [wait] and suspends where [wait]
    does. Whenever the inner [wait] hands back a value the predicate is
    evaluated again in the store of that moment, [true] ends the call and
    [false] calls [wait] again (which suspends: the lock is held); an
    exception of the inner [wait], the cancellation error included, ends
    [wait_for] with that same exception. Every value [wait_for] returns is
    [true], and the predicate holds, and the lock is held, where it
    returns. *)
Theorem wait_for_returns_true (t : tid) (predicate : state → bool) st :
  holds t st →
  (predicate st = true →
   wait_for_begin predicate st = (st, Finished (Returned true))) ∧
  (predicate st = false →
   ∃ st1 pc, wait_begin st = (st1, Returned pc) ∧
             wait_for_begin predicate st = (st1, Suspended pc)) ∧
  (∀ pc w s s1 r, wait_resume t pc w s = (s1, r) →
     match r with
     | Suspended pc' =>
         wait_for_resume t predicate pc w s = (s1, Suspended pc')
     | Finished (Raised e) =>
         wait_for_resume t predicate pc w s = (s1, Finished (Raised e))
     | Finished (Returned _) =>
         holds t s1 ∧
         if predicate s1
         then wait_for_resume t predicate pc w s =
                (s1, Finished (Returned true))
         else ∃ s2 pc', wait_begin s1 = (s2, Returned pc') ∧
                wait_for_resume t predicate pc w s = (s2, Suspended pc')
     end) ∧
  (∀ pc s ws s' b, wait_for_run t predicate pc s ws s' (Returned b) →
     b = true ∧ predicate s' = true ∧ holds t s').
Proof.
  intros [Hl Hh]. split; [|split; [|split]].
  - intros Hp. unfold wait_for_begin, wait_for_again. by rewrite Hp.
  - intros Hp. unfold wait_for_begin, wait_for_again. rewrite Hp.
    destruct (wait_begin st) as [st1 o] eqn:Hb.
    apply wait_begin_spec in Hb as [(Hl' & _)|(_ & -> & _)].
    + unfold locked in Hl'. congruence.
    + by eexists _, _.
  - intros pc w s s1 r. apply wait_for_resume_spec.
  - intros pc s ws s' b. apply wait_for_run_true.
Qed.

(** ** The ghost field is never read *)

Lemma notify_loop_set_lock value n idx ws b h st :
  notify_loop value n idx ws (set_lock b h st) =
  set_lock b h (notify_loop value n idx ws st).
Proof.
  revert idx st. induction ws as [|fut ws IH]; intros idx st; [done|].
  cbn [notify_loop]. destruct (idx >=? n); [done|].
  change (done (set_lock b h st) fut) with (done st fut).
  destruct (done st fut); cbn [negb]; [apply IH|].
  change (set_result fut value (set_lock b h st))
    with (set_lock b h (set_result fut value st)).
  apply IH.
Qed.

(** Every operation gives the same outcome, and the same store up to the
    ghost field, whatever the ghost field holds. *)
Lemma holder_not_read st :
  (∀ t, erase (acquire_begin t (erase st)).1 = erase (acquire_begin t st).1 ∧
        (acquire_begin t (erase st)).2 = (acquire_begin t st).2) ∧
  (∀ t fut w,
     erase (acquire_resume t fut w (erase st)).1 =
       erase (acquire_resume t fut w st).1 ∧
     (acquire_resume t fut w (erase st)).2 = (acquire_resume t fut w st).2) ∧
  (erase (release (erase st)).1 = erase (release st).1 ∧
   (release (erase st)).2 = (release st).2) ∧
  (erase (wait_begin (erase st)).1 = erase (wait_begin st).1 ∧
   (wait_begin (erase st)).2 = (wait_begin st).2) ∧
  (∀ t pc w,
     erase (wait_resume t pc w (erase st)).1 = erase (wait_resume t pc w st).1 ∧
     (wait_resume t pc w (erase st)).2 = (wait_resume t pc w st).2) ∧
  (∀ value n,
     erase (notify value n (erase st)).1 = erase (notify value n st).1 ∧
     (notify value n (erase st)).2 = (notify value n st).2) ∧
  (∀ value,
     erase (notify_all value (erase st)).1 = erase (notify_all value st).1 ∧
     (notify_all value (erase st)).2 = (notify_all value st).2).
Proof.
  assert (Hset : ∀ b h s, lk_locked s = b → erase (set_lock b h s) = erase s).
  { intros b h s <-. by destruct s. }
  assert (Hacq : ∀ t s,
    erase (acquire_begin t (erase s)).1 = erase (acquire_begin t s).1 ∧
    (acquire_begin t (erase s)).2 = (acquire_begin t s).2).
  { intros t s. destruct s as [fs l lw w g h]. unfold acquire_begin, erase.
    cbn -[forallb]. unfold cancelled. cbn -[forallb].
    by destruct (negb l && _). }
  assert (Hwake : ∀ s, erase (_wake_up_first (erase s)) = erase (_wake_up_first s)).
  { intros s. destruct s as [fs l lw w g h]. unfold _wake_up_first, erase, done.
    cbn. destruct lw as [|f lw]; [done|]. by destruct (fs !! f) as [[]|]. }
  assert (Hres : ∀ t fut w s,
    erase (acquire_resume t fut w (erase s)).1 =
      erase (acquire_resume t fut w s).1 ∧
    (acquire_resume t fut w (erase s)).2 = (acquire_resume t fut w s).2).
  { intros t fut w s. unfold acquire_resume.
    change (lk_waiters (erase s)) with (lk_waiters s).
    change (await_resume w fut (erase s)) with (await_resume w fut s).
    destruct (deque_remove fut (lk_waiters s)) as [ws|]; [|done].
    destruct (await_resume w fut s) as [v|[]]; try done.
    change (lk_locked (set_lk_waiters ws (erase s)))
      with (lk_locked (set_lk_waiters ws s)).
    destruct (lk_locked (set_lk_waiters ws s)); [done|].
    split; [|done]. cbn [fst].
    apply (Hwake (set_lk_waiters ws s)). }
  assert (Hre : ∀ t c b s s0, erase s = erase s0 →
    erase (reacquire t c b s).1 = erase (reacquire t c b s0).1 ∧
    (reacquire t c b s).2 = (reacquire t c b s0).2).
  { intros t c b s s0 Heq. unfold reacquire.
    destruct (Hacq t s) as [Ha1 Ha2]. destruct (Hacq t s0) as [Hb1 Hb2].
    rewrite Heq in Ha1, Ha2.
    assert (erase (acquire_begin t s).1 = erase (acquire_begin t s0).1) as H1
      by congruence.
    assert ((acquire_begin t s).2 = (acquire_begin t s0).2) as H2 by congruence.
    clear Ha1 Ha2 Hb1 Hb2.
    destruct (acquire_begin t s) as [s1 r1], (acquire_begin t s0) as [s2 r2].
    cbn [fst snd] in *. subst r2. by destruct r1 as [lf|[u|e]]. }
  split; [intros t; apply Hacq|]. split; [intros t fut w; apply Hres|].
  assert (Hrel : erase (release (erase st)).1 = erase (release st).1 ∧
                 (release (erase st)).2 = (release st).2).
  { unfold release. change (lk_locked (erase st)) with (lk_locked st).
    destruct (lk_locked st); [|done]. split; [|done]. cbn [fst].
    apply (Hwake (set_lock false None st)). }
  split; [done|]. split; [|split; [|split]].
  - unfold wait_begin, locked. change (lk_locked (erase st)) with (lk_locked st).
    destruct (lk_locked st) eqn:Hl; cbn [negb]; [|done].
    destruct Hrel as [Hr1 Hr2]. unfold release in *. rewrite Hl in *.
    change (lk_locked (erase st)) with (lk_locked st) in *. rewrite Hl in *.
    cbn [fst snd] in *.
    destruct (_wake_up_first (set_lock false None (erase st))) as [fs l lw w g h],
      (_wake_up_first (set_lock false None st)) as [fs' l' lw' w' g' h'].
    unfold erase in Hr1. cbn in *. by simplify_eq.
  - intros t pc w. destruct pc as [fut|lfut c b]; cbn [wait_resume].
    + change (waiters (erase st)) with (waiters st).
      change (await_resume w fut (erase st)) with (await_resume w fut st).
      destruct (deque_remove fut (waiters st)) as [ws|]; by apply Hre.
    + destruct (Hres t lfut w st) as [H1 H2].
      destruct (acquire_resume t lfut w (erase st)) as [s1 o1],
        (acquire_resume t lfut w st) as [s2 o2]. cbn [fst snd] in *. subst o2.
      destruct o1 as [u|[]]; try done. by apply Hre.
  - intros value n. unfold notify, locked.
    change (lk_locked (erase st)) with (lk_locked st).
    destruct (lk_locked st); cbn [negb fst snd]; [|done]. split; [|done].
    change (waiters (erase st)) with (waiters st).
    unfold erase at 2. rewrite notify_loop_set_lock.
    apply Hset. by destruct (notify_loop_frame value n 0 (waiters st) st).
  - intros value. unfold notify_all, notify, locked.
    change (lk_locked (erase st)) with (lk_locked st).
    change (waiters (erase st)) with (waiters st).
    destruct (lk_locked st); cbn [negb fst snd]; [|done]. split; [|done].
    unfold erase at 2. rewrite notify_loop_set_lock.
    apply Hset.
    by destruct (notify_loop_frame value (Z.of_nat (length (waiters st))) 0
                  (waiters st) st).
Qed.

(** ** Programs: the queues and the suspended tasks agree *)

Lemma elem_of_deq old k (q : list nat) f :
  f ∈ deq old k q ↔ f ∈ q ∧ old ≠ Some (k, f).
Proof.
  unfold deq. destruct old as [[k' g]|]; [|intuition congruence].
  case_bool_decide as Hk.
  - subst k'. rewrite list_elem_of_filter. intuition congruence.
  - intuition congruence.
Qed.

Lemma elem_of_enq new k (q : list nat) f :
  f ∈ enq new k q ↔ f ∈ q ∨ new = Some (k, f).
Proof.
  unfold enq. destruct new as [[k' g]|]; [|intuition congruence].
  case_bool_decide as Hk.
  - subst k'. rewrite elem_of_app, list_elem_of_singleton. intuition congruence.
  - intuition congruence.
Qed.

Lemma NoDup_deq old k (q : list nat) : NoDup q → NoDup (deq old k q).
Proof.
  intros Hnd. unfold deq. destruct old as [[k' g]|]; [|done].
  case_bool_decide; [|done]. by apply NoDup_filter.
Qed.

Lemma NoDup_enq new k (q : list nat) :
  NoDup q → (∀ g, new = Some (k, g) → g ∉ q) → NoDup (enq new k q).
Proof.
  intros Hnd Hfresh. unfold enq. destruct new as [[k' g]|]; [|done].
  case_bool_decide as Hk; [|done]. subst k'.
  apply NoDup_app. split; [done|]. split; [|apply NoDup_singleton].
  intros x Hx ->%list_elem_of_singleton. by apply (Hfresh g).
Qed.

Lemma lookup_set_task t new (tk : gmap nat (@tstate V G)) t' :
  set_task t new tk !! t' = if decide (t = t') then new else tk !! t'.
Proof.
  unfold set_task. destruct new as [ts|]; case_decide as Ht.
  - subst. apply lookup_insert_eq.
  - by apply lookup_insert_ne.
  - subst. apply lookup_delete_eq.
  - by apply lookup_delete_ne.
Qed.

(** One turn of a task that leaves and joins queues as [turn_effect] says
    keeps the queues and the task table in agreement. *)
Lemma inv_transfer st tk st' t new :
  sys_inv (System st tk) →
  turn_effect (awaited <$> tk !! t) (awaited <$> new) st st' →
  sys_inv (System st' (set_task t new tk)).
Proof.
  intros (Hnd & Hrange & Hbij & Huniq) (Hq & Hlen & Hfresh).
  cbn [store tasks] in *.
  assert (Hold : ∀ t' ts', tk !! t' = Some ts' →
            ((awaited ts').2 < length (futs st))%nat).
  { intros t' ts' Ht'. apply (Hrange (awaited ts').1), Hbij.
    exists t', ts'. split; [done|]. by destruct (awaited ts'). }
  repeat split; cbn [store tasks].
  - intros k. rewrite Hq. apply NoDup_enq; [by apply NoDup_deq|].
    intros g Hg [Hin _]%elem_of_deq.
    specialize (Hrange _ _ Hin). specialize (Hfresh _ _ Hg). lia.
  - intros k f. rewrite Hq. intros [[Hin _]%elem_of_deq|Hg]%elem_of_enq.
    + specialize (Hrange _ _ Hin). lia.
    + specialize (Hfresh _ _ Hg). lia.
  - rewrite Hq. intros [[Hin Hne]%elem_of_deq|Hg]%elem_of_enq.
    + apply Hbij in Hin as (t' & ts' & Ht' & Haw).
      exists t', ts'. split; [|done]. rewrite lookup_set_task.
      case_decide as Ht; [|done]. subst t'. rewrite Ht' in Hne.
      cbn in Hne. congruence.
    + destruct new as [ts|]; [|done]. injection Hg as Hg.
      exists t, ts. split; [|done]. rewrite lookup_set_task. by rewrite decide_True.
  - intros (t' & ts' & Ht' & Haw). rewrite Hq. apply elem_of_enq.
    rewrite lookup_set_task in Ht'. case_decide as Ht.
    + right. subst new. cbn. by rewrite Haw.
    + left. apply elem_of_deq. split.
      * apply Hbij. by exists t', ts'.
      * destruct (tk !! t) as [ts0|] eqn:Ht0; [|done]. cbn. intros [= Haw0].
        apply Ht. apply (Huniq t t' ts0 ts'); [done|done|].
        by rewrite Haw, Haw0.
  - intros t1 t2 ts1 ts2. rewrite !lookup_set_task.
    assert (Hnew : ∀ ts, new = Some ts →
              (length (futs st) ≤ (awaited ts).2)%nat).
    { intros ts ->. destruct (awaited ts) as [k g] eqn:Haw.
      specialize (Hfresh k g). cbn in Hfresh. rewrite Haw in Hfresh.
      specialize (Hfresh eq_refl). cbn. lia. }
    case_decide as H1; case_decide as H2; intros Ht1 Ht2 Heq.
    + congruence.
    + specialize (Hnew _ Ht1). specialize (Hold _ _ Ht2). lia.
    + specialize (Hnew _ Ht2). specialize (Hold _ _ Ht1). lia.
    + by eapply Huniq.
Qed.

(** A turn that touches no queue and suspends nobody. *)
Lemma inv_frame st tk st' :
  sys_inv (System st tk) →
  waiters st' = waiters st → lk_waiters st' = lk_waiters st →
  (length (futs st) ≤ length (futs st'))%nat →
  sys_inv (System st' tk).
Proof.
  intros (Hnd & Hrange & Hbij & Huniq) Hw Hl Hlen.
  assert (Hq : ∀ k, queue k st' = queue k st) by (by intros []).
  repeat split; cbn [store tasks] in *.
  - intros k. rewrite Hq. apply Hnd.
  - intros k f. rewrite Hq. intros Hin. specialize (Hrange _ _ Hin). lia.
  - rewrite Hq. apply Hbij.
  - rewrite Hq. apply Hbij.
  - done.
Qed.

(** *** The effect of each operation on the queues *)

Lemma turn_effect_refl st : turn_effect None None st st.
Proof. by repeat split. Qed.

Lemma turn_effect_frame st st' :
  waiters st' = waiters st → lk_waiters st' = lk_waiters st →
  (length (futs st) ≤ length (futs st'))%nat →
  turn_effect None None st st'.
Proof. intros Hw Hl Hlen. split; [by intros []|]. by split. Qed.

Lemma turn_effect_trans old new st s1 st' :
  turn_effect old None st s1 → turn_effect None new s1 st' →
  turn_effect old new st st'.
Proof.
  intros (Hq1 & Hlen1 & _) (Hq2 & Hlen2 & Hfresh).
  split; [|split].
  - intros k. by rewrite Hq2, Hq1.
  - lia.
  - intros k g Hg. specialize (Hfresh k g Hg). lia.
Qed.

Lemma acquire_begin_effect t st st' r :
  acquire_begin t st = (st', r) →
  turn_effect None
    (match r with Suspended lfut => Some (false, lfut) | Finished _ => None end)
    st st'.
Proof.
  intros (Hw & _ & [(-> & _ & Hf & Hl & _)|(-> & Hf & Hl & _)])%acquire_begin_spec.
  - apply turn_effect_frame; [done|done|by rewrite Hf].
  - split; [|split].
    + by intros [].
    + rewrite Hf, length_app. lia.
    + intros k g [= <- <-]. rewrite Hf, length_app. simpl. lia.
Qed.

Lemma reacquire_effect t c b st st' r :
  reacquire t c b st = (st', r) → turn_effect None (costep_awaited r) st st'.
Proof.
  intros (Hw & _ & [(-> & _ & Hf & Hl)|(-> & Hf & Hl & _)])%reacquire_spec.
  - apply turn_effect_frame; [done|done|by rewrite Hf].
  - split; [|split].
    + by intros [].
    + rewrite Hf, length_app. lia.
    + intros k g [= <- <-]. rewrite Hf, length_app. simpl. lia.
Qed.

Lemma acquire_resume_lk t lfut w st ws :
  deque_remove lfut (lk_waiters st) = Some ws →
  lk_waiters (acquire_resume t lfut w st).1 = ws.
Proof.
  intros Hrm. unfold acquire_resume. rewrite Hrm.
  pose proof (_wake_up_first_frame (set_lk_waiters ws st)) as (_ & Hl & _).
  destruct (await_resume w lfut st) as [v|[]]; cbn [fst]; try done.
  by destruct (lk_locked (set_lk_waiters ws st)).
Qed.

Lemma acquire_resume_effect t lfut w st :
  NoDup (lk_waiters st) → lfut ∈ lk_waiters st →
  turn_effect (Some (false, lfut)) None st (acquire_resume t lfut w st).1.
Proof.
  intros Hnd Hin.
  destruct (deque_remove lfut (lk_waiters st)) as [ws|] eqn:Hrm;
    [|by apply deque_remove_None in Hrm].
  pose proof (acquire_resume_lk t lfut w st ws Hrm) as Hlk.
  destruct (deque_remove_NoDup _ _ _ Hnd Hrm) as (-> & _).
  destruct (acquire_resume t lfut w st) as [st' o] eqn:Hacq. cbn [fst] in *.
  apply acquire_resume_spec in Hacq as (Hw & _ & Hlen & _).
  split; [|split; [lia|done]]. by intros [].
Qed.

Lemma wait_begin_effect st st' o :
  wait_begin st = (st', o) →
  turn_effect None
    (match o with Returned pc => Some (pc_awaited pc) | Raised _ => None end)
    st st'.
Proof.
  intros [(_ & -> & ->)|(_ & -> & Hw & _ & Hlen & _ & _ & Hl & _)]%wait_begin_spec.
  - apply turn_effect_refl.
  - split; [|split].
    + by intros [].
    + lia.
    + intros k g [= <- <-]. lia.
Qed.

Lemma wait_resume_effect t pc w st st' r :
  (∀ k, NoDup (queue k st)) →
  (pc_awaited pc).2 ∈ queue (pc_awaited pc).1 st →
  wait_resume t pc w st = (st', r) →
  turn_effect (Some (pc_awaited pc)) (costep_awaited r) st st'.
Proof.
  intros Hnd Hin Hstep. destruct pc as [fut|lfut c b]; cbn in Hin.
  - cbn [wait_resume] in Hstep.
    destruct (deque_remove fut (waiters st)) as [ws|] eqn:Hrm;
      [|by apply deque_remove_None in Hrm].
    destruct (deque_remove_NoDup _ _ _ (Hnd true) Hrm) as (-> & _).
    eapply turn_effect_trans; [|by eapply reacquire_effect].
    split; [|by split]. by intros [].
  - cbn [wait_resume] in Hstep.
    pose proof (acquire_resume_effect t lfut w st (Hnd false) Hin) as Heff.
    destruct (acquire_resume t lfut w st) as [s1 o] eqn:Hacq. cbn [fst] in Heff.
    destruct o as [u|[]]; try (by injection Hstep as <- <-).
    eapply turn_effect_trans; [done|by eapply reacquire_effect].
Qed.

Lemma wait_for_begin_effect predicate st st' (r : costep wait_pc bool) :
  wait_for_begin predicate st = (st', r) →
  turn_effect None (costep_awaited r) st st'.
Proof.
  unfold wait_for_begin, wait_for_again. destruct (predicate st).
  { intros [= <- <-]. apply turn_effect_refl. }
  destruct (wait_begin st) as [s1 o] eqn:Hb.
  apply wait_begin_effect in Hb. by destruct o; intros [= <- <-].
Qed.

Lemma wait_for_resume_effect t predicate pc w st st' (r : costep wait_pc bool) :
  (∀ k, NoDup (queue k st)) →
  (pc_awaited pc).2 ∈ queue (pc_awaited pc).1 st →
  wait_for_resume t predicate pc w st = (st', r) →
  turn_effect (Some (pc_awaited pc)) (costep_awaited r) st st'.
Proof.
  intros Hnd Hin. unfold wait_for_resume.
  destruct (wait_resume t pc w st) as [s1 r1] eqn:Hw.
  apply wait_resume_effect in Hw; [|done|done].
  destruct r1 as [pc'|[v|e]]; try (by intros [= <- <-]).
  unfold wait_for_again. destruct (predicate s1); [by intros [= <- <-]|].
  destruct (wait_begin s1) as [s2 o] eqn:Hb.
  apply wait_begin_effect in Hb. intros Hr.
  eapply turn_effect_trans; [exact Hw|].
  by destruct o; injection Hr as <- <-.
Qed.

(** Every turn of a program keeps the queues and the task table in
    agreement. *)
Lemma sys_step_inv sys lbl sys' :
  sys_inv sys → sys_step sys lbl sys' → sys_inv sys'.
Proof.
  intros Hinv Hstep.
  assert (Hmine : ∀ st tk t ts, sys_inv (System st tk) → tk !! t = Some ts →
            (awaited ts).2 ∈ queue (awaited ts).1 st).
  { intros st tk t ts (_ & _ & Hbij & _) Ht. apply Hbij.
    exists t, ts. split; [done|]. by destruct (awaited ts). }
  destruct Hstep as [t st tk st' r Ht Hop|t lfut w st tk st' o Ht Hop|t st tk Ht|
    t st tk st' o Ht Hop|t pc w st tk st' r Ht Hop|t predicate st tk st' r Ht Hop|
    t predicate pc w st tk st' r Ht Hop|t value n st tk Ht|t value st tk Ht|
    t ts st tk Ht|t g st tk Ht].
  - apply (inv_transfer st); [done|]. rewrite Ht.
    apply acquire_begin_effect in Hop. by destruct r.
  - apply (inv_transfer st _ _ t None); [done|]. rewrite Ht. cbn.
    replace st' with (acquire_resume t lfut w st).1 by by rewrite Hop.
    apply acquire_resume_effect; [apply (proj1 Hinv false)|].
    apply (Hmine _ _ _ _ Hinv Ht).
  - unfold release. destruct (lk_locked st); [|done]. cbn [fst].
    destruct (_wake_up_first_frame (set_lock false None st)) as (_&Hl&Hw&_&_&Hlen).
    eapply inv_frame; [done|exact Hw|exact Hl|by rewrite Hlen].
  - apply (inv_transfer st); [done|]. rewrite Ht.
    apply wait_begin_effect in Hop. by destruct o.
  - apply (inv_transfer st); [done|]. rewrite Ht. cbn.
    apply wait_resume_effect in Hop;
      [|apply (proj1 Hinv)|apply (Hmine _ _ _ _ Hinv Ht)].
    by destruct r.
  - apply (inv_transfer st); [done|]. rewrite Ht.
    apply wait_for_begin_effect in Hop. by destruct r.
  - apply (inv_transfer st); [done|]. rewrite Ht. cbn.
    apply wait_for_resume_effect in Hop;
      [|apply (proj1 Hinv)|apply (Hmine _ _ _ _ Hinv Ht)].
    by destruct r.
  - destruct (notify_frame value n st) as (_&Hl&Hw&_&_&Hlen).
    eapply inv_frame; [done|exact Hw|exact Hl|lia].
  - unfold notify_all.
    destruct (notify_frame value (Z.of_nat (length (waiters st))) st)
      as (_&Hl&Hw&_&_&Hlen).
    eapply inv_frame; [done|exact Hw|exact Hl|lia].
  - unfold future_cancel. destruct (done st _); [done|]. cbn [fst].
    eapply inv_frame; [done|done|done|].
    cbn [set_futs futs]. by rewrite length_insert.
  - by eapply inv_frame.
Qed.

Lemma sys_reachable_inv sys : sys_reachable sys → sys_inv sys.
Proof.
  induction 1 as [g|sys lbl sys' _ IH Hstep]; [|by eapply sys_step_inv].
  assert (Hq : ∀ k, queue k (init (V:=V) g) = []) by by intros [].
  repeat split; cbn [store tasks].
  - intros k. rewrite Hq. apply NoDup_nil_2.
  - intros k f. rewrite Hq. by intros Hf%elem_of_nil.
  - rewrite Hq. by intros Hf%elem_of_nil.
  - intros (t & ts & Ht & _). by rewrite lookup_empty in Ht.
  - intros t1 t2 ts1 ts2 Ht. by rewrite lookup_empty in Ht.
Qed.

Lemma sys_exec_step sys lbl sys' :
  sys_exec lbl sys = Some sys' → sys_step sys lbl sys'.
Proof.
  destruct sys as [st tk]. unfold sys_exec. cbn [store tasks].
  destruct lbl as [t|t w|t|t|t w|t predicate|t w|t value n|t value|t|t g];
    destruct (tk !! t) as [[lfut|pc|predicate' pc]|] eqn:Ht; try done.
  - destruct (acquire_begin t st) as [st' r] eqn:Hop. intros [= <-].
    by apply step_acquire.
  - intros [= <-]. destruct (acquire_resume t lfut w st) as [st' o] eqn:Hop.
    by eapply step_acquire_resume.
  - intros [= <-]. by apply step_release.
  - destruct (wait_begin st) as [st' o] eqn:Hop. intros [= <-].
    by apply step_wait.
  - destruct (wait_resume t pc w st) as [st' r] eqn:Hop. intros [= <-].
    by eapply step_wait_resume.
  - destruct (wait_for_begin predicate st) as [st' r] eqn:Hop. intros [= <-].
    by apply step_wait_for.
  - destruct (wait_for_resume t predicate' pc w st) as [st' r] eqn:Hop.
    intros [= <-]. by eapply step_wait_for_resume.
  - intros [= <-]. by apply step_notify.
  - intros [= <-]. by apply step_notify_all.
  - intros [= <-]. by eapply (step_cancel t (InAcquire lfut)).
  - intros [= <-]. by eapply (step_cancel t (InWait pc)).
  - intros [= <-]. by eapply (step_cancel t (InWaitFor predicate' pc)).
  - intros [= <-]. by apply step_guarded.
Qed.

Lemma sys_run_reachable lbls sys sys' :
  sys_reachable sys → sys_run lbls sys = Some sys' → sys_reachable sys'.
Proof.
  revert sys. induction lbls as [|lbl lbls IH]; intros sys Hr; cbn [sys_run].
  - by intros [= <-].
  - destruct (sys_exec lbl sys) as [sys1|] eqn:Hex; [|done].
    apply IH. eapply sys_reachable_step; [done|]. by apply sys_exec_step.
Qed.

(** In every state a program can reach, the future a suspended task awaits
    is in its queue: the handle of a waiter in [Condition._waiters], the
    future of a task that wants the lock in [Lock._waiters]. *)
Lemma suspended_future_queued sys t ts :
  sys_reachable sys → tasks sys !! t = Some ts →
  (awaited ts).2 ∈ queue (awaited ts).1 (store sys).
Proof.
  intros (_ & _ & Hbij & _)%sys_reachable_inv Ht. apply Hbij.
  exists t, ts. split; [done|]. by destruct (awaited ts).
Qed.

(** What one turn does to the queue of the condition: it appends to it
    (possibly nothing), or it is the resumption of a waiter, which removes
    that waiter's handle. *)
Lemma sys_step_waiters sys lbl sys' :
  sys_inv sys → sys_step sys lbl sys' →
  (∃ l, waiters (store sys') = waiters (store sys) ++ l) ∨
  (∃ t w ts fut l, resumes lbl t w ∧ tasks sys !! t = Some ts ∧
     awaited ts = (true, fut) ∧
     waiters (store sys') =
       filter (λ g, g ≠ fut) (waiters (store sys)) ++ l ∧
     (lbl = LWaitResume t w ∨ w = Throw →
      l = [] ∧ ∀ g, (g < length (futs (store sys)))%nat →
                 futs (store sys') !! g = futs (store sys) !! g)).
Proof.
  intros Hinv Hstep.
  assert (Hsame : ∀ st st', waiters st' = waiters st →
            ∃ l, waiters st' = waiters st ++ l).
  { intros st st' ->. exists []. by rewrite app_nil_r. }
  assert (Hmine : ∀ st tk t ts, sys_inv (System st tk) → tk !! t = Some ts →
            (awaited ts).2 ∈ queue (awaited ts).1 st).
  { intros st tk t ts (_ & _ & Hbij & _) Ht. apply Hbij.
    exists t, ts. split; [done|]. by destruct (awaited ts). }
  destruct Hstep as [t st tk st' r Ht Hop|t lfut w st tk st' o Ht Hop|t st tk Ht|
    t st tk st' o Ht Hop|t pc w st tk st' r Ht Hop|t predicate st tk st' r Ht Hop|
    t predicate pc w st tk st' r Ht Hop|t value n st tk Ht|t value st tk Ht|
    t ts st tk Ht|t g st tk Ht]; cbn [store tasks].
  - left. apply Hsame. by apply acquire_begin_spec in Hop as (? & _).
  - left. apply Hsame. by apply acquire_resume_spec in Hop as (? & _).
  - left. apply Hsame. unfold release. destruct (lk_locked st); [|done].
    by destruct (_wake_up_first_frame (set_lock false None st)) as (_&_&?&_).
  - left. apply wait_begin_spec in Hop as [(_ & -> & _)|(_ & _ & -> & _)];
      [by apply Hsame|by eexists].
  - destruct pc as [fut|lfut c b].
    + right. exists t, w, (InWait (AtFut fut)), fut, [].
      pose proof (Hmine _ _ _ _ Hinv Ht) as Hin. cbn in Hin.
      destruct (wait_resume_removes_handle t fut w st (proj1 Hinv true) Hin)
        as (Hw & _ & _ & _ & Hf & _).
      rewrite Hop in Hw, Hf. cbn [fst] in Hw, Hf.
      split; [by left|]. split; [done|]. split; [done|].
      split; [by rewrite app_nil_r|]. done.
    + left. apply Hsame. by apply wait_resume_AtAcquire_spec in Hop as (? & _).
  - left. unfold wait_for_begin, wait_for_again in Hop.
    destruct (predicate st); [injection Hop as <- _; by apply Hsame|].
    destruct (wait_begin st) as [s1 o] eqn:Hb.
    assert (st' = s1) as -> by (by destruct o; injection Hop as <- _).
    apply wait_begin_spec in Hb as [(_ & -> & _)|(_ & _ & -> & _)];
      [by apply Hsame|by eexists].
  - unfold wait_for_resume in Hop.
    destruct (wait_resume t pc w st) as [s1 r1] eqn:Hw.
    assert (Htail : ∃ l, waiters st' = waiters s1 ++ l ∧
              ((∀ v, r1 ≠ Finished (Returned v)) → st' = s1)).
    { destruct r1 as [pc'|[v|e]].
      - injection Hop as <- _. exists []. by rewrite app_nil_r.
      - unfold wait_for_again in Hop. destruct (predicate s1).
        + injection Hop as <- _. exists []. by rewrite app_nil_r.
        + destruct (wait_begin s1) as [s2 o] eqn:Hb.
          assert (st' = s2) as -> by (by destruct o; injection Hop as <- _).
          apply wait_begin_spec in Hb as [(_ & -> & _)|(_ & _ & -> & _)].
          * exists []. rewrite app_nil_r. split; [done|]. done.
          * eexists. split; [done|]. intros Hne. by destruct (Hne v).
      - injection Hop as <- _. exists []. by rewrite app_nil_r. }
    destruct Htail as (l & Hl & Hthrow).
    destruct pc as [fut|lfut c b].
    + right. exists t, w, (InWaitFor predicate (AtFut fut)), fut, l.
      pose proof (Hmine _ _ _ _ Hinv Ht) as Hin. cbn in Hin.
      destruct (wait_resume_removes_handle t fut w st (proj1 Hinv true) Hin)
        as (Hws & _ & _ & _ & Hf & _).
      rewrite Hw in Hws, Hf. cbn [fst] in Hws, Hf.
      split; [by right|]. split; [done|]. split; [done|].
      split; [by rewrite Hl, Hws|].
      intros [[=]| ->].
      assert (st' = s1) as ->.
      { apply Hthrow. intros v ->.
        destruct (wait_resume_doomed_finished _ _ _ _ _ _ Hw) as [e [=]].
        by right. }
      split; [|done]. apply (app_inv_head (waiters s1)). by rewrite app_nil_r.
    + left. apply wait_resume_AtAcquire_spec in Hw as (Hws & _).
      exists l. by rewrite Hl, Hws.
  - left. apply Hsame. by destruct (notify_frame value n st) as (_&_&?&_).
  - left. apply Hsame. unfold notify_all.
    by destruct (notify_frame value (Z.of_nat (length (waiters st))) st)
      as (_&_&?&_).
  - left. apply Hsame. unfold future_cancel. by destruct (done st _).
  - left. by apply Hsame.
Qed.

(** One turn as an effect on the queues: what the acting task awaited
    leaves its queue, what it awaits afterwards joins at the end and is a
    future made in this turn. *)
Lemma sys_step_effect sys lbl sys' :
  sys_inv sys → sys_step sys lbl sys' →
  ∃ old new, turn_effect old new (store sys) (store sys') ∧
    ∀ t w ts, resumes lbl t w → tasks sys !! t = Some ts →
      old = Some (awaited ts).
Proof.
  intros Hinv Hstep.
  assert (Hmine : ∀ st tk t ts, sys_inv (System st tk) → tk !! t = Some ts →
            (awaited ts).2 ∈ queue (awaited ts).1 st).
  { intros st tk t ts (_ & _ & Hbij & _) Ht. apply Hbij.
    exists t, ts. split; [done|]. by destruct (awaited ts). }
  destruct Hstep as [t st tk st' r Ht Hop|t lfut w st tk st' o Ht Hop|t st tk Ht|
    t st tk st' o Ht Hop|t pc w st tk st' r Ht Hop|t predicate st tk st' r Ht Hop|
    t predicate pc w st tk st' r Ht Hop|t value n st tk Ht|t value st tk Ht|
    t ts st tk Ht|t g st tk Ht]; cbn [store tasks].
  - eexists None, _. split; [by eapply acquire_begin_effect|].
    by intros ? ? ? [[=]|[=]].
  - exists (Some (false, lfut)), None. split; [|by intros ? ? ? [[=]|[=]]].
    replace st' with (acquire_resume t lfut w st).1 by by rewrite Hop.
    apply acquire_resume_effect; [apply (proj1 Hinv false)|].
    apply (Hmine _ _ _ _ Hinv Ht).
  - exists None, None. split; [|by intros ? ? ? [[=]|[=]]].
    unfold release. destruct (lk_locked st); [|apply turn_effect_refl].
    cbn [fst].
    destruct (_wake_up_first_frame (set_lock false None st))
      as (_&Hl&Hw&_&_&Hlen).
    apply turn_effect_frame; [exact Hw|exact Hl|by rewrite Hlen].
  - eexists None, _. split; [by eapply wait_begin_effect|].
    by intros ? ? ? [[=]|[=]].
  - eexists (Some (pc_awaited pc)), _. split.
    + eapply wait_resume_effect;
        [apply (proj1 Hinv)|apply (Hmine _ _ _ _ Hinv Ht)|done].
    + intros t' w' ts [[= <- <-]|[=]] Hts. rewrite Ht in Hts.
      by injection Hts as <-.
  - eexists None, _. split; [by eapply wait_for_begin_effect|].
    by intros ? ? ? [[=]|[=]].
  - eexists (Some (pc_awaited pc)), _. split.
    + eapply wait_for_resume_effect;
        [apply (proj1 Hinv)|apply (Hmine _ _ _ _ Hinv Ht)|done].
    + intros t' w' ts [[=]|[= <- <-]] Hts. rewrite Ht in Hts.
      by injection Hts as <-.
  - exists None, None. split; [|by intros ? ? ? [[=]|[=]]].
    destruct (notify_frame value n st) as (_&Hl&Hw&_&_&Hlen).
    apply turn_effect_frame; [exact Hw|exact Hl|lia].
  - exists None, None. split; [|by intros ? ? ? [[=]|[=]]].
    unfold notify_all.
    destruct (notify_frame value (Z.of_nat (length (waiters st))) st)
      as (_&Hl&Hw&_&_&Hlen).
    apply turn_effect_frame; [exact Hw|exact Hl|lia].
  - exists None, None. split; [|by intros ? ? ? [[=]|[=]]].
    unfold future_cancel. destruct (done st _); [apply turn_effect_refl|].
    cbn [fst]. apply turn_effect_frame; [done|done|].
    cbn [set_futs futs]. by rewrite length_insert.
  - exists None, None. split; [|by intros ? ? ? [[=]|[=]]].
    by apply turn_effect_frame.
Qed.

(** C8. In every state a program can reach, a queued handle is queued
    once and belongs to exactly one task, the one suspended in the [wait]
    that made it. A turn of the program either leaves the handle queued,
    or it is the resumption of that very [wait] (by the value or by a
    cancellation), which takes the handle out and leaves the other handles
    queued in their order; no other turn removes it, [notify] and
    [notify_all] leave the queue as it is. When the resumed call is a plain
    [wait], or the resumption is a cancellation, nothing is added either:
    the queue is shorter by exactly one and the futures that existed keep
    their states. And the resumption of that [wait] does remove the handle:
    after the turn in which its task is resumed, by a send or by a throw,
    the handle is not in the queue and every other handle that was queued
    still is. Once out, a handle stays out: no turn puts a future that
    exists and is not queued into the queue. *)
Theorem handle_removed_once sys lbl sys' fut :
  sys_reachable sys → sys_step sys lbl sys' → fut ∈ waiters (store sys) →
  NoDup (waiters (store sys)) ∧
  (∃ t ts, tasks sys !! t = Some ts ∧ awaited ts = (true, fut) ∧
     ∀ t' ts', tasks sys !! t' = Some ts' → (awaited ts').2 = fut → t' = t) ∧
  (fut ∈ waiters (store sys') ∨
   ∃ t w ts l, resumes lbl t w ∧ tasks sys !! t = Some ts ∧
     awaited ts = (true, fut) ∧ (fut ∉ filter (λ g, g ≠ fut) (waiters (store sys)) ++ l) ∧
     waiters (store sys') =
       filter (λ g, g ≠ fut) (waiters (store sys)) ++ l ∧
     (lbl = LWaitResume t w ∨ w = Throw →
      l = [] ∧
      (length (waiters (store sys')) + 1 = length (waiters (store sys)))%nat ∧
      ∀ g, (g < length (futs (store sys)))%nat →
        futs (store sys') !! g = futs (store sys) !! g)) ∧
  (∀ t value n, lbl = LNotify t value n ∨ lbl = LNotifyAll t value →
     waiters (store sys') = waiters (store sys)) ∧
  (∀ t w ts, resumes lbl t w → tasks sys !! t = Some ts →
     awaited ts = (true, fut) →
     (fut ∉ waiters (store sys')) ∧
     (∀ g, g ≠ fut → g ∈ waiters (store sys) → g ∈ waiters (store sys')) ∧
     (lbl = LWaitResume t w ∨ w = Throw →
      waiters (store sys') = filter (λ g, g ≠ fut) (waiters (store sys)) ∧
      (length (waiters (store sys')) + 1 =
         length (waiters (store sys)))%nat)) ∧
  (∀ g, (g < length (futs (store sys)))%nat → g ∉ waiters (store sys) →
     g ∉ waiters (store sys')).
Proof.
  intros Hreach Hstep Hin.
  pose proof (sys_reachable_inv _ Hreach) as Hinv.
  pose proof Hinv as (Hnd & Hrange & Hbij & Huniq).
  destruct (sys_step_effect _ _ _ Hinv Hstep)
    as (old & new & (Hq & _ & Hfresh) & Hold).
  specialize (Hq true). cbn [queue] in Hq.
  assert (Hout : ∀ t w ts, resumes lbl t w → tasks sys !! t = Some ts →
            awaited ts = (true, fut) →
            (fut ∉ waiters (store sys')) ∧
            ∀ g, g ≠ fut → g ∈ waiters (store sys) →
                 g ∈ waiters (store sys')).
  { intros t w ts Hres Ht Haw.
    rewrite (Hold _ _ _ Hres Ht), Haw in Hq. rewrite Hq. split.
    - rewrite elem_of_enq, elem_of_deq. intros [[_ Hne]|Hnew]; [done|].
      specialize (Hfresh _ _ Hnew). specialize (Hrange true fut Hin).
      cbn [queue] in Hrange. lia.
    - intros g Hne Hg. rewrite elem_of_enq, elem_of_deq. left.
      split; [done|]. congruence. }
  assert (Hthird :
    fut ∈ waiters (store sys') ∨
    ∃ t w ts l, resumes lbl t w ∧ tasks sys !! t = Some ts ∧
      awaited ts = (true, fut) ∧
      (fut ∉ filter (λ g, g ≠ fut) (waiters (store sys)) ++ l) ∧
      waiters (store sys') =
        filter (λ g, g ≠ fut) (waiters (store sys)) ++ l ∧
      (lbl = LWaitResume t w ∨ w = Throw →
       l = [] ∧
       (length (waiters (store sys')) + 1 = length (waiters (store sys)))%nat ∧
       ∀ g, (g < length (futs (store sys)))%nat →
         futs (store sys') !! g = futs (store sys) !! g)).
  { destruct (sys_step_waiters _ _ _ Hinv Hstep)
      as [[l Hl]|(t & w & ts & fut' & l & Hres & Ht & Haw & Hw & Hplain)].
    + left. rewrite Hl. apply elem_of_app. by left.
    + destruct (decide (fut' = fut)) as [->|Hne].
      * destruct (decide (fut ∈ waiters (store sys'))) as [?|Hgone]; [by left|].
        right. exists t, w, ts, l.
        split; [done|]. split; [done|]. split; [done|].
        split; [by rewrite <- Hw|]. split; [done|].
        intros Hp. destruct (Hplain Hp) as [-> Hf].
        split; [done|]. split; [|done].
        rewrite Hw, app_nil_r.
        destruct (deque_remove fut (waiters (store sys))) as [ws|] eqn:Hrm;
          [|by apply deque_remove_None in Hrm].
        destruct (deque_remove_NoDup _ _ _ (Hnd true) Hrm) as (Hws & _ & _ & Hlen).
        cbn [queue] in Hws. by rewrite <- Hws.
      * left. rewrite Hw. apply elem_of_app. left.
        apply list_elem_of_filter. split; [congruence|done]. }
  split; [apply (Hnd true)|].
  split; [|split; [exact Hthird|split; [|split]]].
  - apply (Hbij true) in Hin as (t & ts & Ht & Haw).
    exists t, ts. split; [done|]. split; [done|].
    intros t' ts' Ht' Haw'. apply (Huniq t' t ts' ts); [done|done|].
    by rewrite Haw, Haw'.
  - intros t value n Hl. inversion Hstep; subst; cbn [store];
      destruct Hl as [?|?]; try done.
    + by destruct (notify_frame value0 n0 st) as (_&_&?&_).
    + unfold notify_all.
      by destruct (notify_frame value0 (Z.of_nat (length (waiters st))) st)
        as (_&_&?&_).
  - intros t w ts Hres Ht Haw.
    destruct (Hout _ _ _ Hres Ht Haw) as [Hnot Hothers].
    split; [done|]. split; [done|]. intros Hp.
    destruct Hthird
      as [?|(t0 & w0 & ts0 & l & Hres0 & _ & _ & _ & Hw0 & Hplain0)]; [done|].
    assert (t0 = t ∧ w0 = w) as [-> ->].
    { destruct Hres as [->| ->], Hres0 as [[=]|[=]]; by subst. }
    destruct (Hplain0 Hp) as (-> & Hlen & _).
    by rewrite app_nil_r in Hw0.
  - intros g Hg Hnin. rewrite Hq, elem_of_enq, elem_of_deq.
    intros [[? _]|Hnew]; [done|]. specialize (Hfresh _ _ Hnew). lia.
Qed.

(** ** Stores a program can reach *)

Lemma deque_remove_queue_inv x d r (n : nat) :
  deque_remove x d = Some r → NoDup d → (∀ f, f ∈ d → (f < n)%nat) →
  NoDup r ∧ ∀ f, f ∈ r → (f < n)%nat.
Proof.
  intros Hrm Hnd Hrange. split.
  - by destruct (deque_remove_NoDup _ _ _ Hnd Hrm) as (_ & ? & _).
  - intros f Hf. apply Hrange. by eapply deque_remove_elem_of.
Qed.

Lemma queue_ok_frame st st' :
  waiters st' = waiters st → (length (futs st) ≤ length (futs st'))%nat →
  queue_ok st → queue_ok st'.
Proof.
  intros Hw Hlen [Hnd Hrange]. split; rewrite Hw; [done|].
  intros f Hf. specialize (Hrange f Hf). lia.
Qed.

Lemma wait_resume_queue_ok t pc w st :
  queue_ok st → queue_ok (wait_resume t pc w st).1.
Proof.
  intros Hok. destruct (wait_resume t pc w st) as [st' r] eqn:Hstep. cbn [fst].
  destruct pc as [fut|lf c b].
  - apply wait_resume_AtFut_spec in Hstep as (body & Hb & _ & Hcases).
    assert (Hlen : (length (futs st) ≤ length (futs st'))%nat).
    { destruct Hcases as [(_ & _ & ->)|(_ & -> & _)]; [done|].
      rewrite length_app. lia. }
    destruct (deque_remove fut (waiters st)) as [ws|] eqn:Hrm.
    + destruct Hb as [Hw _]. destruct Hok as [Hnd Hrange].
      destruct (deque_remove_queue_inv _ _ _ _ Hrm Hnd Hrange) as [Hnd' Hrange'].
      split; rewrite Hw; [done|]. intros f Hf. specialize (Hrange' f Hf). lia.
    + destruct Hb as [Hw _]. by eapply queue_ok_frame.
  - cbn [wait_resume] in Hstep.
    destruct (acquire_resume t lf w st) as [s1 o] eqn:Hacq.
    apply acquire_resume_spec in Hacq as (Hw & _ & Hlen & _).
    assert (Hok1 : queue_ok s1) by (eapply queue_ok_frame; [done|lia|done]).
    destruct o as [u|[]]; try (by injection Hstep as <- _).
    apply reacquire_spec in Hstep as (Hw' & _ & Hcases).
    eapply queue_ok_frame; [done| |done].
    destruct Hcases as [(_ & _ & -> & _)|(_ & -> & _)]; [done|].
    rewrite length_app. lia.
Qed.

(** In every reachable store the queue is well formed. *)
Lemma reachable_queue_ok st : reachable st → queue_ok st.
Proof.
  induction 1 as [g|st st' _ IH Hstep].
  { split; [apply NoDup_nil_2|]. intros f Hf. by apply elem_of_nil in Hf. }
  destruct Hstep as [t st|t fut w st|st|st|t pc w st|value n st|value st|fut st|g st].
  - destruct (acquire_begin t st) as [st' r] eqn:Hs. cbn [fst].
    apply acquire_begin_spec in Hs as (Hw & _ & Hcases).
    eapply queue_ok_frame; [done| |done].
    destruct Hcases as [(_ & _ & -> & _)|(_ & -> & _)]; [done|].
    rewrite length_app. lia.
  - destruct (acquire_resume t fut w st) as [st' o] eqn:Hs. cbn [fst].
    apply acquire_resume_spec in Hs as (Hw & _ & Hlen & _).
    eapply queue_ok_frame; [done|lia|done].
  - unfold release. destruct (lk_locked st); [|done]. cbn [fst].
    destruct (_wake_up_first_frame (set_lock false None st)) as (_&_&Hw&_&_&Hlen).
    eapply queue_ok_frame; [exact Hw|by rewrite Hlen|done].
  - destruct (wait_begin st) as [st' o] eqn:Hs. cbn [fst].
    apply wait_begin_spec in Hs as [(_ & -> & _)|(_ & _ & Hw & _ & Hlen & _)];
      [done|].
    destruct IH as [Hnd Hrange]. split; rewrite Hw.
    + apply NoDup_app. split; [done|]. split; [|apply NoDup_singleton].
      intros f Hf ->%list_elem_of_singleton. specialize (Hrange _ Hf). lia.
    + intros f [Hf| ->%list_elem_of_singleton]%elem_of_app.
      * specialize (Hrange f Hf). lia.
      * lia.
  - by apply wait_resume_queue_ok.
  - destruct (notify_frame value n st) as (_&_&Hw&_&_&Hlen).
    eapply queue_ok_frame; [exact Hw|lia|done].
  - unfold notify_all.
    destruct (notify_frame value (Z.of_nat (length (waiters st))) st)
      as (_&_&Hw&_&_&Hlen).
    eapply queue_ok_frame; [exact Hw|lia|done].
  - unfold future_cancel. destruct (done st fut); [done|]. cbn [fst].
    eapply queue_ok_frame; [|  |exact IH]; [done|].
    cbn [set_futs futs]. by rewrite length_insert.
  - by eapply queue_ok_frame.
Qed.

End Properties.

(** * The scenarios of the specification, run *)

Ltac by_decision := apply (bool_decide_unpack _); vm_compute; exact I.

(** [wait()] on a condition that was never acquired raises at once, and
    [locked()] is false before and after. *)
Example wait_without_acquire :
  locked fresh = false ∧
  wait_begin fresh = (fresh, Raised RuntimeError) ∧
  locked (wait_begin fresh).1 = false.
Proof. by vm_compute. Qed.

(** Three waiters W1, W2, W3 (handles 0, 1, 2): [notify("x", 2)] fulfils
    W1 and W2 and leaves W3 pending. *)
Example notify_two_of_three :
  futs (notify (PyStr "x") 2 three_locked).1 =
    [Result (PyStr "x"); Result (PyStr "x"); Pending] ∧
  waiters (notify (PyStr "x") 2 three_locked).1 = [0; 1; 2]%nat.
Proof. by vm_compute. Qed.

(** ... W1 and W2 then resume, each getting ["x"] and removing its own
    handle; a later [notify_all("y")] fulfils W3 alone, which gets ["y"]. *)
Example notify_all_after_drain :
  w1_resumed.2 = Finished (Returned (PyStr "x")) ∧
  w2_resumed.2 = Finished (Returned (PyStr "x")) ∧
  waiters after_y = [2%nat] ∧
  futs after_y = [Result (PyStr "x"); Result (PyStr "x"); Result (PyStr "y")] ∧
  wait_resume 3 (AtFut 2) Send (release after_y).1 =
    (State [Result (PyStr "x"); Result (PyStr "x"); Result (PyStr "y")]
       true [] [] [] (Some 3%nat),
     Finished (Returned (PyStr "y"))).
Proof. by vm_compute. Qed.

(** Task 1 suspends in [wait_for]; after task 2 has appended and notified,
    task 1 resumes, sees [L = [1]], and [wait_for] returns [True]. *)
Example wait_for_scenario :
  task1_waiting.2 = Suspended (AtFut 0) ∧
  wait_for_resume 1 nonempty (AtFut 0) Send task2_done =
    (State [Result (PyInt 1)] true [] [] [1] (Some 1%nat),
     Finished (Returned true)).
Proof. by vm_compute. Qed.

(** * The theorems at concrete stores *)

(** Task 1 is woken with its value while task 0 has the lock, is cancelled
    while queueing for the lock, queues again, and gets the lock when task
    0 releases: the call ends with the cancellation error, holding the
    lock. *)
Lemma wait_returns_holding_witness :
  wait_run 1 (AtFut 0) one_notified [Send; Throw; Send]
    (wait_resume 1 (AtAcquire 2 true (Returned (PyInt 1))) Send
       one_retrying_released).1 (Raised CancelledError) ∧
  holds 1 (wait_resume 1 (AtAcquire 2 true (Returned (PyInt 1))) Send
             one_retrying_released).1.
Proof.
  assert (wait_run 1 (AtFut 0) one_notified [Send; Throw; Send]
    (wait_resume 1 (AtAcquire 2 true (Returned (PyInt 1))) Send
       one_retrying_released).1 (Raised CancelledError)) as Hrun.
  { apply (run_suspended _ (AtFut 0) Send one_notified one_requeued
             (AtAcquire 1 false (Returned (PyInt 1))) one_requeued_cancelled);
      [by vm_compute|].
    apply (run_suspended _ (AtAcquire 1 false (Returned (PyInt 1))) Throw
             one_requeued_cancelled one_retrying
             (AtAcquire 2 true (Returned (PyInt 1))) one_retrying_released);
      [by vm_compute|].
    apply run_finished. by vm_compute. }
  split; [exact Hrun|].
  by apply (wait_returns_holding 1 _ _ _ _ _ Hrun).
Defined.

Lemma notify_fulfills_min_witness :
  1 ≤ 2 ∧ holds 0 three_locked ∧ NoDup (waiters three_locked) ∧
  ∃ st', notify (PyStr "x") 2 three_locked = (st', Returned tt) ∧
         fulfilled three_locked st' = take 2 (pending three_locked) ∧
         Z.of_nat (length (fulfilled three_locked st')) = 2.
Proof.
  assert (holds 0 three_locked) as Hh by by vm_compute.
  assert (NoDup (waiters three_locked)) as Hnd by by_decision.
  split; [lia|]. split; [done|]. split; [done|].
  destruct (notify_fulfills_min 0 (PyStr "x") 2 three_locked ltac:(lia) Hh Hnd)
    as (st' & Hn & Hf & Hlen & _).
  exists st'. split; [done|]. split; [done|]. rewrite Hlen. by vm_compute.
Defined.

Lemma notify_nonpositive_noop_witness :
  -3 ≤ 0 ∧ holds 0 three_locked ∧
  notify (PyStr "x") (-3) three_locked = (three_locked, Returned tt).
Proof.
  assert (holds 0 three_locked) as Hh by by vm_compute.
  split; [lia|]. split; [done|].
  by apply (notify_nonpositive_noop 0 (PyStr "x") (-3) three_locked ltac:(lia) Hh).
Defined.

(** C4 as stated fails: with three pending waiters queued as 0, 1, 2, take
    [A = 1] and [B = 2]. [A] is queued before [B] and is pending, yet
    [notify("x", 1)] does not fulfil [A] (it fulfils 0). *)
Lemma notify_one_skips_second_waiter :
  holds 0 three_locked ∧
  waiters three_locked !! 1%nat = Some 1%nat ∧
  waiters three_locked !! 2%nat = Some 2%nat ∧
  done three_locked 1 = false ∧
  futs (notify (PyStr "x") 1 three_locked).1 !! 1%nat = Some Pending ∧
  futs (notify (PyStr "x") 1 three_locked).1 !! 0%nat = Some (Result (PyStr "x")).
Proof. by vm_compute. Qed.

Lemma notify_one_fifo_witness :
  holds 0 three_locked ∧ NoDup (waiters three_locked) ∧
  waiters three_locked !! 0%nat = Some 0%nat ∧
  waiters three_locked !! 1%nat = Some 1%nat ∧ (0 < 1)%nat ∧
  done three_locked 0 = false ∧
  futs (notify (PyStr "x") 1 three_locked).1 !! 1%nat =
    futs three_locked !! 1%nat ∧
  futs (notify (PyStr "x") 1 three_locked).1 !! 0%nat =
    Some (Result (PyStr "x")).
Proof.
  assert (holds 0 three_locked) as Hh by by vm_compute.
  assert (NoDup (waiters three_locked)) as Hnd by by_decision.
  split; [done|]. split; [done|]. split; [done|]. split; [done|].
  split; [lia|]. split; [done|].
  destruct (notify_one_fifo 0 (PyStr "x") three_locked 0 1 0%nat 1%nat Hh Hnd
              eq_refl eq_refl ltac:(lia) eq_refl) as (HB & _ & HA).
  split; [exact HB|].
  apply HA. intros k C Hk. lia.
Defined.

(** C5 as stated fails: task 0 holds the lock of [three_locked]; task 9
    does not, yet its [notify] is carried out, and its [wait] releases the
    lock of task 0 and queues a handle. *)
Lemma calls_by_non_holder_succeed :
  ¬ holds 9 three_locked ∧
  notify (PyStr "x") 1 three_locked =
    (State [Result (PyStr "x"); Pending; Pending] true [] [0; 1; 2]%nat []
       (Some 0%nat), Returned tt) ∧
  notify_all (PyStr "x") three_locked =
    (State [Result (PyStr "x"); Result (PyStr "x"); Result (PyStr "x")] true []
       [0; 1; 2]%nat [] (Some 0%nat), Returned tt) ∧
  wait_begin three_locked =
    (State [Pending; Pending; Pending; Pending] false [] [0; 1; 2; 3]%nat []
       None, Returned (AtFut 3)).
Proof.
  split; [|by vm_compute]. intros [_ Hh]. vm_compute in Hh. congruence.
Qed.

Lemma unlocked_calls_fail_witness :
  locked three_waiting = false ∧
  wait_begin three_waiting = (three_waiting, Raised RuntimeError) ∧
  notify (PyStr "x") 1 three_waiting = (three_waiting, Raised RuntimeError) ∧
  notify_all (PyStr "x") three_waiting = (three_waiting, Raised RuntimeError).
Proof.
  assert (locked three_waiting = false) as Hl by by vm_compute.
  destruct (unlocked_calls_fail three_waiting Hl) as (Hw & Hn & Hna).
  split; [done|]. split; [exact Hw|]. split; [apply Hn|apply Hna].
Defined.

(** C6 as stated fails: on a condition nobody has acquired, [wait_for]
    with a predicate that is true returns [True] and raises nothing. *)
Lemma wait_for_true_needs_no_lock :
  ¬ holds 1 fresh ∧ locked fresh = false ∧
  wait_for_begin (λ _, true) fresh = (fresh, Finished (Returned true)).
Proof.
  split; [|by vm_compute]. intros [Hl _]. vm_compute in Hl. congruence.
Qed.

Lemma wait_for_unlocked_fails_witness :
  locked fresh = false ∧ nonempty fresh = false ∧
  wait_for_begin nonempty fresh = (fresh, Finished (Raised RuntimeError)).
Proof.
  split; [by vm_compute|]. split; [by vm_compute|].
  by apply (wait_for_unlocked_fails nonempty fresh).
Defined.

Lemma wait_for_returns_true_witness :
  holds 1 (acquire_begin 1 fresh).1 ∧
  wait_for_begin nonempty (acquire_begin 1 fresh).1 =
    (enter_wait 1 fresh, Suspended (AtFut 0)) ∧
  ∀ pc s ws s' b, wait_for_run 1 nonempty pc s ws s' (Returned b) →
    b = true ∧ nonempty s' = true ∧ holds 1 s'.
Proof.
  assert (holds 1 (acquire_begin 1 fresh).1) as Hh by by vm_compute.
  destruct (wait_for_returns_true 1 nonempty _ Hh) as (_ & _ & _ & Hrun).
  split; [done|]. split; [by vm_compute|]. exact Hrun.
Defined.


(** Cancelling the second of three queued waits: the queue goes from
    [0; 1; 2] to [0; 2], the handle 1 having belonged to task 2. *)
Lemma handle_removed_once_witness :
  sys_reachable second_cancelled ∧
  sys_step second_cancelled (LWaitResume 2 Throw) second_resumed ∧
  1%nat ∈ waiters (store second_cancelled) ∧
  NoDup (waiters (store second_cancelled)) ∧
  (∃ t ts, tasks second_cancelled !! t = Some ts ∧ awaited ts = (true, 1%nat) ∧
     ∀ t' ts', tasks second_cancelled !! t' = Some ts' →
               (awaited ts').2 = 1%nat → t' = t) ∧
  tasks second_cancelled !! 2%nat = Some (InWait (AtFut 1)) ∧
  waiters (store second_cancelled) = [0; 1; 2]%nat ∧
  waiters (store second_resumed) = [0; 2]%nat.
Proof.
  assert (sys_reachable second_cancelled) as Hreach.
  { apply (sys_run_reachable (three_waiters ++ [LCancel 2]) new_program);
      [apply sys_reachable_init|by vm_compute]. }
  assert (sys_step second_cancelled (LWaitResume 2 Throw) second_resumed)
    as Hstep by (apply sys_exec_step; by vm_compute).
  assert (1%nat ∈ waiters (store second_cancelled)) as Hin by by_decision.
  destruct (handle_removed_once _ _ _ _ Hreach Hstep Hin)
    as (Hnd & Hown & _ & _ & Hrem & _).
  destruct (Hrem 2%nat Throw (InWait (AtFut 1))) as (_ & _ & Hplain);
    [by left|by vm_compute|done|].
  destruct (Hplain (or_introl eq_refl)) as [Hw _].
  split; [done|]. split; [done|]. split; [done|]. split; [done|].
  split; [exact Hown|]. split; [by vm_compute|]. split; [by vm_compute|].
  rewrite Hw. by vm_compute.
Defined.

(** * Further properties of the condition *)

Section MoreProperties.

Context {V G : Type} `{!PyValues V}.
Implicit Types st s : @state V G.
Implicit Types value v : V.

(** ** notify after notify *)

Lemma filter_not_take_NoDup (l : list nat) k :
  NoDup l → filter (λ x, x ∉ take k l) l = drop k l.
Proof.
  revert k. induction l as [|x l IH]; intros k Hnd; [by rewrite drop_nil|].
  apply NoDup_cons in Hnd as [Hnin Hnd].
  destruct k as [|k]; cbn [take drop].
  - rewrite filter_cons_True by apply not_elem_of_nil. f_equal.
    clear. induction l as [|y l IHl]; [done|].
    by rewrite filter_cons_True, IHl by apply not_elem_of_nil.
  - rewrite filter_cons_False
      by (intros Hn; apply Hn, elem_of_cons; by left).
    rewrite <- (IH k) by done.
    apply filter_ext_elem. intros y Hy. rewrite not_elem_of_cons.
    split; [tauto|]. intros ?. split; [|done]. by intros ->.
Qed.

Lemma pending_notify value n st :
  locked st = true → NoDup (waiters st) →
  pending (notify value n st).1 = drop (Z.to_nat n) (pending st).
Proof.
  intros Hl Hnd.
  destruct (notify_frame value n st) as (_ & _ & Hw & _).
  unfold pending at 1. rewrite Hw.
  transitivity (filter (λ f, f ∉ take (Z.to_nat n) (pending st))
                  (filter (λ f, done st f = false) (waiters st))).
  - rewrite list_filter_filter.
    apply filter_ext_elem. intros f Hf.
    rewrite !done_false_lookup, notify_futs by done.
    destruct (decide (f ∈ take _ _)) as [Hin|Hnin].
    + split; [done|]. tauto.
    + split; [done|]. tauto.
  - apply (filter_not_take_NoDup (pending st)). by apply NoDup_filter.
Qed.

Lemma notify_locked_ok value n st :
  locked st = true → notify value n st = ((notify value n st).1, Returned tt).
Proof. intros Hl. unfold notify. by rewrite Hl. Qed.

(** X1. Two notifies in a row, by a holder of the lock, serve the queue in
    order: the first [n] pending handles get the first value, the [m]
    pending handles after them get the second, every other future is left
    as it was, and the handles still pending are the rest of the old
    pending list. With one and the same value, the two calls are
    [notify value (n + m)]. *)
Theorem notify_then_notify (t : tid) v1 v2 n m st :
  holds t st → NoDup (waiters st) → 0 ≤ n → 0 ≤ m →
  let st1 := (notify v1 n st).1 in
  let st2 := (notify v2 m st1).1 in
  (∀ f, futs st2 !! f =
        if decide (f ∈ take (Z.to_nat n) (pending st)) then Some (Result v1)
        else if decide (f ∈ take (Z.to_nat m) (drop (Z.to_nat n) (pending st)))
             then Some (Result v2) else futs st !! f) ∧
  pending st2 = drop (Z.to_nat (n + m)) (pending st) ∧
  (v1 = v2 → notify v2 m st1 = notify v1 (n + m) st).
Proof.
  intros [Hl _] Hnd Hn Hm st1 st2.
  destruct (notify_frame v1 n st) as (Hl1 & Hlw1 & Hw1 & Hg1 & Hh1 & Hlen1).
  fold st1 in Hl1, Hlw1, Hw1, Hg1, Hh1, Hlen1.
  assert (Hl1' : locked st1 = true) by (unfold locked; congruence).
  assert (Hnd1 : NoDup (waiters st1)) by by rewrite Hw1.
  assert (Hp1 : pending st1 = drop (Z.to_nat n) (pending st))
    by by apply pending_notify.
  assert (Hfuts : ∀ f, futs st2 !! f =
    if decide (f ∈ take (Z.to_nat n) (pending st)) then Some (Result v1)
    else if decide (f ∈ take (Z.to_nat m) (drop (Z.to_nat n) (pending st)))
         then Some (Result v2) else futs st !! f).
  { intros f. unfold st2. rewrite notify_futs, Hp1 by done.
    unfold st1. rewrite notify_futs by done.
    destruct (decide (f ∈ take (Z.to_nat m) _)) as [Hin2|Hn2];
      destruct (decide (f ∈ take (Z.to_nat n) _)) as [Hin1|Hn1]; try done.
    exfalso. apply subseteq_take in Hin2.
    assert (NoDup (pending st)) as Hndp by by apply NoDup_filter.
    rewrite <- (take_drop (Z.to_nat n) (pending st)) in Hndp.
    apply NoDup_app in Hndp as (_ & Hdisj & _). by apply (Hdisj f). }
  split; [done|]. split.
  - unfold st2. rewrite pending_notify, Hp1, drop_drop by done.
    f_equal. lia.
  - intros <-.
    rewrite (notify_locked_ok v1 m st1), (notify_locked_ok v1 (n + m) st) by done.
    f_equal. fold st2.
    destruct (notify_frame v1 m st1) as (Hl2 & Hlw2 & Hw2 & Hg2 & Hh2 & Hlen2).
    fold st2 in Hl2, Hlw2, Hw2, Hg2, Hh2, Hlen2.
    destruct (notify_frame v1 (n + m) st) as (Hl3 & Hlw3 & Hw3 & Hg3 & Hh3 & Hlen3).
    apply state_eq; try congruence.
    apply list_eq. intros f. rewrite Hfuts, notify_futs by done.
    replace (Z.to_nat (n + m)) with (Z.to_nat n + Z.to_nat m)%nat by lia.
    rewrite <- take_take_drop.
    destruct (decide (f ∈ take (Z.to_nat n) _)) as [Hin1|Hn1].
    { rewrite decide_True; [done|]. apply elem_of_app. by left. }
    destruct (decide (f ∈ take (Z.to_nat m) _)) as [Hin2|Hn2].
    { rewrite decide_True; [done|]. apply elem_of_app. by right. }
    rewrite decide_False; [done|]. rewrite elem_of_app. tauto.
Qed.

(** ** A delivered value is final *)

(** The loop changes a future only if it is a pending handle of the part
    of the queue it scans. *)
Lemma notify_loop_other value n idx ws st f :
  f ∉ ws ∨ done st f = true →
  futs (notify_loop value n idx ws st) !! f = futs st !! f.
Proof.
  revert idx st. induction ws as [|fut ws IH]; intros idx st Hf; [done|].
  cbn [notify_loop]. destruct (idx >=? n); [done|].
  destruct (done st fut) eqn:Hd; cbn [negb].
  - apply IH. destruct Hf as [Hf|Hf]; [left|by right].
    by apply not_elem_of_cons in Hf as [_ ?].
  - rewrite IH.
    + rewrite set_result_lookup by done. rewrite decide_False; [done|].
      intros ->. destruct Hf as [Hf|Hf]; [|congruence].
      apply Hf, elem_of_cons. by left.
    + destruct Hf as [Hf|Hf].
      * left. by apply not_elem_of_cons in Hf as [_ ?].
      * right. by apply done_set_result_mono.
Qed.

Lemma notify_loop_all_done value n idx (ws : list nat) st :
  (∀ f, f ∈ ws → done st f = true) → notify_loop value n idx ws st = st.
Proof.
  revert idx. induction ws as [|fut ws IH]; intros idx Hd; [done|].
  cbn [notify_loop]. destruct (idx >=? n); [done|].
  rewrite (Hd fut) by (apply elem_of_cons; by left). cbn [negb].
  apply IH. intros f Hf. apply Hd, elem_of_cons. by right.
Qed.

Lemma notify_all_no_pending value st :
  locked st = true → ∀ f, f ∈ waiters st → done (notify_all value st).1 f = true.
Proof.
  intros Hl f Hf. unfold notify_all, notify. rewrite Hl. cbn [negb fst].
  unfold done at 1. rewrite notify_loop_all.
  - destruct (decide (f ∈ waiters st ∧ _)) as [_|Hn]; [done|].
    destruct (done st f) eqn:Hd; [by unfold done in Hd|].
    exfalso. by apply Hn.
  - rewrite Z.sub_0_r. apply inj_le, length_filter.
Qed.

(** X2. A delivered value is final. Whatever the store, [notify] leaves
    every future that is already done (fulfilled or cancelled) exactly as
    it is, so a second notification never replaces a waiter's value; and
    after [notify_all], called with the lock held, a further [notify] or
    [notify_all] changes nothing at all. *)
Theorem delivered_value_is_final v1 v2 n st :
  (∀ f, done st f = true → futs (notify v2 n st).1 !! f = futs st !! f) ∧
  (locked st = true →
   let st1 := (notify_all v1 st).1 in
   notify v2 n st1 = (st1, Returned tt) ∧
   notify_all v2 st1 = (st1, Returned tt)).
Proof.
  split.
  - intros f Hd. unfold notify. destruct (negb (locked st)); [done|].
    cbn [fst]. apply notify_loop_other. by right.
  - intros Hl st1.
    assert (Hl1 : locked st1 = true).
    { unfold st1, notify_all.
      destruct (notify_frame v1 (Z.of_nat (length (waiters st))) st) as (H1 & _).
      unfold locked in *. congruence. }
    assert (Hd : ∀ f, f ∈ waiters st1 → done st1 f = true).
    { intros f Hf. apply notify_all_no_pending; [done|].
      unfold st1, notify_all in Hf.
      by destruct (notify_frame v1 (Z.of_nat (length (waiters st))) st)
        as (_ & _ & <- & _). }
    unfold notify_all, notify. rewrite Hl1. cbn [negb].
    by rewrite !notify_loop_all_done.
Qed.

(** ** What wait returns *)

Lemma wait_run_returned_at_acquire t pc st ws st' v :
  wait_run t pc st ws st' (Returned v) →
  ∀ lf c b, pc = AtAcquire lf c b → c = false ∧ b = Returned v.
Proof.
  unfold wait_run. remember (Returned v) as o eqn:Ho.
  induction 1 as [pc w st st' o Hstep|pc w st st1 pc' st2 ws st' o Hstep _ IH];
    intros lf c b ->.
  - apply wait_resume_AtAcquire_spec in Hstep
      as (_ & _ & [(Hr & _)|[(Hr & _)|[(? & Hr & _)|[(Hr & _)|(Hr & _)]]]]);
      simplify_eq.
    destruct c; [done|]. simpl in *. by simplify_eq.
  - apply wait_resume_AtAcquire_spec in Hstep
      as (_ & _ & [(Hr & _)|[(Hr & _)|[(lf' & Hr & _)|[(Hr & _)|(Hr & _)]]]]);
      simplify_eq.
    by destruct (IH eq_refl lf' true b eq_refl).
Qed.

(** When [Lock.acquire] must queue: the lock is taken, or a task that was
    not cancelled is queued for it. *)
Lemma acquire_must_queue st :
  lk_locked st = true ∨ (∃ f, f ∈ lk_waiters st ∧ cancelled st f = false) →
  negb (lk_locked st) && forallb (cancelled st) (lk_waiters st) = false.
Proof.
  intros [->|(f & Hf & Hc)]; [done|].
  apply andb_false_iff. right.
  destruct (forallb _ _) eqn:Hall; [|done].
  rewrite forallb_forall in Hall.
  by rewrite (Hall f) in Hc by by apply list_elem_of_In.
Qed.

(** X3. [wait] returns what [notify] delivered, and nothing else. If a
    call of [wait] returns a value, then its handle was still queued and
    carried exactly that value when the call was resumed from [await fut],
    and it was resumed by a send, not a throw. Conversely, a waiter whose
    handle carries a value and who is resumed by a send while the lock is
    free, every task still queued for the lock having been cancelled,
    returns that value at once, holding the lock, its handle removed. When
    the lock is taken, or a task that was not cancelled is queued for it,
    the call does not return yet: it removes its handle, queues for the
    lock on a new future and suspends there, keeping the value to return
    it later. *)
Theorem wait_returns_delivered_value (t : tid) fut st :
  (∀ ws st' v, wait_run t (AtFut fut) st ws st' (Returned v) →
     futs st !! fut = Some (Result v) ∧ head ws = Some Send ∧
     fut ∈ waiters st ∧ holds t st') ∧
  (∀ v, futs st !! fut = Some (Result v) → fut ∈ waiters st →
     lk_locked st = false →
     (∀ f, f ∈ lk_waiters st → cancelled st f = true) →
     ∃ st', wait_resume t (AtFut fut) Send st = (st', Finished (Returned v)) ∧
            holds t st' ∧ deque_remove fut (waiters st) = Some (waiters st') ∧
            futs st' = futs st) ∧
  (∀ v, futs st !! fut = Some (Result v) → fut ∈ waiters st →
     lk_locked st = true ∨ (∃ f, f ∈ lk_waiters st ∧ cancelled st f = false) →
     ∃ st', wait_resume t (AtFut fut) Send st =
              (st', Suspended (AtAcquire (length (futs st)) false
                                 (Returned v))) ∧
            deque_remove fut (waiters st) = Some (waiters st') ∧
            lk_waiters st' = lk_waiters st ++ [length (futs st)] ∧
            futs st' = futs st ++ [Pending] ∧
            lk_locked st' = lk_locked st ∧ lk_holder st' = lk_holder st).
Proof.
  split; [|split].
  - intros ws st' v Hrun.
    assert (Hh : holds t st') by by eapply wait_run_holds.
    assert (Hbody : ∃ w ws0, ws = w :: ws0 ∧ fut ∈ waiters st ∧
              await_resume w fut st = Returned v).
    { inversion Hrun as [pc w s s' o Hstep|pc w s s1 pc' s2 ws0 s' o Hstep Hrest];
        subst.
      - apply wait_resume_AtFut_spec in Hstep as (body & Hb & _ & Hcases).
        destruct (deque_remove fut (waiters st)) as [q|] eqn:Hrm.
        + destruct Hb as [_ ->].
          destruct Hcases as [(Hr & _)|(Hr & _)]; simplify_eq.
          exists w, []. split; [done|]. split; [|done].
          apply deque_remove_Some in Hrm as (l1 & l2 & -> & _).
          rewrite elem_of_app, elem_of_cons. tauto.
        + destruct Hb as [_ ->].
          destruct Hcases as [(Hr & _)|(Hr & _)]; simplify_eq.
      - apply wait_resume_AtFut_spec in Hstep as (body & Hb & _ & Hcases).
        destruct Hcases as [(Hr & _)|(Hr & _)]; simplify_eq.
        destruct (wait_run_returned_at_acquire _ _ _ _ _ _ Hrest _ _ _ eq_refl)
          as [_ ->].
        destruct (deque_remove fut (waiters st)) as [q|] eqn:Hrm.
        + destruct Hb as [_ Hb]. exists w, ws0. split; [done|]. split; [|done].
          apply deque_remove_Some in Hrm as (l1 & l2 & -> & _).
          rewrite elem_of_app, elem_of_cons. tauto.
        + by destruct Hb as [_ ?]. }
    destruct Hbody as (w & ws0 & -> & Hin & Haw).
    unfold await_resume in Haw. destruct w; [|done].
    destruct (futs st !! fut) as [[|v'|]|]; simplify_eq. done.
  - intros v Hf Hin Hl Hc. cbn [wait_resume].
    destruct (deque_remove fut (waiters st)) as [q|] eqn:Hrm;
      [|by apply deque_remove_None in Hrm].
    unfold reacquire, acquire_begin.
    cbn [set_waiters lk_locked lk_waiters].
    rewrite Hl. cbn [negb andb].
    assert (forallb (cancelled (set_waiters q st)) (lk_waiters st) = true) as ->.
    { apply forallb_forall. intros f Hf'%list_elem_of_In. by apply Hc. }
    unfold await_resume. rewrite Hf. eexists. split; [done|].
    by repeat split.
  - intros v Hf Hin Hbusy. cbn [wait_resume].
    destruct (deque_remove fut (waiters st)) as [q|] eqn:Hrm;
      [|by apply deque_remove_None in Hrm].
    unfold reacquire, acquire_begin.
    assert (negb (lk_locked (set_waiters q st)) &&
            forallb (cancelled (set_waiters q st))
              (lk_waiters (set_waiters q st)) = false) as ->
      by by apply (acquire_must_queue (set_waiters q st)).
    unfold await_resume. rewrite Hf. eexists. split; [done|].
    by repeat split.
Qed.

(** ** Scoped acquisition *)

(** X4. Entering and leaving the condition. When the lock is free and
    every task still queued for it has been cancelled, [__aenter__] takes
    the lock at once, without suspending, and [__aexit__] after it puts
    the whole store back as it was and lets the result of the block
    through. When the lock is taken, or a task that was not cancelled is
    queued for it (free as the lock may be), [__aenter__] does not touch
    the lock and suspends on a new future at the tail of the lock's
    queue. *)
Theorem async_with_round_trip {A : Type} (t : tid) (body : outcome A) st :
  (lk_locked st = false → lk_holder st = None →
   (∀ f, f ∈ lk_waiters st → cancelled st f = true) →
   ∃ st1, aenter_begin t st = (st1, Finished (Returned tt)) ∧ holds t st1 ∧
          aexit body st1 = (st, body)) ∧
  (lk_locked st = true ∨ (∃ f, f ∈ lk_waiters st ∧ cancelled st f = false) →
   ∃ st1, aenter_begin t st = (st1, Suspended (length (futs st))) ∧
          lk_waiters st1 = lk_waiters st ++ [length (futs st)] ∧
          futs st1 = futs st ++ [Pending] ∧
          lk_locked st1 = lk_locked st ∧ lk_holder st1 = lk_holder st ∧
          waiters st1 = waiters st).
Proof.
  split.
  - intros Hl Hh Hc. unfold aenter_begin, acquire_begin. rewrite Hl.
    cbn [negb andb].
    assert (forallb (cancelled st) (lk_waiters st) = true) as ->.
    { apply forallb_forall. intros f Hf%list_elem_of_In. by apply Hc. }
    eexists. split; [done|]. split; [done|].
    unfold aexit, release. cbn [set_lock lk_locked].
    assert (Hst : set_lock false None (set_lock true (Some t) st) = st).
    { destruct st; simpl in *. unfold set_lock; simpl. congruence. }
    rewrite Hst.
    assert (_wake_up_first st = st) as ->; [|done].
    unfold _wake_up_first.
    destruct (lk_waiters st) as [|f q] eqn:Hq; [done|].
    assert (cancelled st f = true) as Hcf by (apply Hc, elem_of_cons; by left).
    unfold cancelled in Hcf. unfold done.
    by destruct (futs st !! f) as [[]|].
  - intros Hbusy. unfold aenter_begin, acquire_begin.
    rewrite (acquire_must_queue _ Hbusy).
    eexists. split; [done|]. by repeat split.
Qed.

(** X5. Leaving the block after [wait]: however the call of [wait] ended,
    with a value or with the cancellation error, [__aexit__] finds the lock
    held, releases it without error, lets that value or error through, and
    leaves both queues as they are. Leaving the block when the lock is not
    locked raises [RuntimeError] in place of the block's own result, and
    changes nothing. *)
Theorem exit_after_wait {A : Type} (t : tid) pc st ws st' o :
  wait_run t pc st ws st' o → returned_or_cancelled o →
  (∃ st'', aexit o st' = (st'', o) ∧ lk_locked st'' = false ∧
           lk_holder st'' = None ∧ waiters st'' = waiters st' ∧
           lk_waiters st'' = lk_waiters st' ∧ guarded st'' = guarded st') ∧
  (∀ (body : outcome A) s, lk_locked s = false →
     aexit body s = (s, Raised RuntimeError)).
Proof.
  intros Hrun Hro. split.
  - destruct (wait_run_holds _ _ _ _ _ _ Hrun Hro) as [Hl _].
    unfold aexit, release. rewrite Hl.
    destruct (_wake_up_first_frame (set_lock false None st'))
      as (H1 & H2 & H3 & H4 & H5 & _).
    eexists. split; [done|]. by repeat split.
  - intros body s Hl. unfold aexit, release. by rewrite Hl.
Qed.

(** ** The lock's queue in reachable stores *)

Lemma lock_ok_frame st st' :
  lock_ok st →
  lk_waiters st' = lk_waiters st →
  (∀ f, f ∈ waiters st' → f ∈ waiters st ∨ (length (futs st) ≤ f)%nat) →
  (length (futs st) ≤ length (futs st'))%nat →
  (∀ f, f ∈ lk_waiters st → has_result st' f = has_result st f) →
  (lk_locked st' = true → lk_locked st = true) →
  lock_ok st'.
Proof.
  intros (Hnd & Hrange & Hdisj & Htail & Hlocked) Hlk Hw Hlen Hres Hl.
  unfold lock_ok. rewrite Hlk. split; [done|]. split; [|split; [|split]].
  - intros f Hf. specialize (Hrange f Hf). lia.
  - intros f Hf Hin. destruct (Hw f Hf) as [Hold|Hnew].
    + by apply (Hdisj f).
    + specialize (Hrange f Hin). lia.
  - intros f Hf. rewrite Hres; [by apply Htail|].
    destruct (lk_waiters st) as [|f0 q]; [done|]. apply elem_of_cons. by right.
  - intros Hl' f Hf. rewrite Hres by done. by apply Hlocked; [apply Hl|].
Qed.

Lemma has_result_app st st' f :
  futs st' = futs st ++ [Pending] → has_result st' f = has_result st f.
Proof.
  intros Hf. unfold has_result. rewrite Hf.
  destruct (decide (f < length (futs st))%nat).
  - by rewrite lookup_app_l.
  - rewrite lookup_app_r by lia. rewrite (lookup_ge_None_2 (futs st)) by lia.
    by destruct (f - length (futs st))%nat as [|[|?]].
Qed.

(** A new future joins the tail of the lock's queue. *)
Lemma lock_ok_enqueue st st' :
  lock_ok st → (∀ f, f ∈ waiters st → (f < length (futs st))%nat) →
  futs st' = futs st ++ [Pending] →
  lk_waiters st' = lk_waiters st ++ [length (futs st)] →
  waiters st' = waiters st → lk_locked st' = lk_locked st →
  lock_ok st'.
Proof.
  intros (Hnd & Hrange & Hdisj & Htail & Hlocked) Hwr Hf Hlk Hw Hl.
  unfold lock_ok. rewrite Hlk, Hw, Hl.
  assert (Hnew : has_result st' (length (futs st)) = false).
  { unfold has_result. rewrite Hf, lookup_app_r by lia.
    by rewrite Nat.sub_diag. }
  split; [|split; [|split; [|split]]].
  - apply NoDup_app. split; [done|]. split; [|apply NoDup_singleton].
    intros f Hin ->%list_elem_of_singleton. specialize (Hrange _ Hin). lia.
  - intros f [Hin| ->%list_elem_of_singleton]%elem_of_app.
    + specialize (Hrange f Hin). rewrite Hf, length_app. lia.
    + rewrite Hf, length_app. simpl. lia.
  - intros f Hin [Hin'| ->%list_elem_of_singleton]%elem_of_app.
    + by apply (Hdisj f).
    + specialize (Hwr _ Hin). lia.
  - intros f Hin.
    assert (f ∈ tail (lk_waiters st) ∨ f = length (futs st)) as [Hold| ->].
    { destruct (lk_waiters st) as [|f0 q]; cbn in Hin.
      - by apply elem_of_nil in Hin.
      - apply elem_of_app in Hin as [?|?%list_elem_of_singleton]; [by left|by right]. }
    + rewrite (has_result_app st) by done. by apply Htail.
    + done.
  - intros Hl' f [Hin| ->%list_elem_of_singleton]%elem_of_app; [|done].
    rewrite (has_result_app st) by done. by apply Hlocked.
Qed.

(** The lock is taken: every queued future was cancelled, or the one at
    the head has just left. *)
Lemma lock_ok_take st b h :
  lock_ok st → (∀ f, f ∈ lk_waiters st → has_result st f = false) →
  lock_ok (set_lock b h st).
Proof.
  intros (Hnd & Hrange & Hdisj & Htail & Hlocked) Hnone.
  unfold lock_ok. cbn [set_lock lk_waiters waiters futs lk_locked].
  repeat split; try done.
Qed.

Lemma lock_ok_remove st lf q :
  lock_ok st → deque_remove lf (lk_waiters st) = Some q →
  lock_ok (set_lk_waiters q st) ∧
  (has_result st lf = true →
   head (lk_waiters st) = Some lf ∧ lk_locked st = false ∧
   ∀ f, f ∈ q → has_result st f = false).
Proof.
  intros (Hnd & Hrange & Hdisj & Htail & Hlocked) Hrm.
  destruct (deque_remove_NoDup _ _ _ Hnd Hrm) as (Hq & Hndq & _).
  assert (Hin : ∀ f, f ∈ q → f ∈ lk_waiters st)
    by (intros f; by apply (deque_remove_elem_of lf)).
  assert (Htl : ∀ f, f ∈ tail q → f ∈ tail (lk_waiters st)).
  { rewrite Hq. destruct (lk_waiters st) as [|f0 l]; [done|].
    rewrite filter_cons. cbn [tail]. intros f Hf.
    assert (f ∈ filter (λ y, y ≠ lf) l) as [_ ?]%list_elem_of_filter; [|done].
    case_decide; [done|].
    destruct (filter _ l) as [|f1 l']; [done|]. apply elem_of_cons. by right. }
  split.
  - unfold lock_ok. cbn [set_lk_waiters lk_waiters waiters futs lk_locked].
    split; [done|]. split; [by intros f ?%Hin%Hrange|].
    split; [by intros f Hw ?%Hin%(Hdisj f Hw)|].
    split; [by intros f ?%Htl%Htail|].
    intros Hl f ?%Hin. by apply Hlocked.
  - intros Hres.
    apply deque_remove_Some in Hrm as (l1 & l2 & Hlk & -> & Hnin).
    assert (lf ∈ lk_waiters st) as Hlf.
    { rewrite Hlk, elem_of_app, elem_of_cons. tauto. }
    destruct l1 as [|f0 l1].
    + rewrite Hlk in *. cbn in *. split; [done|]. split.
      * destruct (lk_locked st) eqn:Hl; [|done].
        by rewrite (Hlocked eq_refl lf) in Hres.
      * apply Htail.
    + exfalso. rewrite Hlk in Htail. cbn in Htail.
      rewrite Htail in Hres; [done|]. rewrite elem_of_app, elem_of_cons. tauto.
Qed.

Lemma lock_ok_wake_up_first st :
  lock_ok st → lk_locked st = false →
  lock_ok (_wake_up_first st) ∧
  ∀ g, g ∉ lk_waiters st → futs (_wake_up_first st) !! g = futs st !! g.
Proof.
  intros Hok Hl. pose proof Hok as (Hnd & Hrange & Hdisj & Htail & Hlocked).
  unfold _wake_up_first.
  destruct (lk_waiters st) as [|f0 q] eqn:Hq; [done|].
  destruct (done st f0) eqn:Hd; [done|].
  apply NoDup_cons in Hnd as [Hnin Hndq].
  split.
  - unfold lock_ok, set_result.
    cbn [set_futs lk_waiters waiters futs lk_locked]. rewrite Hq, Hl.
    split; [by apply NoDup_cons|].
    split; [intros f Hf; rewrite length_insert; by apply Hrange|].
    split; [done|]. split; [|done].
    cbn [tail]. intros f Hf. unfold has_result. cbn [set_futs futs].
    rewrite list_lookup_insert_ne by (by intros ->).
    by apply Htail.
  - intros g Hg. unfold set_result. cbn [set_futs futs].
    apply list_lookup_insert_ne. intros ->. apply Hg, elem_of_cons. by left.
Qed.

Lemma acquire_begin_lock_ok t st :
  lock_ok st → (∀ f, f ∈ waiters st → (f < length (futs st))%nat) →
  lock_ok (acquire_begin t st).1.
Proof.
  intros Hok Hwr. unfold acquire_begin.
  destruct (negb (lk_locked st) && forallb (cancelled st) (lk_waiters st)) eqn:Hc;
    cbn [fst].
  - apply lock_ok_take; [done|]. intros f Hf.
    apply andb_true_iff in Hc as [_ Hc]. rewrite forallb_forall in Hc.
    specialize (Hc f). rewrite <- list_elem_of_In in Hc. specialize (Hc Hf).
    unfold cancelled in Hc. unfold has_result.
    by destruct (futs st !! f) as [[]|].
  - by apply (lock_ok_enqueue st).
Qed.

Lemma acquire_resume_lock_ok t lf w st :
  lock_ok st →
  lock_ok (acquire_resume t lf w st).1 ∧
  (∀ st' u, acquire_resume t lf w st = (st', Returned u) →
     lk_locked st = false ∧ head (lk_waiters st) = Some lf ∧
     has_result st lf = true) ∧
  (∀ g, g ∉ lk_waiters st →
     futs (acquire_resume t lf w st).1 !! g = futs st !! g).
Proof.
  intros Hok. unfold acquire_resume.
  destruct (deque_remove lf (lk_waiters st)) as [q|] eqn:Hrm; [|done].
  destruct (lock_ok_remove _ _ _ Hok Hrm) as [Hok1 Hhead].
  assert (Hsub : ∀ g, g ∉ lk_waiters st → g ∉ q).
  { intros g Hg Hin. apply Hg. by apply (deque_remove_elem_of lf g _ q). }
  destruct (await_resume w lf st) as [v|e] eqn:Haw.
  - assert (has_result st lf = true) as Hres.
    { unfold await_resume in Haw. unfold has_result. destruct w; [|done].
      by destruct (futs st !! lf) as [[]|]. }
    destruct (Hhead Hres) as (Hh & Hl & Hnone).
    split; [|split; [|done]].
    + cbn [fst]. by apply lock_ok_take.
    + by intros st' u _.
  - assert (Hplain : lock_ok (set_lk_waiters q st) ∧
      (∀ st' (u : unit), (set_lk_waiters q st, @Raised unit e) = (st', Returned u) →
         lk_locked st = false ∧ head (lk_waiters st) = Some lf ∧
         has_result st lf = true) ∧
      (∀ g, g ∉ lk_waiters st → futs (set_lk_waiters q st) !! g = futs st !! g))
      by (split; [exact Hok1|split; [done|done]]).
    destruct e; cbn [fst]; [exact Hplain| |exact Hplain].
    destruct (lk_locked (set_lk_waiters q st)) eqn:Hl;
      [split; [exact Hok1|split; [done|done]]|].
    destruct (lock_ok_wake_up_first _ Hok1 Hl) as [Hok2 Hfr].
    split; [done|]. split; [done|].
    intros g Hg. rewrite Hfr; [done|]. by apply Hsub.
Qed.

Lemma release_lock_ok st :
  lock_ok st →
  lock_ok (release st).1 ∧
  ∀ g, g ∉ lk_waiters st → futs (release st).1 !! g = futs st !! g.
Proof.
  intros Hok. unfold release. destruct (lk_locked st) eqn:Hl; [|done].
  cbn [fst].
  assert (Hok1 : lock_ok (set_lock false None st)).
  { apply (lock_ok_frame st); try done. by intros f ?; left. }
  destruct (lock_ok_wake_up_first _ Hok1 eq_refl) as [Hok2 Hfr].
  split; [done|]. exact Hfr.
Qed.

Lemma wait_begin_lock_ok st :
  lock_ok st → (∀ f, f ∈ waiters st → (f < length (futs st))%nat) →
  lock_ok (wait_begin st).1 ∧
  ∀ g, g ∈ waiters st → futs (wait_begin st).1 !! g = futs st !! g.
Proof.
  intros Hok Hwr. pose proof Hok as (_ & Hrange & Hdisj & _).
  destruct (release_lock_ok st Hok) as [Hok1 Hfr].
  unfold wait_begin, locked. destruct (lk_locked st) eqn:Hl; cbn [negb]; [|done].
  unfold release in *. rewrite Hl in *. cbn [fst] in *.
  set (s1 := _wake_up_first (set_lock false None st)) in *.
  destruct (_wake_up_first_frame (set_lock false None st))
    as (H1 & H2 & H3 & _ & _ & H6). fold s1 in H1, H2, H3, H6.
  cbn [set_lock futs] in H6.
  cbn [create_future fst]. split.
  - apply (lock_ok_frame s1); cbn [set_waiters set_futs lk_waiters waiters
      futs lk_locked]; try done.
    + intros f [?| ->%list_elem_of_singleton]%elem_of_app; [by left|right; lia].
    + rewrite length_app. lia.
    + intros f Hf. by apply (has_result_app s1).
  - intros g Hg. cbn [set_waiters set_futs futs].
    specialize (Hwr g Hg).
    rewrite lookup_app_l by lia. apply Hfr. by apply Hdisj.
Qed.

Lemma acquire_resume_raised_locked t lf w st e :
  (acquire_resume t lf w st).2 = Raised e →
  lk_locked (acquire_resume t lf w st).1 = lk_locked st.
Proof.
  unfold acquire_resume.
  destruct (deque_remove lf (lk_waiters st)) as [q|]; [|done].
  destruct (await_resume w lf st) as [v|[]]; try done.
  destruct (lk_locked (set_lk_waiters q st)) eqn:Hl; cbn [fst]; [done|].
  by destruct (_wake_up_first_frame (set_lk_waiters q st)) as (-> & _).
Qed.

Lemma reacquire_store t c b st : (reacquire t c b st).1 = (acquire_begin t st).1.
Proof.
  unfold reacquire. by destruct (acquire_begin t st) as [s1 [lf|[u|e]]].
Qed.

Lemma acquire_begin_futs t st g :
  (g < length (futs st))%nat → futs (acquire_begin t st).1 !! g = futs st !! g.
Proof.
  intros Hg. destruct (acquire_begin t st) as [st' r] eqn:Hacq. cbn [fst].
  apply acquire_begin_spec in Hacq
    as (_ & _ & [(_ & _ & -> & _)|(_ & -> & _)]); [done|].
  by apply lookup_app_l.
Qed.

Lemma reacquire_lock_ok t c b s0 st :
  lock_ok s0 → futs s0 = futs st → lk_locked s0 = lk_locked st →
  (∀ f, f ∈ waiters s0 → f ∈ waiters st) →
  (∀ f, f ∈ waiters st → (f < length (futs st))%nat) →
  lock_ok (reacquire t c b s0).1 ∧
  (∀ g, g ∈ waiters st → futs (reacquire t c b s0).1 !! g = futs st !! g) ∧
  (∀ st' o, reacquire t c b s0 = (st', Finished o) → lk_locked st = false).
Proof.
  intros Hok0 Hf0 Hl0 Hw0 Hwr. rewrite reacquire_store.
  assert (Hwr0 : ∀ f, f ∈ waiters s0 → (f < length (futs s0))%nat).
  { intros f Hf. rewrite Hf0. by apply Hwr, Hw0. }
  split; [by apply acquire_begin_lock_ok|]. split.
  - intros g Hg. rewrite acquire_begin_futs, Hf0; [done|].
    rewrite Hf0. by apply Hwr.
  - intros st' o Hstep. unfold reacquire in Hstep.
    destruct (acquire_begin t s0) as [s1 r] eqn:Hacq.
    apply acquire_begin_spec in Hacq
      as (_ & _ & [(-> & _ & _ & _ & Hl)|(-> & _)]); [congruence|done].
Qed.

Lemma wait_resume_lock_ok t pc w st :
  lock_ok st → (∀ f, f ∈ waiters st → (f < length (futs st))%nat) →
  lock_ok (wait_resume t pc w st).1 ∧
  (∀ g, g ∈ waiters st → futs (wait_resume t pc w st).1 !! g = futs st !! g) ∧
  (∀ st' o, wait_resume t pc w st = (st', Finished o) →
     returned_or_cancelled o → lk_locked st = false).
Proof.
  intros Hok Hwr. pose proof Hok as (_ & _ & Hdisj & _).
  destruct pc as [fut|lf c b]; cbn [wait_resume].
  - destruct (deque_remove fut (waiters st)) as [q|] eqn:Hrm.
    + destruct (reacquire_lock_ok t false (await_resume w fut st)
                  (set_waiters q st) st) as (H1 & H2 & H3); try done.
      * apply (lock_ok_frame st); try done.
        intros f Hf. left. by apply (deque_remove_elem_of fut f _ q).
      * intros f Hf. by apply (deque_remove_elem_of fut f _ q).
      * split; [done|]. split; [done|]. intros st' o Hs _. by eapply H3.
    + destruct (reacquire_lock_ok t false (Raised ValueError) st st)
        as (H1 & H2 & H3); try done.
      split; [done|]. split; [done|]. intros st' o Hs _. by eapply H3.
  - destruct (acquire_resume_lock_ok t lf w st Hok) as (Hok1 & Htake & Hfr).
    pose proof (acquire_resume_raised_locked t lf w st) as Hlocked.
    destruct (acquire_resume t lf w st) as [s1 o1] eqn:Hacq.
    pose proof Hacq as Hspec.
    apply acquire_resume_spec in Hspec as (Hw1 & _ & Hlen1 & _).
    cbn [fst snd] in *.
    assert (Hg1 : ∀ g, g ∈ waiters st → futs s1 !! g = futs st !! g).
    { intros g Hg. apply Hfr. by apply Hdisj. }
    destruct o1 as [u|e].
    { cbn [fst]. split; [done|]. split; [done|].
      intros st' o _ _. by destruct (Htake s1 u eq_refl). }
    destruct e.
    + cbn [fst]. split; [done|]. split; [done|]. by intros st' o [= <- <-] [].
    + destruct (reacquire_lock_ok t true b s1 s1) as (H1 & H2 & H3); try done.
      { intros f Hf. rewrite Hlen1. apply Hwr. by rewrite <- Hw1. }
      split; [done|]. split.
      * intros g Hg. rewrite H2 by (by rewrite Hw1). by apply Hg1.
      * intros st' o Hstep _.
        rewrite <- (Hlocked CancelledError eq_refl). by eapply H3.
    + cbn [fst]. split; [done|]. split; [done|]. by intros st' o [= <- <-] [].
Qed.

Lemma has_result_of_lookup st st' f :
  futs st' !! f = futs st !! f → has_result st' f = has_result st f.
Proof. unfold has_result. by intros ->. Qed.

(** In every reachable store the lock's queue is in order. *)
Lemma reachable_lock_ok st : reachable st → lock_ok st.
Proof.
  induction 1 as [g|st st' Hreach IH Hstep].
  { unfold lock_ok. cbn. split; [apply NoDup_nil_2|].
    repeat split; try done; by intros f ?%elem_of_nil. }
  destruct (reachable_queue_ok _ Hreach) as [_ Hwr].
  pose proof IH as (_ & _ & Hdisj & _).
  destruct Hstep as [t st|t fut w st|st|st|t pc w st|value n st|value st|fut st|g st].
  - by apply acquire_begin_lock_ok.
  - by apply acquire_resume_lock_ok.
  - by apply release_lock_ok.
  - by apply wait_begin_lock_ok.
  - by apply wait_resume_lock_ok.
  - destruct (notify_frame value n st) as (Hl & Hlk & Hw & _ & _ & Hlen).
    apply (lock_ok_frame st); try done.
    + intros f. rewrite Hw. by left.
    + lia.
    + intros f Hf. apply has_result_of_lookup.
      unfold notify. destruct (negb (locked st)); [done|]. cbn [fst].
      apply notify_loop_other. left. intros Hin. by apply (Hdisj f).
    + by rewrite Hl.
  - unfold notify_all.
    destruct (notify_frame value (Z.of_nat (length (waiters st))) st)
      as (Hl & Hlk & Hw & _ & _ & Hlen).
    apply (lock_ok_frame st); try done.
    + intros f. rewrite Hw. by left.
    + lia.
    + intros f Hf. apply has_result_of_lookup.
      unfold notify. destruct (negb (locked st)); [done|]. cbn [fst].
      apply notify_loop_other. left. intros Hin. by apply (Hdisj f).
    + by rewrite Hl.
  - unfold future_cancel. destruct (done st fut) eqn:Hd; [done|]. cbn [fst].
    apply (lock_ok_frame st); cbn [set_futs lk_waiters waiters futs lk_locked];
      try done.
    + by intros f ?; left.
    + by rewrite length_insert.
    + intros f Hf. unfold has_result. cbn [set_futs futs].
      destruct (decide (f = fut)) as [->|Hne].
      * apply done_false_lookup in Hd.
        rewrite list_lookup_insert_eq by (by eapply lookup_lt_Some).
        by rewrite Hd.
      * by rewrite list_lookup_insert_ne.
  - apply (lock_ok_frame st); try done. by intros f ?; left.
Qed.

(** The stores of a program are reachable stores. *)
Lemma sys_reachable_store (sys : @system V G) :
  sys_reachable sys → reachable (store sys).
Proof.
  induction 1 as [g|sys lbl sys' _ IH Hstep]; [apply reachable_init|].
  destruct Hstep as [t st tk st' r Ht Hop|t lfut w st tk st' o Ht Hop|t st tk Ht|
    t st tk st' o Ht Hop|t pc w st tk st' r Ht Hop|t predicate st tk st' r Ht Hop|
    t predicate pc w st tk st' r Ht Hop|t value n st tk Ht|t value st tk Ht|
    t ts st tk Ht|t g st tk Ht]; cbn [store] in *.
  - replace st' with (acquire_begin t st).1 by by rewrite Hop.
    eapply reachable_step; [done|constructor].
  - replace st' with (acquire_resume t lfut w st).1 by by rewrite Hop.
    eapply reachable_step; [done|constructor].
  - eapply reachable_step; [done|constructor].
  - replace st' with (wait_begin st).1 by by rewrite Hop.
    eapply reachable_step; [done|constructor].
  - replace st' with (wait_resume t pc w st).1 by by rewrite Hop.
    eapply reachable_step; [done|constructor].
  - unfold wait_for_begin, wait_for_again in Hop.
    destruct (predicate st); [by injection Hop as <- _|].
    destruct (wait_begin st) as [s1 o] eqn:Hb.
    assert (st' = (wait_begin st).1) as ->
      by (rewrite Hb; by destruct o; injection Hop as <- _).
    eapply reachable_step; [done|constructor].
  - unfold wait_for_resume in Hop.
    destruct (wait_resume t pc w st) as [s1 r1] eqn:Hw.
    assert (reachable s1) as Hr1.
    { replace s1 with (wait_resume t pc w st).1 by by rewrite Hw.
      eapply reachable_step; [done|constructor]. }
    destruct r1 as [pc'|[v|e]]; try (by injection Hop as <- _).
    unfold wait_for_again in Hop. destruct (predicate s1);
      [by injection Hop as <- _|].
    destruct (wait_begin s1) as [s2 o] eqn:Hb.
    assert (st' = (wait_begin s1).1) as ->
      by (rewrite Hb; by destruct o; injection Hop as <- _).
    eapply reachable_step; [done|constructor].
  - eapply reachable_step; [done|constructor].
  - eapply reachable_step; [done|constructor].
  - eapply reachable_step; [done|constructor].
  - eapply reachable_step; [done|constructor].
Qed.

(** X6. The lock is never handed over while it is locked. In every
    reachable store: an [acquire] that was queued completes only for the
    future at the head of the lock's queue, which was given its result by
    a release, and finds the lock unlocked; and whenever a resumed [wait]
    returns (a value or the cancellation error) holding the lock, the lock
    was unlocked when that turn began. *)
Theorem lock_taken_only_when_free st :
  reachable st →
  (∀ t lf w st' u, acquire_resume t lf w st = (st', Returned u) →
     lk_locked st = false ∧ head (lk_waiters st) = Some lf ∧
     has_result st lf = true ∧ holds t st') ∧
  (∀ t pc w st' o, wait_resume t pc w st = (st', Finished o) →
     returned_or_cancelled o → lk_locked st = false ∧ holds t st') ∧
  (∀ f, f ∈ tail (lk_waiters st) → has_result st f = false) ∧
  (lk_locked st = true → ∀ f, f ∈ lk_waiters st → has_result st f = false).
Proof.
  intros Hreach. pose proof (reachable_lock_ok _ Hreach) as Hok.
  destruct (reachable_queue_ok _ Hreach) as [_ Hwr].
  split; [|split; [|split]].
  - intros t lf w st' u Hacq.
    destruct (acquire_resume_lock_ok t lf w st Hok) as (_ & Htake & _).
    destruct (Htake _ _ Hacq) as (? & ? & ?).
    apply acquire_resume_spec in Hacq as (_ & _ & _ & [? _]). done.
  - intros t pc w st' o Hstep Hro.
    destruct (wait_resume_lock_ok t pc w st Hok Hwr) as (_ & _ & Hfree).
    split; [by eapply Hfree|]. by eapply wait_resume_finished_holds.
  - apply Hok.
  - apply Hok.
Qed.

(** X7. Only [notify] and [notify_all] fulfil a waiter. In every reachable
    store, acquiring the lock, finishing a queued acquire, releasing,
    starting a [wait] and resuming any [wait] (by a value or by a
    cancellation) leave the future of every queued handle exactly as it
    is: waking the next task that wants the lock never wakes a waiter of
    the condition, and a waiter that is cancelled after it was notified
    does not pass its notification on. *)
Theorem handles_change_only_by_notify st g :
  reachable st → g ∈ waiters st →
  (∀ t, futs (acquire_begin t st).1 !! g = futs st !! g) ∧
  (∀ t lf w, futs (acquire_resume t lf w st).1 !! g = futs st !! g) ∧
  futs (release st).1 !! g = futs st !! g ∧
  futs (wait_begin st).1 !! g = futs st !! g ∧
  (∀ t pc w, futs (wait_resume t pc w st).1 !! g = futs st !! g).
Proof.
  intros Hreach Hg. pose proof (reachable_lock_ok _ Hreach) as Hok.
  destruct (reachable_queue_ok _ Hreach) as [_ Hwr].
  pose proof Hok as (_ & _ & Hdisj & _).
  split; [|split; [|split; [|split]]].
  - intros t. apply acquire_begin_futs. by apply Hwr.
  - intros t lf w. apply acquire_resume_lock_ok; [done|]. by apply Hdisj.
  - apply release_lock_ok; [done|]. by apply Hdisj.
  - by apply wait_begin_lock_ok.
  - intros t pc w. by apply wait_resume_lock_ok.
Qed.

(** ** Under the event loop, wait fails in no way of its own *)

Lemma loop_reachable_sys (sys : @system V G) :
  loop_reachable sys → sys_reachable sys.
Proof.
  induction 1 as [g|sys lbl sys' _ IH _ Hstep]; [apply sys_reachable_init|].
  by eapply sys_reachable_step.
Qed.

Lemma await_resume_sound st fut w :
  sound_wakeup st fut w → (fut < length (futs st))%nat →
  returned_or_cancelled (await_resume w fut st).
Proof.
  intros [->|Hd] Hlt; [done|]. unfold await_resume. destruct w; [|done].
  unfold done in Hd. apply lookup_lt_is_Some in Hlt as [x Hx]. rewrite Hx in *.
  by destruct x.
Qed.

(** One sound resumption of a queued [wait]: it ends with a value or the
    cancellation error, or suspends in a clean state. *)
Lemma wait_resume_clean t pc w st st' r :
  clean_pc pc → sound_wakeup st (pc_awaited pc).2 w →
  (pc_awaited pc).2 ∈ queue (pc_awaited pc).1 st →
  ((pc_awaited pc).2 < length (futs st))%nat →
  wait_resume t pc w st = (st', r) →
  match r with
  | Suspended pc' => clean_pc pc'
  | Finished o => returned_or_cancelled o
  end.
Proof.
  intros Hclean Hw Hin Hlt Hstep. destruct pc as [fut|lf c b]; cbn in *.
  - apply wait_resume_AtFut_spec in Hstep as (body & Hb & _ & Hcases).
    destruct (deque_remove fut (waiters st)) as [q|] eqn:Hrm;
      [|by apply deque_remove_None in Hrm].
    destruct Hb as [_ ->].
    pose proof (await_resume_sound st fut w Hw Hlt).
    by destruct Hcases as [(-> & _)|(-> & _)].
  - pose proof (await_resume_sound st lf w Hw Hlt) as Haw.
    cbn [wait_resume] in Hstep.
    destruct (acquire_resume t lf w st) as [s1 o1] eqn:Hacq.
    apply acquire_resume_spec in Hacq as (_ & _ & _ & Ho).
    destruct o1 as [u|[]].
    + injection Hstep as _ <-. by destruct c.
    + destruct Ho as [-> Hrt]. by rewrite Hrt in Haw.
    + apply reacquire_spec in Hstep as (_ & _ & [(-> & _)|(-> & _)]); done.
    + destruct Ho as [Hn _]. done.
Qed.

Lemma loop_run_reachable lbls (sys sys' : @system V G) :
  loop_reachable sys → sound_run lbls sys → sys_run lbls sys = Some sys' →
  loop_reachable sys'.
Proof.
  revert sys. induction lbls as [|lbl lbls IH]; intros sys Hr;
    cbn [sys_run sound_run].
  - by intros _ [= <-].
  - intros [Hsound Hrest].
    destruct (sys_exec lbl sys) as [sys1|] eqn:Hex; [|done].
    apply IH; [|done]. eapply loop_reachable_step; [done..|].
    by apply sys_exec_step.
Qed.

Lemma loop_reachable_clean (sys : @system V G) :
  loop_reachable sys → ∀ t ts, tasks sys !! t = Some ts → clean_task ts.
Proof.
  induction 1 as [g|sys lbl sys' Hreach IH Hsound Hstep].
  { intros t ts Ht. cbn in Ht. by rewrite lookup_empty in Ht. }
  pose proof (sys_reachable_inv _ (loop_reachable_sys _ Hreach))
    as (_ & Hrange & Hbij & _).
  assert (Hmine : ∀ t ts, tasks sys !! t = Some ts →
            (awaited ts).2 ∈ queue (awaited ts).1 (store sys) ∧
            ((awaited ts).2 < length (futs (store sys)))%nat).
  { intros t ts Ht.
    assert ((awaited ts).2 ∈ queue (awaited ts).1 (store sys)) as Hin.
    { apply Hbij. exists t, ts. split; [done|]. by destruct (awaited ts). }
    split; [done|]. by eapply Hrange. }
  assert (Hset : ∀ t new (tk : gmap nat (@tstate V G)),
    (∀ t' ts, tk !! t' = Some ts → clean_task ts) →
    (∀ ts, new = Some ts → clean_task ts) →
    ∀ t' ts, set_task t new tk !! t' = Some ts → clean_task ts).
  { intros t new tk Hold Hnew t' ts. rewrite lookup_set_task.
    case_decide; [apply Hnew|apply Hold]. }
  destruct Hstep as [t st tk st' r Ht Hop|t lfut w st tk st' o Ht Hop|t st tk Ht|
    t st tk st' o Ht Hop|t pc w st tk st' r Ht Hop|t predicate st tk st' r Ht Hop|
    t predicate pc w st tk st' r Ht Hop|t value n st tk Ht|t value st tk Ht|
    t ts st tk Ht|t g st tk Ht]; cbn [store tasks] in *; try done.
  - apply Hset; [done|]. intros ts. by destruct r; intros [= <-].
  - intros t' ts. rewrite lookup_delete. case_decide; [done|]. apply IH.
  - apply Hset; [done|]. intros ts.
    apply wait_begin_spec in Hop as [(_ & _ & ->)|(_ & -> & _)]; [done|].
    by intros [= <-].
  - apply Hset; [done|]. intros ts.
    destruct (Hmine _ _ Ht) as [Hin Hlt]. specialize (Hsound _ Ht).
    pose proof (wait_resume_clean _ _ _ _ _ _ (IH _ _ Ht) Hsound Hin Hlt Hop).
    destruct r; [|done]. by intros [= <-].
  - apply Hset; [done|]. intros ts.
    unfold wait_for_begin, wait_for_again in Hop.
    destruct (predicate st); [by injection Hop as _ <-|].
    destruct (wait_begin st) as [s1 o] eqn:Hb.
    apply wait_begin_spec in Hb as [(_ & _ & ->)|(_ & -> & _)];
      injection Hop as _ <-; [done|]. by intros [= <-].
  - apply Hset; [done|]. intros ts.
    destruct (Hmine _ _ Ht) as [Hin Hlt]. specialize (Hsound _ Ht).
    unfold wait_for_resume in Hop.
    destruct (wait_resume t pc w st) as [s1 r1] eqn:Hw.
    pose proof (wait_resume_clean _ _ _ _ _ _ (IH _ _ Ht) Hsound Hin Hlt Hw)
      as Hc.
    destruct r1 as [pc'|[v|e]].
    + injection Hop as _ <-. by intros [= <-].
    + unfold wait_for_again in Hop.
      destruct (predicate s1); [by injection Hop as _ <-|].
      destruct (wait_begin s1) as [s2 o] eqn:Hb.
      apply wait_begin_spec in Hb as [(_ & _ & ->)|(_ & -> & _)];
        injection Hop as _ <-; [done|]. by intros [= <-].
    + by injection Hop as _ <-.
Qed.

(** X8. Under the event loop (a task is resumed by a send only when the
    future it awaits is done), the calls fail in no way of their own: in
    every state such a program reaches, a resumed [wait] that ends, ends
    with a value or with the cancellation error, holding the lock; a
    resumed [wait_for] that ends, ends with [True] or with the cancellation
    error, holding the lock; a queued [acquire] ends with the lock or with
    the cancellation error. The [remove] in the [finally] clause never
    raises, and no [RuntimeError] comes out of the inner calls. *)
Theorem calls_end_cleanly (sys : @system V G) t ts w :
  loop_reachable sys → tasks sys !! t = Some ts →
  sound_wakeup (store sys) (awaited ts).2 w →
  match ts with
  | InAcquire lf =>
      ∀ st' o, acquire_resume t lf w (store sys) = (st', o) →
        (o = Returned tt ∧ holds t st') ∨ o = Raised CancelledError
  | InWait pc =>
      ∀ st' o, wait_resume t pc w (store sys) = (st', Finished o) →
        returned_or_cancelled o ∧ holds t st'
  | InWaitFor predicate pc =>
      ∀ st' o, wait_for_resume t predicate pc w (store sys) =
                 (st', Finished o) →
        (o = Returned true ∨ o = Raised CancelledError) ∧ holds t st'
  end.
Proof.
  intros Hreach Ht Hsound.
  pose proof (loop_reachable_clean _ Hreach _ _ Ht) as Hclean.
  pose proof (sys_reachable_inv _ (loop_reachable_sys _ Hreach))
    as (_ & Hrange & Hbij & _).
  assert ((awaited ts).2 ∈ queue (awaited ts).1 (store sys)) as Hin.
  { apply Hbij. exists t, ts. split; [done|]. by destruct (awaited ts). }
  assert ((awaited ts).2 < length (futs (store sys)))%nat as Hlt
    by by eapply Hrange.
  destruct ts as [lf|pc|predicate pc]; cbn in *.
  - intros st' o Hacq. 
    pose proof (await_resume_sound _ _ _ Hsound Hlt) as Haw.
    apply acquire_resume_spec in Hacq as (_ & _ & _ & Ho).
    destruct o as [[]|[]].
    + left. by destruct Ho.
    + destruct Ho as [-> Hrt]. by rewrite Hrt in Haw.
    + by right.
    + by destruct Ho.
  - intros st' o Hstep.
    pose proof (wait_resume_clean _ _ _ _ _ _ Hclean Hsound Hin Hlt Hstep) as Hc.
    split; [done|]. by eapply wait_resume_finished_holds.
  - intros st' o Hstep. unfold wait_for_resume in Hstep.
    destruct (wait_resume t pc w (store sys)) as [s1 r1] eqn:Hw.
    pose proof (wait_resume_clean _ _ _ _ _ _ Hclean Hsound Hin Hlt Hw) as Hc.
    destruct r1 as [pc'|[v|e]]; [done| |].
    + assert (Hh : holds t s1) by by eapply wait_resume_finished_holds.
      unfold wait_for_again in Hstep. destruct (predicate s1).
      * injection Hstep as <- <-. split; [by left|done].
      * destruct (wait_begin s1) as [s2 o2] eqn:Hb.
        apply wait_begin_spec in Hb as [(Hl & _)|(_ & -> & _)]; [|done].
        destruct Hh as [Hh _]. unfold locked in Hl. congruence.
    + injection Hstep as <- <-. destruct e; try done.
      split; [by right|]. by eapply wait_resume_finished_holds.
Qed.

(** ** After notify_all, every waiter finishes *)

Lemma finish_wait_delivers (t : nat) fut v s :
  lk_locked s = false →
  (∀ f, f ∈ lk_waiters s → cancelled s f = true) →
  NoDup (waiters s) → fut ∈ waiters s →
  futs s !! fut = Some (Result v) →
  ∃ s', finish_wait t fut s = (s', Finished (Returned v)) ∧
    lk_locked s' = false ∧ lk_holder s' = None ∧
    lk_waiters s' = lk_waiters s ∧ futs s' = futs s ∧
    guarded s' = guarded s ∧
    waiters s' = filter (λ f, f ≠ fut) (waiters s).
Proof.
  intros Hl Hc Hnd Hin Hf. unfold finish_wait. cbn [wait_resume].
  destruct (deque_remove fut (waiters s)) as [q|] eqn:Hrm;
    [|by apply deque_remove_None in Hrm].
  destruct (deque_remove_NoDup _ _ _ Hnd Hrm) as (Hq & _).
  unfold reacquire, acquire_begin.
  cbn [set_waiters lk_locked lk_waiters].
  rewrite Hl. cbn [negb andb].
  assert (forallb (cancelled (set_waiters q s)) (lk_waiters s) = true) as ->.
  { apply forallb_forall. intros f Hf'%list_elem_of_In. by apply Hc. }
  unfold await_resume. rewrite Hf.
  unfold aexit, release. cbn [set_lock set_waiters lk_locked].
  match goal with |- context [_wake_up_first ?x] => set (s1 := x) end.
  assert (_wake_up_first s1 = s1) as ->.
  { unfold _wake_up_first. subst s1.
    cbn [lk_waiters set_lock set_waiters].
    destruct (lk_waiters s) as [|f q'] eqn:Hlq; [done|].
    assert (cancelled s f = true) as Hcf by (apply Hc, elem_of_cons; by left).
    unfold cancelled in Hcf. unfold done. cbn [futs set_lock set_waiters].
    by destruct (futs s !! f) as [[]|]. }
  exists s1. split; [done|]. subst s1. cbn. by rewrite Hq.
Qed.

Lemma drain_delivers v (turns : list (nat * nat)) s :
  lk_locked s = false →
  (∀ f, f ∈ lk_waiters s → cancelled s f = true) →
  NoDup (waiters s) → NoDup turns.*2 →
  (∀ f, f ∈ turns.*2 → f ∈ waiters s ∧ futs s !! f = Some (Result v)) →
  (drain turns s).2 = (λ _, Finished (Returned v)) <$> turns ∧
  waiters (drain turns s).1 = filter (λ f, f ∉ turns.*2) (waiters s) ∧
  lk_locked (drain turns s).1 = false ∧
  (turns ≠ [] → lk_holder (drain turns s).1 = None) ∧
  lk_waiters (drain turns s).1 = lk_waiters s ∧
  futs (drain turns s).1 = futs s ∧
  guarded (drain turns s).1 = guarded s.
Proof.
  revert s. induction turns as [|[t fut] turns IH]; intros s Hl Hc Hnd Hndt Hin.
  { cbn. repeat split; try done. clear.
    induction (waiters s) as [|x l IHl]; [done|].
    rewrite filter_cons, decide_True by apply not_elem_of_nil.
    by rewrite <-IHl. }
  cbn [fmap list_fmap] in Hndt, Hin. cbn [snd] in Hndt, Hin.
  apply NoDup_cons in Hndt as [Hfresh Hndt].
  destruct (Hin fut) as [Hfw Hfv]; [by left|].
  destruct (finish_wait_delivers t fut v s Hl Hc Hnd Hfw Hfv)
    as (s1 & Hfin & Hl1 & Hh1 & Hlw1 & Hf1 & Hg1 & Hw1).
  cbn [drain]. rewrite Hfin.
  destruct (drain turns s1) as [s2 rs] eqn:Hd.
  destruct (IH s1) as (Hrs & Hw2 & Hl2 & Hh2 & Hlw2 & Hf2 & Hg2).
  - done.
  - intros f Hf. rewrite Hlw1 in Hf. unfold cancelled. rewrite Hf1.
    by apply Hc.
  - rewrite Hw1. by apply NoDup_filter.
  - done.
  - intros f Hf. destruct (Hin f) as [? ?]; [by right|].
    split; [|by rewrite Hf1]. rewrite Hw1. apply list_elem_of_filter.
    split; [|done]. intros ->. done.
  - rewrite Hd in *. cbn [fst snd] in *.
    split; [by rewrite Hrs|]. split.
    { rewrite Hw2, Hw1, list_filter_filter. apply filter_ext_elem.
      intros f _. cbn. rewrite not_elem_of_cons. tauto. }
    split; [done|]. split.
    { intros _. destruct turns; [by inversion Hd; subst|]. by apply Hh2. }
    split; [congruence|]. split; congruence.
Qed.

(** X15. No waiter is left behind by [notify_all]. A task holds the
    lock, and every task still queued for the lock has been cancelled; it
    calls [notify_all] with a value and releases. Then pending waiters can
    take their turns in any order, each once, each resuming [wait] and
    leaving its [async with] block:
    every one of them gets the value, without suspending again; the
    handles of those that ran are gone from the queue and the others are
    still there; and the lock is free at the end, with the guarded state
    as it was. *)
Theorem notify_all_reaches_every_waiter (t0 : nat) v st
    (turns : list (nat * nat)) :
  holds t0 st → NoDup (waiters st) →
  (∀ f, f ∈ lk_waiters st → cancelled st f = true) →
  NoDup turns.*2 → (∀ f, f ∈ turns.*2 → f ∈ pending st) →
  let st1 := (release (notify_all v st).1).1 in
  let st2 := (drain turns st1).1 in
  (drain turns st1).2 = (λ _, Finished (Returned v)) <$> turns ∧
  waiters st2 = filter (λ f, f ∉ turns.*2) (waiters st) ∧
  lk_locked st2 = false ∧ lk_holder st2 = None ∧
  guarded st2 = guarded st.
Proof.
  intros [Hl Hh] Hnd Hc Hndt Hturns st1 st2.
  assert (Hlk : locked st = true) by done.
  destruct (notify_frame v (Z.of_nat (length (waiters st))) st)
    as (Hl1 & Hlw1 & Hw1 & Hg1 & Hh1 & _).
  fold (notify_all v st) in Hl1, Hlw1, Hw1, Hg1, Hh1.
  set (sn := (notify_all v st).1) in *.
  assert (Hfuts : ∀ f, futs sn !! f =
            if decide (f ∈ pending st) then Some (Result v)
            else futs st !! f).
  { intros f. subst sn. unfold notify_all. rewrite notify_futs by done.
    rewrite Nat2Z.id, take_ge; [done|]. apply length_filter. }
  assert (Hcn : ∀ f, f ∈ lk_waiters sn → cancelled sn f = true).
  { intros f Hf. rewrite Hlw1 in Hf. specialize (Hc f Hf).
    unfold cancelled in *. rewrite Hfuts.
    destruct (decide (f ∈ pending st)) as [Hp|]; [|done].
    apply list_elem_of_filter in Hp as [Hp%done_false_lookup _].
    by rewrite Hp in Hc. }
  assert (Hrel : st1 = set_lock false None sn).
  { subst st1. unfold release. rewrite Hl1, Hl. cbn [fst].
    unfold _wake_up_first. cbn [lk_waiters set_lock].
    destruct (lk_waiters sn) as [|f q] eqn:Hq; [done|].
    assert (cancelled sn f = true) as Hcf by (apply Hcn; by left).
    unfold cancelled in Hcf. unfold done. cbn [futs set_lock].
    by destruct (futs sn !! f) as [[]|]. }
  destruct (drain_delivers v turns st1) as (Hrs & Hw & Hl2 & Hh2 & _ & _ & Hg2).
  - by rewrite Hrel.
  - rewrite Hrel. exact Hcn.
  - rewrite Hrel. cbn [set_lock waiters]. by rewrite Hw1.
  - done.
  - intros f Hf. specialize (Hturns f Hf). rewrite Hrel.
    cbn [set_lock waiters futs]. rewrite Hw1, Hfuts, decide_True by done.
    split; [|done]. by apply list_elem_of_filter in Hturns as [_ ?].
  - subst st2. split; [done|]. split.
    { rewrite Hw, Hrel. cbn [set_lock waiters]. by rewrite Hw1. }
    split; [done|]. split.
    { destruct turns; [by rewrite Hrel|]. by apply Hh2. }
    rewrite Hg2, Hrel. cbn [set_lock guarded]. done.
Qed.

End MoreProperties.

(** * Properties of the module loader *)

Section LoaderProperties.

Context {O I : Type} `{EqDecision O} `{!Python O I}.
Implicit Types i : I.
Implicit Types m : nat.
Implicit Types ct o : O.
Implicit Types s : @session I.
Implicit Types info self : @ModuleInfo O.

Lemma collect_Success i m ct names acc l :
  collect i m ct names acc = Success l →
  (∀ name, name ∈ names → is_Some (getattr i m name)) ∧
  ∃ found, l = acc ++ found ∧
    Forall2 (λ name o, getattr i m name = Some o ∧ qualifies i m ct o = true)
      (filter (λ name, candidate i m ct name = true) names) found.
Proof.
  revert acc. induction names as [|name names IH]; intros acc; cbn [collect].
  - intros [= <-]. split; [by intros ? ?%not_elem_of_nil|].
    exists []. by rewrite app_nil_r.
  - destruct (getattr i m name) as [o|] eqn:Hget; [|done].
    intros Hc. apply IH in Hc as (Hall & found & -> & Hrest).
    split. { intros n [->|?]%elem_of_cons; [by eexists|by apply Hall]. }
    assert (candidate i m ct name = qualifies i m ct o) as Hcand
      by (unfold candidate; by rewrite Hget).
    rewrite filter_cons.
    destruct (qualifies i m ct o) eqn:Hq.
    + rewrite decide_True by done. exists (o :: found).
      split; [by rewrite <-app_assoc|]. by constructor.
    + rewrite decide_False by (rewrite Hcand; done). by exists found.
Qed.

Lemma collect_Failure i m ct names acc e :
  collect i m ct names acc = Failure e →
  e = AttributeError ∧ ∃ name, name ∈ names ∧ getattr i m name = None.
Proof.
  revert acc. induction names as [|name names IH]; intros acc; cbn [collect];
    [done|].
  destruct (getattr i m name) as [o|] eqn:Hget.
  - intros (-> & n & ? & ?)%IH. split; [done|]. exists n.
    split; [by right|done].
  - intros [= <-]. split; [done|]. exists name. split; [by left|done].
Qed.

Lemma find_config_Success i m c :
  find_config i m = Success (Some c) →
  getattr i m "Config" = Some c ∧ isclass c = true ∧
  issubclass c BaseModel = true ∧ config_name_is_str c = true.
Proof.
  unfold find_config. case_bool_decide; [|done].
  destruct (getattr i m "Config") as [o|]; [|done].
  destruct (isclass o) eqn:?, (issubclass o BaseModel) eqn:?,
    (config_name_is_str o) eqn:?; cbn; try done.
  by intros [= <-].
Qed.

Lemma load_module_Success i m ct info :
  load_module i m ct = Success info →
  ∃ name,
    filter (λ name, candidate i m ct name = true) (dir i m) = [name] ∧
    getattr i m name = Some (module_class info) ∧
    qualifies i m ct (module_class info) = true ∧
    module info = m ∧
    find_config i m = Success (config_class info) ∧
    dir_ok i m.
Proof.
  unfold load_module.
  destruct (collect i m ct (dir i m) []) as [l|] eqn:Hc; [|done].
  apply collect_Success in Hc as (Hall & found & -> & Hfound).
  cbn [app] in *. destruct found as [|first others]; [done|].
  case_bool_decide as Hlen; [done|].
  destruct others; [|cbn in Hlen; lia].
  destruct (find_config i m) as [config|]; [|done].
  intros [= <-]. cbn.
  inversion Hfound as [|name ? rest ? [Hget Hq] Hnil Hfilter]; subst.
  inversion Hnil; subst. by exists name.
Qed.

(** X9. What [load_module] returns is the one class of the module that
    passes its test: the [ModuleInfo] names the module it was given; its
    [module_class] is the value of a name of [dir(module)], is a class
    defined in that module (or in none), a subclass of [class_type] other
    than [class_type] itself, with no base [ABC] and not abstract; no other
    name of the module has such a value; and its [config_class], when it
    has one, is the attribute [Config], a subclass of [BaseModel] whose
    [__config_name__] is a string. *)
Theorem load_module_returns_the_only_class i m ct info :
  load_module i m ct = Success info →
  module info = m ∧
  qualifies i m ct (module_class info) = true ∧
  (∃ name, name ∈ dir i m ∧ getattr i m name = Some (module_class info) ∧
     ∀ n o, n ∈ dir i m → getattr i m n = Some o →
       qualifies i m ct o = true → n = name) ∧
  (∀ c, config_class info = Some c →
     "Config"%string ∈ dir i m ∧ getattr i m "Config" = Some c ∧
     isclass c = true ∧ issubclass c BaseModel = true ∧
     config_name_is_str c = true).
Proof.
  intros (name & Hfilter & Hget & Hq & Hm & Hcfg & _)%load_module_Success.
  split; [done|]. split; [done|]. split.
  - exists name.
    assert (name ∈ filter (λ name, candidate i m ct name = true) (dir i m))
      as [_ Hin]%list_elem_of_filter by (rewrite Hfilter; by left).
    split; [done|]. split; [done|]. intros n o Hn Hgn Hqn.
    assert (n ∈ filter (λ name, candidate i m ct name = true) (dir i m))
      as Hnf.
    { apply list_elem_of_filter. split; [|done].
      unfold candidate. by rewrite Hgn. }
    rewrite Hfilter in Hnf. by apply list_elem_of_singleton in Hnf.
  - intros c Hc. rewrite Hc in Hcfg.
    pose proof (find_config_Success _ _ _ Hcfg) as (? & ? & ? & ?).
    split; [|done]. unfold find_config in Hcfg.
    by case_bool_decide.
Qed.

Lemma collect_total i m ct names acc :
  (∀ name, name ∈ names → is_Some (getattr i m name)) →
  ∃ l, collect i m ct names acc = Success l.
Proof.
  revert acc. induction names as [|name names IH]; intros acc Hall;
    cbn [collect]; [by eexists|].
  destruct (Hall name) as [o ->]; [by left|].
  apply IH. intros n ?. apply Hall. by right.
Qed.

(** X10. When [load_module] fails. In a module whose [dir] lists only
    names it has: if no name has a value that passes the test, the call
    raises [LoadModuleError] ("Can not find"); if two different names
    have such values, it raises [LoadModuleError] ("More then one"), also
    when both names are bound to the same class; and it raises nothing
    else. *)
Theorem load_module_fails_by_count i m ct :
  dir_ok i m →
  ((∀ n o, n ∈ dir i m → getattr i m n = Some o →
      qualifies i m ct o = false) →
   load_module i m ct = Failure (LoadModuleError CanNotFind)) ∧
  (∀ n1 n2 o1 o2, n1 ≠ n2 → n1 ∈ dir i m → n2 ∈ dir i m →
     getattr i m n1 = Some o1 → getattr i m n2 = Some o2 →
     qualifies i m ct o1 = true → qualifies i m ct o2 = true →
     load_module i m ct = Failure (LoadModuleError MoreThenOne)) ∧
  (∀ e, load_module i m ct = Failure e →
     e = LoadModuleError CanNotFind ∨ e = LoadModuleError MoreThenOne).
Proof.
  intros Hok.
  destruct (collect_total i m ct (dir i m) [] Hok) as [l Hl].
  pose proof (collect_Success _ _ _ _ _ _ Hl) as (_ & found & -> & Hfound).
  cbn [app] in *. unfold load_module. rewrite Hl. split; [|split].
  - intros Hnone.
    destruct (filter (λ name, candidate i m ct name = true) (dir i m))
      as [|n ns] eqn:Hf.
    + by inversion Hfound.
    + assert (n ∈ filter (λ name, candidate i m ct name = true) (dir i m))
        as [Hcand Hn]%list_elem_of_filter by (rewrite Hf; by left).
      unfold candidate in Hcand.
      destruct (getattr i m n) as [o|] eqn:Hg; [|done].
      by rewrite (Hnone _ _ Hn Hg) in Hcand.
  - intros n1 n2 o1 o2 Hne H1 H2 Hg1 Hg2 Hq1 Hq2.
    assert (∀ n o, n ∈ dir i m → getattr i m n = Some o →
              qualifies i m ct o = true →
              n ∈ filter (λ name, candidate i m ct name = true) (dir i m))
      as Hin.
    { intros n o Hn Hg Hq. apply list_elem_of_filter. split; [|done].
      unfold candidate. by rewrite Hg. }
    pose proof (Hin _ _ H1 Hg1 Hq1) as Hf1.
    pose proof (Hin _ _ H2 Hg2 Hq2) as Hf2.
    pose proof (Forall2_length _ _ _ Hfound) as Hlen.
    destruct (filter (λ name, candidate i m ct name = true) (dir i m))
      as [|a [|b rest]].
    + by apply not_elem_of_nil in Hf1.
    + apply list_elem_of_singleton in Hf1, Hf2. congruence.
    + destruct found as [|x [|y found]]; try done.
  - intros e. destruct found as [|first others]; [intros [= <-]; by left|].
    case_bool_decide; [intros [= <-]; by right|].
    unfold find_config. case_bool_decide as Hcfg; [|done].
    destruct (Hok _ Hcfg) as [c ->]. by repeat case_match.
Qed.

(** X11. [ModuleInfo.reload] never returns. The module is reloaded (the
    world after the call is the one [importlib.reload] leaves), the slots
    of [self] are as they were, and the call raises: the exception of
    [importlib.reload] if that fails; else the exception of [load_module]
    if the reloaded module has not exactly one class that passes; else,
    when everything [reload] asks for is there, [TypeError], since
    [load_module] returns a [ModuleInfo] and line 147 unpacks it as a pair.
    Had [load_module] returned the pair of the two classes, as its
    docstring says, the same two assignments would have brought [self] up
    to date with the reloaded module. *)
Theorem reload_never_succeeds self ct s :
  let w := (importlib_reload (module self) (now s)).1 in
  reload self ct s =
    (Session w (imported s), self,
     Failure
       match (importlib_reload (module self) (now s)).2 with
       | Failure e => e
       | Success _ =>
           match load_module (interp w) (module self) ct with
           | Failure e => e
           | Success _ => TypeError
           end
       end) ∧
  (∀ info, load_module (interp w) (module self) ct = Success info →
     assign_loaded self (PyModuleInfo info) = (self, Failure TypeError) ∧
     assign_loaded self (PyPair (module_class info) (config_class info)) =
       (info, Success tt)).
Proof.
  intros w. subst w. unfold reload.
  destruct (importlib_reload (module self) (now s)) as [w [m|e]] eqn:Hr;
    cbn [fst snd].
  - split.
    + by destruct (load_module (interp w) (module self) ct) as [info|e].
    + intros info Hl. split; [done|].
      apply load_module_Success in Hl as (_ & _ & _ & _ & Hm & _).
      unfold assign_loaded. cbn [unpack]. destruct info as [c cfg m'].
      cbn in *. by rewrite Hm.
  - split; [done|]. intros info Hl. split; [done|].
    apply load_module_Success in Hl as (_ & _ & _ & _ & Hm & _).
    unfold assign_loaded. cbn [unpack]. destruct info as [c cfg m'].
    cbn in *. by rewrite Hm.
Qed.

Lemma load_module_from_name_spec name ct s s' r :
  load_module_from_name name ct s = (s', r) →
  imported s' = imported s ++ [name] ∧
  ∀ info, r = Success info →
    load_module (interp (now s')) (module info) ct = Success info.
Proof.
  unfold load_module_from_name.
  destruct (import_module name (invalidate_caches (now s)))
    as [w [m|e]] eqn:Hi.
  - destruct (importlib_reload m w) as [w' [m'|e]] eqn:Hr.
    + intros [= <- <-]. split; [done|]. cbn. intros info Hl.
      pose proof (load_module_Success _ _ _ _ Hl) as (_ & _ & _ & _ & -> & _).
      done.
    + intros [= <- <-]. by split.
  - intros [= <- <-]. by split.
Qed.

Lemma load_one_spec name ct mods s s' r :
  load_one name ct mods s = (s', r) →
  (String.prefix "_" name = true ∧ s' = s ∧ r = Success mods) ∨
  (String.prefix "_" name = false ∧ imported s' = imported s ++ [name] ∧
   match r with
   | Success mods' =>
       mods' = mods ∨
       ∃ info, mods' = mods ++ [info] ∧
         load_module (interp (now s')) (module info) ct = Success info
   | Failure e => ∀ msg, e ≠ LoadModuleError msg
   end).
Proof.
  unfold load_one. destruct (String.prefix "_" name); cbn [negb].
  - intros [= <- <-]. by left.
  - destruct (load_module_from_name name ct s) as [s1 r1] eqn:Hl.
    apply load_module_from_name_spec in Hl as [Himp Hinfo].
    intros Hr. right. split; [done|].
    destruct r1 as [info|[]]; injection Hr as <- <-; split; try done.
    + right. exists info. split; [done|]. by apply Hinfo.
    + by left.
Qed.

Lemma iter_names_spec names ct yielded mods s s' r :
  iter_names names ct yielded mods s = (s', r) →
  ∃ new, imported s' = imported s ++ new ∧ NoDup new ∧
    (∀ n, n ∈ new → (n ∉ yielded) ∧ n ∈ names ∧ String.prefix "_" n = false) ∧
    match r with
    | Success (yielded', mods') =>
        (∀ n, n ∈ yielded ∨ n ∈ new → n ∈ yielded') ∧
        (∃ more, mods' = mods ++ more ∧ (length more ≤ length new)%nat ∧
           Forall (checked ct) more)
    | Failure e => ∀ msg, e ≠ LoadModuleError msg
    end.
Proof.
  revert yielded mods s.
  induction names as [|name names IH]; intros yielded mods s; cbn [iter_names].
  - intros [= <- <-]. exists []. rewrite app_nil_r.
    split; [done|]. split; [constructor|]. split; [by intros ? ?%not_elem_of_nil|].
    split; [by intros n [?|?%not_elem_of_nil]|].
    exists []. by rewrite app_nil_r.
  - case_bool_decide as Hy.
    + intros (new & ? & ? & Hnew & Hr)%IH. exists new.
      split; [done|]. split; [done|]. split; [|done].
      intros n Hn. destruct (Hnew n Hn) as (? & ? & ?).
      split; [done|]. split; [by right|done].
    + destruct (load_one name ct mods s) as [s1 r1] eqn:Hone.
      apply load_one_spec in Hone as [(Hp & -> & ->)|(Hp & Himp & Hr1)].
      * intros (new & ? & ? & Hnew & Hr)%IH. exists new.
        split; [done|]. split; [done|]. split.
        -- intros n Hn. destruct (Hnew n Hn) as (Hny & ? & ?).
           split; [|split; [by right|done]].
           intros ?. apply Hny. apply elem_of_app. by left.
        -- destruct r as [[y' m']|e]; [|done].
           destruct Hr as [Hy' Hm]. split; [|done].
           intros n [?|?]; apply Hy'; [left; apply elem_of_app; by left|by right].
      * destruct r1 as [mods1|e].
        -- intros (new & Himp' & Hnd & Hnew & Hr)%IH. exists (name :: new).
           split. { rewrite Himp', Himp. by rewrite <-app_assoc. }
           split.
           { constructor; [|done]. intros Hn. destruct (Hnew _ Hn) as [Hny _].
             apply Hny. apply elem_of_app. right. by left. }
           split.
           { intros n [->|Hn]%elem_of_cons; [by split; [|split; [left|]]|].
             destruct (Hnew n Hn) as (Hny & ? & ?).
             split; [|split; [by right|done]].
             intros ?. apply Hny. apply elem_of_app. by left. }
           destruct r as [[y' m']|e]; [|done].
           destruct Hr as (Hy' & more & -> & Hlen & Hall). split.
           { intros n [?|[->|?]%elem_of_cons]; apply Hy'.
             - left. apply elem_of_app. by left.
             - left. apply elem_of_app. right. by left.
             - by right. }
           destruct Hr1 as [->|(info & -> & Hinfo)].
           ++ exists more. split; [done|]. split; [cbn; lia|done].
           ++ exists (info :: more). split; [by rewrite <-app_assoc|].
              split; [cbn; lia|]. constructor; [by eexists|done].
        -- intros [= <- <-]. exists [name]. split; [done|].
           split; [apply NoDup_singleton|]. split; [|done].
           intros n ->%list_elem_of_singleton. by split; [|split; [left|]].
Qed.

Lemma iter_importers_spec entries ct yielded mods s s' r :
  iter_importers entries ct yielded mods s = (s', r) →
  ∃ new, imported s' = imported s ++ new ∧ NoDup new ∧
    (∀ n, n ∈ new → (n ∉ yielded) ∧ String.prefix "_" n = false) ∧
    match r with
    | Success mods' =>
        ∃ more, mods' = mods ++ more ∧ (length more ≤ length new)%nat ∧
          Forall (checked ct) more
    | Failure e => ∀ msg, e ≠ LoadModuleError msg
    end.
Proof.
  revert yielded mods s.
  induction entries as [|entry entries IH]; intros yielded mods s;
    cbn [iter_importers].
  - intros [= <- <-]. exists []. rewrite app_nil_r.
    split; [done|]. split; [constructor|].
    split; [by intros ? ?%not_elem_of_nil|].
    exists []. by rewrite app_nil_r.
  - destruct (iter_names _ ct yielded mods s) as [s1 r1] eqn:Hn.
    apply iter_names_spec in Hn as (new1 & Himp1 & Hnd1 & Hnew1 & Hr1).
    destruct r1 as [[y1 m1]|e].
    + destruct Hr1 as (Hy1 & more1 & -> & Hlen1 & Hall1).
      intros (new2 & Himp2 & Hnd2 & Hnew2 & Hr)%IH.
      exists (new1 ++ new2).
      split. { rewrite Himp2, Himp1. by rewrite <-app_assoc. }
      split.
      { apply NoDup_app. split; [done|]. split; [|done].
        intros n Hn1 Hn2. destruct (Hnew2 n Hn2) as [Hny _].
        apply Hny, Hy1. by right. }
      split.
      { intros n [Hn|Hn]%elem_of_app.
        - destruct (Hnew1 n Hn) as (? & _ & ?). by split.
        - destruct (Hnew2 n Hn) as (Hny & ?). split; [|done].
          intros ?. apply Hny, Hy1. by left. }
      destruct r as [mods'|e]; [|done].
      destruct Hr as (more2 & -> & Hlen2 & Hall2).
      exists (more1 ++ more2). split; [by rewrite <-app_assoc|].
      split; [rewrite !length_app; lia|]. by apply Forall_app.
    + intros [= <- <-]. exists new1. split; [done|]. split; [done|].
      split; [|done]. intros n Hn. destruct (Hnew1 n Hn) as (? & _ & ?).
      by split.
Qed.

(** X12. A scan by [load_modules_from_dir]: the names it passes to
    [importlib.import_module] are pairwise different and none starts with
    an underscore; if it returns, it returns at most one [ModuleInfo] per
    imported name, each of them a result of [load_module] for its module;
    and if it raises, the exception is not a [LoadModuleError]. *)
Theorem scan_imports path ct s :
  let s' := (load_modules_from_dir path ct s).1 in
  let r := (load_modules_from_dir path ct s).2 in
  ∃ new, imported s' = imported s ++ new ∧ NoDup new ∧
    (∀ n, n ∈ new → String.prefix "_" n = false) ∧
    match r with
    | Success mods => (length mods ≤ length new)%nat ∧ Forall (checked ct) mods
    | Failure e => ∀ msg, e ≠ LoadModuleError msg
    end.
Proof.
  unfold load_modules_from_dir.
  destruct (iterate path) as [items path'] eqn:Hit.
  assert (∀ entries,
    let res := iter_importers entries ct [] [] (set_path items s) in
    ∃ new, imported res.1 = imported s ++ new ∧ NoDup new ∧
      (∀ n, n ∈ new → String.prefix "_" n = false) ∧
      match res.2 with
      | Success mods =>
          (length mods ≤ length new)%nat ∧ Forall (checked ct) mods
      | Failure e => ∀ msg, e ≠ LoadModuleError msg
      end) as Hscan.
  { intros entries.
    destruct (iter_importers entries ct [] [] (set_path items s))
      as [s1 r1] eqn:Hi. cbn.
    apply iter_importers_spec in Hi as (new & Himp & Hnd & Hnew & Hr).
    exists new. split; [done|]. split; [done|].
    split; [intros n Hn; by destruct (Hnew n Hn)|].
    destruct r1 as [mods|e]; [|done].
    by destruct Hr as (more & -> & ? & ?). }
  destruct path'; [apply Hscan|apply Hscan|].
  cbn. exists []. rewrite app_nil_r. split; [done|].
  split; [constructor|]. split; [by intros ? ?%not_elem_of_nil|done].
Qed.


Lemma code_points_concat str :
  foldr String.app ""%string (code_points str) = str.
Proof.
  induction str as [|c rest IH]; [done|]. cbn [code_points].
  destruct (code_points rest) as [|g gs] eqn:Hg.
  - cbn in *. by rewrite <-IH.
  - destruct (continued rest); cbn [foldr] in IH |- *.
    + change (String c g +:+ foldr String.app "" gs)%string
        with (String c (g +:+ foldr String.app "" gs))%string.
      by rewrite IH.
    + change (String c "" +:+ (g +:+ foldr String.app "" gs))%string
        with (String c (g +:+ foldr String.app "" gs))%string.
      by rewrite IH.
Qed.

Lemma code_points_ascii str :
  Forall (λ c, continues c = false) (String.list_ascii_of_string str) →
  code_points str =
    (λ c, String c EmptyString) <$> String.list_ascii_of_string str.
Proof.
  induction str as [|c rest IH]; [done|].
  cbn [String.list_ascii_of_string]. intros [_ Hrest]%Forall_cons.
  cbn [code_points]. rewrite (IH Hrest).
  destruct rest as [|c' rest']; [done|].
  cbn [String.list_ascii_of_string continued fmap list_fmap] in *.
  apply Forall_cons in Hrest as [-> _]. done.
Qed.

(** X13. Paths that load nothing. Given an iterator (a generator, say),
    [load_modules_from_dir] sets the finder's path to its items and
    returns the empty list without importing anything, since [list(path)]
    has used the iterator up before [pkgutil.iter_modules] walks it. Given
    a string, it sets the finder's path to the characters of the string,
    one item per code point (they spell the string; for a string of ASCII
    characters they are its bytes), and raises [ValueError]. Given a list
    of the same one directory, it does import the module found there. *)
Theorem paths_that_load_nothing ct s :
  (∀ rest,
     load_modules_from_dir (IteratorOf rest) ct s =
       (set_path rest s, Success [])) ∧
  (∀ str,
     load_modules_from_dir (StrOf str) ct s =
       (set_path (code_points str) s,
        Failure (OtherException "ValueError")) ∧
     foldr String.app ""%string (code_points str) = str ∧
     (Forall (λ c, continues c = false) (String.list_ascii_of_string str) →
      code_points str =
        (λ c, String c EmptyString) <$> String.list_ascii_of_string str)) ∧
  (∀ entry name,
     iter_importer_modules entry (now (set_path [entry] s)) = [name] →
     String.prefix "_" name = false →
     imported (load_modules_from_dir (ListOf [entry]) ct s).1 =
       imported s ++ [name]).
Proof.
  split; [done|]. split.
  - intros str. split; [done|]. split.
    + apply code_points_concat.
    + apply code_points_ascii.
  - intros entry name Hnames Hprefix.
    unfold load_modules_from_dir. cbn [iterate fst iter_importers].
    rewrite Hnames. cbn [iter_names].
    rewrite bool_decide_eq_false_2 by apply not_elem_of_nil.
    destruct (load_one name ct [] (set_path [entry] s)) as [s1 r1] eqn:Hone.
    apply load_one_spec in Hone as [(Hp & _)|(_ & Himp & _)]; [congruence|].
    by destruct r1.
Qed.

(** ** Paths *)

Lemma rfind_absent c p : c ∉ p → rfind c p = -1.
Proof.
  induction p as [|a p IH]; [done|]. intros [Hne Hp]%not_elem_of_cons.
  cbn [rfind]. rewrite (IH Hp).
  rewrite (bool_decide_eq_false_2 (0 ≤ -1)) by lia.
  by rewrite bool_decide_eq_false_2 by done.
Qed.

Lemma rfind_last c l1 l2 :
  c ∉ l2 → rfind c (l1 ++ c :: l2) = Z.of_nat (length l1).
Proof.
  intros Hl2. induction l1 as [|a l1 IH]; cbn [app rfind].
  - rewrite (rfind_absent _ _ Hl2).
    rewrite (bool_decide_eq_false_2 (0 ≤ -1)) by lia.
    by rewrite bool_decide_eq_true_2.
  - rewrite IH. rewrite bool_decide_eq_true_2 by lia. cbn [length]. lia.
Qed.

Lemma rfind_spec c p :
  ((c ∉ p) ∧ rfind c p = -1) ∨
  ∃ l1 l2, p = l1 ++ c :: l2 ∧ (c ∉ l2) ∧ rfind c p = Z.of_nat (length l1).
Proof.
  induction p as [|a p IH].
  - left. split; [apply not_elem_of_nil|done].
  - destruct IH as [[Hp Hr]|(l1 & l2 & -> & Hl2 & Hr)].
    + destruct (decide (a = c)) as [->|Hne].
      * right. exists [], p. split; [done|]. split; [done|].
        by apply (rfind_last c []).
      * left. split; [by apply not_elem_of_cons|].
        apply rfind_absent. by apply not_elem_of_cons.
    + right. exists (a :: l1), l2. split; [done|]. split; [done|].
      by apply (rfind_last c (a :: l1)).
Qed.

Lemma skips_leading_dots_spec p k steps :
  skips_leading_dots p k steps = true ↔
  ∃ j, (k ≤ j < k + steps)%nat ∧ p !! j ≠ Some "."%char.
Proof.
  revert k. induction steps as [|steps IH]; intros k; cbn [skips_leading_dots].
  - split; [done|]. intros (j & ? & _). lia.
  - case_bool_decide as Hk.
    + split; [|done]. intros _. exists k. split; [lia|done].
    + rewrite IH. split.
      * intros (j & ? & ?). exists j. split; [lia|done].
      * intros (j & ? & Hj). exists j. split; [|done].
        destruct (decide (j = k)) as [->|]; [|lia]. by destruct Hk.
Qed.

Lemma splitext_py b name :
  ("/"%char ∉ b) →
  posixpath_splitext_chars b = (name, dot_py) ↔
  b = name ++ dot_py ∧ ∃ c, c ∈ name ∧ c ≠ "."%char.
Proof.
  intros Hsep. unfold posixpath_splitext_chars.
  rewrite (rfind_absent _ _ Hsep). cbn [Z.add Z.to_nat].
  split.
  - destruct (rfind_spec "." b) as [[_ ->]|(l1 & l2 & -> & Hl2 & ->)]; [done|].
    rewrite bool_decide_eq_true_2 by lia. cbn [andb].
    replace (Z.to_nat (Z.of_nat (length l1) - 0)) with (length l1) by lia.
    rewrite Nat2Z.id.
    destruct (skips_leading_dots _ _ _) eqn:Hskip; [|done].
    rewrite take_app_length, drop_app_length. intros [= <- ->].
    apply skips_leading_dots_spec in Hskip as (j & Hj & Hc).
    rewrite lookup_app_l in Hc by lia.
    destruct (lookup_lt_is_Some_2 l1 j) as [c Hjc]; [lia|].
    split; [done|]. exists c.
    split; [by eapply list_elem_of_lookup_2|]. congruence.
  - intros [-> (c & Hc & Hne)].
    assert (rfind "." (name ++ dot_py) = Z.of_nat (length name)) as ->.
    { apply (rfind_last "." name ["p"; "y"]%char).
      intros Hin. by repeat (apply elem_of_cons in Hin as [?|Hin]; [done|]);
        apply not_elem_of_nil in Hin. }
    rewrite bool_decide_eq_true_2 by lia. cbn [andb].
    replace (Z.to_nat (Z.of_nat (length name) - 0)) with (length name) by lia.
    rewrite Nat2Z.id.
    apply list_elem_of_lookup_1 in Hc as [j Hj].
    pose proof (lookup_lt_Some _ _ _ Hj).
    rewrite (proj2 (skips_leading_dots_spec _ _ _)).
    + by rewrite take_app_length, drop_app_length.
    + exists j. split; [lia|]. rewrite lookup_app_l by lia. congruence.
Qed.

Lemma split_tail p :
  let tail := (posixpath_split_chars p).2 in
  ("/"%char ∉ tail) ∧
  ∃ before, p = before ++ tail ∧ (before = [] ∨ last before = Some "/"%char).
Proof.
  unfold posixpath_split_chars.
  set (i := Z.to_nat (rfind "/" p + 1)).
  assert (("/"%char ∉ drop i p) ∧
          ∃ before, p = before ++ drop i p ∧
            (before = [] ∨ last before = Some "/"%char)) as Htail.
  { subst i.
    destruct (rfind_spec "/" p) as [[Hp ->]|(l1 & l2 & -> & Hl2 & ->)].
    - cbn. split; [done|]. exists []. by split; [|left].
    - replace (Z.to_nat (Z.of_nat (length l1) + 1)) with (length (l1 ++ ["/"%char]))
        by (rewrite length_app; cbn; lia).
      rewrite (cons_middle _ l1 l2), app_assoc, drop_app_length.
      split; [done|]. exists (l1 ++ ["/"%char]). split; [done|].
      right. by rewrite last_snoc. }
  by case_bool_decide.
Qed.

Lemma chars_app a b :
  String.list_ascii_of_string (a +:+ b) =
  String.list_ascii_of_string a ++ String.list_ascii_of_string b.
Proof.
  induction a as [|c a IH]; [done|].
  change (String c a +:+ b) with (String c (a +:+ b)).
  cbn [String.list_ascii_of_string app]. by rewrite IH.
Qed.

Lemma of_chars_app l1 l2 :
  String.string_of_list_ascii (l1 ++ l2) =
  String.string_of_list_ascii l1 +:+ String.string_of_list_ascii l2.
Proof.
  induction l1 as [|c l1 IH]; [done|].
  cbn [app String.string_of_list_ascii]. by rewrite IH.
Qed.

(** X14. Which files [load_module_form_file] takes, on a POSIX system.
    The base name of [path] is what follows its last slash. If the base
    name is [name + ".py"] and [name] has a character other than a dot,
    the call sets the finder's path to the one directory of the file and
    loads the module [name]; for every other path it raises
    [LoadModuleError] and changes nothing: it imports nothing and leaves
    the finder's path as it was. *)
Theorem file_must_be_named_py path ct s :
  (∀ p, os_path_split p = posixpath_split p) →
  (∀ p, os_path_splitext p = posixpath_splitext p) →
  let dirname := (posixpath_split path).1 in
  let basename := (posixpath_split path).2 in
  let named name :=
    basename = name +:+ ".py" ∧
    ∃ c, c ∈ String.list_ascii_of_string name ∧ c ≠ "."%char in
  (("/"%char ∉ String.list_ascii_of_string basename) ∧
   ∃ before, path = before +:+ basename ∧
     (before = ""%string ∨
      last (String.list_ascii_of_string before) = Some "/"%char)) ∧
  (∀ name, named name →
     load_module_form_file path ct s =
       load_module_from_name name ct (set_path [dirname] s)) ∧
  ((¬ ∃ name, named name) →
     load_module_form_file path ct s =
       (s, Failure (LoadModuleError ExtensionMustBePy))).
Proof.
  intros Hsplit Hsplitext dirname basename named.
  pose proof (split_tail (String.list_ascii_of_string path))
    as (Hsep & before & Hpath & Hbefore).
  assert (String.list_ascii_of_string basename =
          (posixpath_split_chars (String.list_ascii_of_string path)).2)
    as Hbase.
  { subst basename. unfold posixpath_split, on_chars.
    destruct (posixpath_split_chars _) as [h t]. cbn.
    apply list_ascii_of_string_of_list_ascii. }
  rewrite <-Hbase in Hsep, Hpath.
  assert (∀ name, named name ↔
            posixpath_splitext basename = (name, ".py"%string)) as Hnamed.
  { intros name. unfold posixpath_splitext, on_chars.
    destruct (posixpath_splitext_chars _) as [a b] eqn:Hext. split.
    - intros [Hb Hc].
      assert (posixpath_splitext_chars (String.list_ascii_of_string basename)
              = (String.list_ascii_of_string name, dot_py)) as Hext'.
      { apply splitext_py; [done|]. split; [|done].
        by rewrite Hb, chars_app. }
      rewrite Hext in Hext'. injection Hext' as -> ->.
      by rewrite string_of_list_ascii_of_string.
    - intros [= <- Hb].
      assert (b = dot_py) as ->.
      { by rewrite <-(list_ascii_of_string_of_list_ascii b), Hb. }
      apply splitext_py in Hext as [Hbn Hc]; [|done]. split.
      + rewrite <-(string_of_list_ascii_of_string basename), Hbn.
        by rewrite of_chars_app.
      + by rewrite list_ascii_of_string_of_list_ascii. }
  split; [|split].
  - split; [done|]. exists (String.string_of_list_ascii before). split.
    + rewrite <-(string_of_list_ascii_of_string path), Hpath, of_chars_app.
      by rewrite string_of_list_ascii_of_string.
    + rewrite list_ascii_of_string_of_list_ascii.
      destruct Hbefore as [->|?]; [by left|by right].
  - intros name Hname%Hnamed. unfold load_module_form_file.
    rewrite Hsplit. subst dirname basename.
    destruct (posixpath_split path) as [d b]. cbn [fst snd] in *.
    rewrite Hsplitext, Hname. by rewrite bool_decide_eq_false_2 by (by intros ?).
  - intros Hnone. unfold load_module_form_file.
    rewrite Hsplit. subst dirname basename.
    destruct (posixpath_split path) as [d b]. cbn [fst snd] in *.
    rewrite Hsplitext.
    destruct (posixpath_splitext b) as [name ext] eqn:Hext.
    case_bool_decide as Hpy; [done|].
    destruct Hnone. exists name. apply Hnamed.
    destruct (decide (ext = ".py"%string)) as [->|]; [done|by destruct Hpy].
Qed.


End LoaderProperties.

(** * The further properties at concrete stores *)

(** [notify("x", 1)] then [notify("y", 1)] on the three waiters: the
    third is the one still pending. *)
Lemma notify_then_notify_witness :
  holds 0 three_locked ∧ NoDup (waiters three_locked) ∧
  pending (notify (PyStr "y") 1 (notify (PyStr "x") 1 three_locked).1).1 =
    drop (Z.to_nat (1 + 1)) (pending three_locked) ∧
  pending (notify (PyStr "y") 1 (notify (PyStr "x") 1 three_locked).1).1 =
    [2%nat].
Proof.
  assert (holds 0 three_locked) as Hh by by vm_compute.
  assert (NoDup (waiters three_locked)) as Hnd by by_decision.
  split; [done|]. split; [done|].
  destruct (notify_then_notify 0%nat (PyStr "x") (PyStr "y") 1 1 three_locked
              Hh Hnd ltac:(lia) ltac:(lia)) as (_ & Hp & _).
  split; [exact Hp|]. by vm_compute.
Defined.

(** The run of the waiter that is cancelled while it queues for the lock
    ends with the cancellation error; leaving the block then releases the
    lock and lets the error through. *)
Lemma exit_after_wait_witness :
  wait_run 1 (AtFut 0) one_notified [Send; Throw; Send]
    (wait_resume 1 (AtAcquire 2 true (Returned (PyInt 1))) Send
       one_retrying_released).1 (Raised CancelledError) ∧
  ∃ st'',
    aexit (Raised CancelledError : outcome pyval)
      (wait_resume 1 (AtAcquire 2 true (Returned (PyInt 1))) Send
         one_retrying_released).1 = (st'', Raised CancelledError) ∧
    lk_locked st'' = false.
Proof.
  assert (wait_run 1 (AtFut 0) one_notified [Send; Throw; Send]
    (wait_resume 1 (AtAcquire 2 true (Returned (PyInt 1))) Send
       one_retrying_released).1 (Raised CancelledError)) as Hrun.
  { apply (run_suspended _ (AtFut 0) Send one_notified one_requeued
             (AtAcquire 1 false (Returned (PyInt 1))) one_requeued_cancelled);
      [by vm_compute|].
    apply (run_suspended _ (AtAcquire 1 false (Returned (PyInt 1))) Throw
             one_requeued_cancelled one_retrying
             (AtAcquire 2 true (Returned (PyInt 1))) one_retrying_released);
      [by vm_compute|].
    apply run_finished. by vm_compute. }
  split; [exact Hrun|].
  destruct (exit_after_wait (A:=pyval) 1 _ _ _ _ _ Hrun I)
    as [(st'' & Hex & Hl & _) _].
  exists st''. by split.
Defined.

(** In [handed_over] the lock is free and its wake-up is on the way to
    task 1, which takes the lock when it runs. *)
Lemma lock_taken_only_when_free_witness :
  reachable (store handed_over) ∧
  lk_locked (store handed_over) = false ∧
  holds 1 (wait_resume 1 (AtAcquire 1 false (Returned (PyInt 1))) Send
             (store handed_over)).1.
Proof.
  assert (reachable (store handed_over)) as Hreach.
  { apply sys_reachable_store.
    apply (sys_run_reachable hand_over new_program);
      [apply sys_reachable_init|by vm_compute]. }
  split; [done|].
  destruct (lock_taken_only_when_free _ Hreach) as (_ & Hwait & _).
  apply (Hwait 1%nat (AtAcquire 1 false (Returned (PyInt 1))) Send _
           (Returned (PyInt 1))); [by vm_compute|exact I].
Defined.

(** The handle 0 of the first of the three waiters is not touched by a
    release, nor by the resumption of the cancelled second waiter. *)
Lemma handles_change_only_by_notify_witness :
  reachable (store second_cancelled) ∧
  0%nat ∈ waiters (store second_cancelled) ∧
  futs (release (store second_cancelled)).1 !! 0%nat =
    futs (store second_cancelled) !! 0%nat ∧
  futs (wait_resume 2 (AtFut 1) Throw (store second_cancelled)).1 !! 0%nat =
    futs (store second_cancelled) !! 0%nat.
Proof.
  assert (reachable (store second_cancelled)) as Hreach.
  { apply sys_reachable_store.
    apply (sys_run_reachable (three_waiters ++ [LCancel 2]) new_program);
      [apply sys_reachable_init|by vm_compute]. }
  assert (0%nat ∈ waiters (store second_cancelled)) as Hin by by_decision.
  destruct (handles_change_only_by_notify _ _ Hreach Hin)
    as (_ & _ & Hrel & _ & Hres).
  split; [done|]. split; [done|]. split; [exact Hrel|apply Hres].
Defined.

(** In [handed_over], task 1 is resumed by a send: the future of the lock
    it awaits is done. Its [wait] ends with the value, holding the lock. *)
Lemma calls_end_cleanly_witness :
  loop_reachable handed_over ∧
  tasks handed_over !! 1%nat =
    Some (InWait (AtAcquire 1 false (Returned (PyInt 1)))) ∧
  sound_wakeup (store handed_over) 1%nat Send ∧
  returned_or_cancelled (Returned (PyInt 1) : outcome pyval) ∧
  holds 1 (wait_resume 1 (AtAcquire 1 false (Returned (PyInt 1))) Send
             (store handed_over)).1.
Proof.
  assert (loop_reachable handed_over) as Hreach.
  { apply (loop_run_reachable hand_over new_program);
      [apply loop_reachable_init| |by vm_compute].
    vm_compute. repeat split. intros ts [= <-]. by right. }
  assert (tasks handed_over !! 1%nat =
            Some (InWait (AtAcquire 1 false (Returned (PyInt 1))))) as Ht
    by by vm_compute.
  assert (sound_wakeup (store handed_over) 1%nat Send) as Hs
    by (right; by vm_compute).
  split; [done|]. split; [done|]. split; [done|].
  apply (calls_end_cleanly handed_over 1%nat _ Send Hreach Ht Hs).
  by vm_compute.
Defined.

(** After [notify_all("x")] and the release, the three waiters run in the
    order 2, 1, 3 and each returns ["x"]; the queue is empty at the
    end. *)
Lemma notify_all_reaches_every_waiter_witness :
  holds 0 three_locked ∧ NoDup (waiters three_locked) ∧
  NoDup three_turns.*2 ∧
  (drain three_turns
     (release (notify_all (PyStr "x") three_locked).1).1).2 =
    [Finished (Returned (PyStr "x")); Finished (Returned (PyStr "x"));
     Finished (Returned (PyStr "x"))] ∧
  waiters (drain three_turns
     (release (notify_all (PyStr "x") three_locked).1).1).1 = [].
Proof.
  assert (holds 0 three_locked) as Hh by by vm_compute.
  assert (NoDup (waiters three_locked)) as Hnd by by_decision.
  assert (NoDup three_turns.*2) as Hndt by by_decision.
  assert (∀ f, f ∈ lk_waiters three_locked → cancelled three_locked f = true)
    as Hc.
  { apply Forall_forall. by_decision. }
  assert (∀ f, f ∈ three_turns.*2 → f ∈ pending three_locked) as Hp.
  { apply Forall_forall. by_decision. }
  destruct (notify_all_reaches_every_waiter 0%nat (PyStr "x") three_locked
              three_turns Hh Hnd Hc Hndt Hp) as (Hrs & Hw & _).
  split; [done|]. split; [done|]. split; [done|].
  split; [exact Hrs|]. rewrite Hw. by vm_compute.
Defined.

(** The module [hello] of the directory: its one plugin class and its
    [Config]. *)
Lemma load_module_returns_the_only_class_witness :
  load_module plugins 0%nat Plugin =
    Success (NewModuleInfo Hello (Some HelloConfig) 0%nat) ∧
  qualifies plugins 0%nat Plugin Hello = true ∧
  getattr plugins 0%nat "Config" = Some HelloConfig.
Proof.
  assert (load_module plugins 0%nat Plugin =
            Success (NewModuleInfo Hello (Some HelloConfig) 0%nat)) as Hl
    by by vm_compute.
  destruct (load_module_returns_the_only_class _ _ _ _ Hl)
    as (_ & Hq & _ & Hcfg).
  split; [done|]. split; [exact Hq|].
  by destruct (Hcfg HelloConfig eq_refl) as (_ & ? & _).
Defined.

(** The module [twice] binds its plugin class to the names [Alias] and
    [Twice]: it cannot be loaded. *)
Lemma load_module_fails_by_count_witness :
  dir_ok plugins 1%nat ∧
  load_module plugins 1%nat Plugin = Failure (LoadModuleError MoreThenOne).
Proof.
  assert (dir_ok plugins 1%nat) as Hok.
  { unfold dir_ok. apply Forall_forall. by_decision. }
  split; [done|].
  destruct (load_module_fails_by_count plugins 1%nat Plugin Hok)
    as (_ & Htwo & _).
  apply (Htwo "Alias" "Twice" Twice Twice)%string;
    [done|by_decision|by_decision|by vm_compute..].
Defined.

(** ["plugins/hello.py"] is taken: the module [hello] is loaded with the
    finder's path set to [["plugins"]]. *)
Lemma file_must_be_named_py_witness :
  posixpath_split "plugins/hello.py" = ("plugins", "hello.py")%string ∧
  load_module_form_file "plugins/hello.py" Plugin at_start =
    load_module_from_name "hello" Plugin (set_path ["plugins"%string] at_start).
Proof.
  split; [by vm_compute|].
  assert (∀ p, os_path_split (O:=pyobject) (I:=pymodules) p =
               posixpath_split p) as Hsplit by done.
  assert (∀ p, os_path_splitext (O:=pyobject) (I:=pymodules) p =
               posixpath_splitext p) as Hsplitext by done.
  destruct (file_must_be_named_py "plugins/hello.py" Plugin at_start
              Hsplit Hsplitext) as (_ & Hnamed & _).
  apply (Hnamed "hello"%string). split; [by vm_compute|].
  exists "h"%char. split; [by_decision|done].
Defined.
